(** * jsonrules: the tree automaton for JSONPath and the transformation engine

    A shallow embedding of [src/automaton.js] (the path parser and the
    match engine) and of [src/transformer.js] (aggregate reducers, value
    extraction, the location writer and the mapping driver), followed by
    the properties of the specification stated over that embedding.

    Conventions of the embedding:
    - JavaScript values are the inductive type [value]; documents are
      trees, so a value never aliases another one and [_.cloneDeep] is
      the identity;
    - numbers are the integers together with [NaN] (fractions and the
      infinities are not represented);
    - a function that can throw returns a [completion];
    - the JavaScript operators whose meaning depends on the full coercion
      rules of the language ([+], [/], [<], [>], the ordering of
      [_.sortBy]) are the fields of the class [JsOps]. *)

From Stdlib Require Import List String Ascii ZArith Lia Bool Arith DecimalString.
From Stdlib Require DecimalNat DecimalFacts.
Import ListNotations.

Set Warnings "-register-all".

Local Open Scope string_scope.
Local Open Scope list_scope.

(* ================================================================== *)
(** ** JavaScript values *)
(* ================================================================== *)

Module JS.

(** A JavaScript number, as far as the programs below produce them. *)
Inductive number : Type :=
| Int (z : Z)
| NaN.

Inductive value : Type :=
| VUndefined
| VNull
| VBool (b : bool)
| VNum (n : number)
| VStr (s : string)
| VArr (elems : list value)
| VObj (fields : list (string * value)).

(** Errors a call can throw.  [Error] is [new Error(message)]; the
    messages of the engine-raised [TypeError]s are not modelled. *)
Inductive error : Type :=
| Error (message : string)
| TypeError.

Inductive completion (A : Type) : Type :=
| Normal (result : A)
| Throw (e : error).
Arguments Normal {A} result.
Arguments Throw {A} e.

Definition bind {A B : Type} (c : completion A) (k : A -> completion B)
  : completion B :=
  match c with
  | Normal a => k a
  | Throw e => Throw e
  end.

Definition num_of_nat (n : nat) : value := VNum (Int (Z.of_nat n)).

(** *** Strings *)

Definition is_digit (c : ascii) : bool :=
  (48 <=? nat_of_ascii c)%nat && (nat_of_ascii c <=? 57)%nat.

Definition digit_val (c : ascii) : nat := nat_of_ascii c - 48.

Fixpoint all_digits (s : string) : bool :=
  match s with
  | EmptyString => true
  | String c r => is_digit c && all_digits r
  end.

Fixpoint decimal_value (acc : nat) (s : string) : nat :=
  match s with
  | EmptyString => acc
  | String c r => decimal_value (10 * acc + digit_val c) r
  end.

(** The array index a property key denotes, if it is a canonical numeric
    string: ["0"], or digits not starting with ["0"]. *)
Definition array_index (key : string) : option nat :=
  match key with
  | EmptyString => None
  | String "0" EmptyString => Some 0
  | String "0" _ => None
  | _ => if all_digits key then Some (decimal_value 0 key) else None
  end.

(** *** Own properties: [hasOwnProperty.call(v, key)] and [v[key]] *)

Fixpoint assoc (key : string) (fields : list (string * value)) : option value :=
  match fields with
  | [] => None
  | (k, v) :: rest => if String.eqb k key then Some v else assoc key rest
  end.

Definition hasOwn (v : value) (key : string) : bool :=
  match v with
  | VObj fields => match assoc key fields with Some _ => true | None => false end
  | VArr elems =>
      if String.eqb key "length" then true
      else match array_index key with
           | Some i => (i <? List.length elems)%nat
           | None => false
           end
  | VStr s =>
      if String.eqb key "length" then true
      else match array_index key with
           | Some i => (i <? String.length s)%nat
           | None => false
           end
  | _ => false
  end.

(** [v[key]] for an own property, [undefined] otherwise (members found
    on the prototype chain are not represented). *)
Definition getProp (v : value) (key : string) : value :=
  match v with
  | VObj fields => match assoc key fields with Some x => x | None => VUndefined end
  | VArr elems =>
      if String.eqb key "length" then num_of_nat (List.length elems)
      else match array_index key with
           | Some i => nth i elems VUndefined
           | None => VUndefined
           end
  | VStr s =>
      if String.eqb key "length" then num_of_nat (String.length s)
      else match array_index key with
           | Some i => match String.get i s with
                       | Some c => VStr (String c EmptyString)
                       | None => VUndefined
                       end
           | None => VUndefined
           end
  | _ => VUndefined
  end.

(** [array[n]] for a number [n]. *)
Definition getIndex (elems : list value) (n : number) : value :=
  match n with
  | Int z => if (z <? 0)%Z then VUndefined else nth (Z.to_nat z) elems VUndefined
  | NaN => VUndefined
  end.

(** [n < array.length]. *)
Definition lt_length (n : number) (elems : list value) : bool :=
  match n with
  | Int z => (z <? Z.of_nat (List.length elems))%Z
  | NaN => false
  end.

(** Reading the property [key] of [v], as in [const { key } = v] and in
    [v.key]: a [TypeError] on [null] and [undefined]. *)
Definition destructure (v : value) (key : string) : completion value :=
  match v with
  | VUndefined | VNull => Throw TypeError
  | _ => Normal (getProp v key)
  end.

(** The operators left abstract. *)
Class JsOps : Type := {
  js_add : value -> value -> value;          (* a + b *)
  js_div : value -> value -> value;          (* a / b *)
  js_gt : value -> value -> bool;            (* a > b *)
  js_lt : value -> value -> bool;            (* a < b *)
  compareAscending : value -> value -> bool; (* lodash: a sorts after b *)
  (* [table[name](values)] for a [name] that is not an own key of an
     object literal [table] but is found on [Object.prototype]. *)
  proto_call : string -> value -> option (completion value)
}.

End JS.

(* ================================================================== *)
(** ** The lodash functions the program calls

    Modelled on lodash 4.17 over tree-shaped values.  Key paths are
    modelled for dot-separated keys: lodash's bracket and quote syntax
    inside a path string is not interpreted ([parseJsonPath] never puts a
    bracket in a property name, and [setValueAtPath] rewrites bracket
    groups to dotted keys before it calls [_.set]). *)
(* ================================================================== *)

Module Lodash.
Import JS.

Definition isArray (v : value) : bool :=
  match v with VArr _ => true | _ => false end.

Definition isObject (v : value) : bool :=
  match v with VArr _ | VObj _ => true | _ => false end.

Definition isString (v : value) : bool :=
  match v with VStr _ => true | _ => false end.

Fixpoint split_dot (cur : string) (s : string) : list string :=
  match s with
  | EmptyString => [cur]
  | String c r =>
      if Ascii.eqb c "." then cur :: split_dot EmptyString r
      else split_dot (cur ++ String c EmptyString) r
  end.

(** [castPath]: a string that is itself a key of [object] is one key;
    otherwise it is read as a path. *)
Definition castPath (path : string) (object : value) : list string :=
  if hasOwn object path then [path] else split_dot EmptyString path.

(** [hasPath] with [baseHas]: every key of the path is an own property
    of the value reached so far. *)
Fixpoint hasPath (object : value) (path : list string) : bool :=
  match path with
  | [] => false
  | [key] => hasOwn object key
  | key :: rest => hasOwn object key && hasPath (getProp object key) rest
  end.

Definition has (object : value) (path : string) : bool :=
  hasPath object (castPath path object).

(** *** [_.set] *)

(** [isIndex(key)] for a string: a canonical unsigned numeral.  Lodash
    bounds the number by [2^53 - 1], and an array takes indices up to
    [2^32 - 2] only; the numerals met in the properties below are the
    positions of the elements of a list. *)
Definition isIndex (key : string) : bool :=
  match array_index key with Some _ => true | None => false end.

Fixpoint assoc_set (key : string) (v : value) (fields : list (string * value))
  : list (string * value) :=
  match fields with
  | [] => [(key, v)]
  | (k, x) :: rest =>
      if String.eqb k key then (k, v) :: rest else (k, x) :: assoc_set key v rest
  end.

(** [array[i] = v]: JavaScript extends the array when [i] is past its
    end; the holes this leaves read as [undefined], and are written here
    as elements that hold [undefined] (a hole and such an element differ
    for [Array.prototype.map]; the properties below write at the end of
    an array only, which leaves no hole). *)
Fixpoint array_set (i : nat) (v : value) (elems : list value) : list value :=
  match i, elems with
  | O, [] => [v]
  | O, _ :: rest => v :: rest
  | S i', [] => VUndefined :: array_set i' v []
  | S i', x :: rest => x :: array_set i' v rest
  end.

(** [assignValue(object, key, v)].  On an array, a key that is not an
    index is outside the model, which leaves the array as it is
    (JavaScript adds a named property, and for [length] it resizes the
    array or throws a [RangeError]); the properties below give arrays
    index keys only. *)
Definition assignValue (object : value) (key : string) (v : value) : value :=
  match object with
  | VObj fields => VObj (assoc_set key v fields)
  | VArr elems =>
      match array_index key with
      | Some i => VArr (array_set i v elems)
      | None => object
      end
  | _ => object
  end.

Definition unsafe_key (key : string) : bool :=
  String.eqb key "__proto__" || String.eqb key "constructor"
  || String.eqb key "prototype".

(** [baseSet]: the loop over the keys.  [nested[key]] is read among the
    own properties: what an object inherits ([toString], [valueOf], ...)
    is not represented, so the model is that of lodash for keys that no
    object inherits, as the properties below take them. *)
Fixpoint baseSet (nested : value) (path : list string) (v : value) : value :=
  match path with
  | [] => nested
  | key :: rest =>
      if unsafe_key key then nested
      else
        match rest with
        | [] => assignValue nested key v
        | next :: _ =>
            let objValue := getProp nested key in
            let newValue :=
              if isObject objValue then objValue
              else if isIndex next then VArr [] else VObj [] in
            assignValue nested key (baseSet newValue rest v)
        end
  end.

Definition set (object : value) (path : string) (v : value) : value :=
  if isObject object then baseSet object (castPath path object) v else object.

(** Values are immutable trees: a deep clone is the value itself. *)
Definition cloneDeep (v : value) : value := v.

(** *** Reducers over arrays *)

Section Reducers.
Context {ops : JsOps}.

Definition nullish (v : value) : bool :=
  match v with VUndefined | VNull => true | _ => false end.

Definition is_nan (v : value) : bool :=
  match v with VNum NaN => true | _ => false end.

(** [baseExtremum(array, identity, comparator)]. *)
Definition baseExtremum (comparator : value -> value -> bool)
    (array : list value) : value :=
  fold_left
    (fun computed current =>
       if nullish current then computed
       else match computed with
            | VUndefined => if is_nan current then computed else current
            | _ => if comparator current computed then current else computed
            end)
    array VUndefined.

Definition max (array : list value) : value :=
  match array with
  | [] => VUndefined
  | _ => baseExtremum js_gt array
  end.

Definition min (array : list value) : value :=
  match array with
  | [] => VUndefined
  | _ => baseExtremum js_lt array
  end.

(** [baseSum(array, identity)]: [undefined] entries are skipped. *)
Definition baseSum (array : list value) : value :=
  fold_left
    (fun result current =>
       match current with
       | VUndefined => result
       | _ => match result with
              | VUndefined => current
              | _ => js_add result current
              end
       end)
    array VUndefined.

Definition sum (array : list value) : value :=
  match array with
  | [] => VNum (Int 0)
  | _ => baseSum array
  end.

Definition mean (array : list value) : value :=
  match array with
  | [] => VNum NaN
  | _ => js_div (baseSum array) (num_of_nat (List.length array))
  end.

Definition first (array : list value) : value :=
  match array with
  | [] => VUndefined
  | x :: _ => x
  end.

Definition last (array : list value) : value :=
  List.last array VUndefined.

(** [SameValueZero]: primitives by value; two nodes of a tree are never
    the same object. *)
Definition sameValueZero (a b : value) : bool :=
  match a, b with
  | VUndefined, VUndefined => true
  | VNull, VNull => true
  | VBool x, VBool y => Bool.eqb x y
  | VNum (Int x), VNum (Int y) => (x =? y)%Z
  | VNum NaN, VNum NaN => true
  | VStr x, VStr y => String.eqb x y
  | _, _ => false
  end.

Definition uniq (array : list value) : list value :=
  fold_left
    (fun seen x => if existsb (sameValueZero x) seen then seen else seen ++ [x])
    array [].

Fixpoint insert_sorted (x : value) (sorted : list value) : list value :=
  match sorted with
  | [] => [x]
  | y :: rest =>
      if compareAscending y x then x :: sorted else y :: insert_sorted x rest
  end.

(** [_.sortBy(array)]: a stable ascending sort. *)
Definition sortBy (array : list value) : list value :=
  fold_left (fun sorted x => insert_sorted x sorted) array [].

End Reducers.

Definition reverse (array : list value) : list value := rev array.

(** [_.reduce(array, f, init)] for an [f] that can throw. *)
Definition reduce {A : Type} (array : list value)
    (f : A -> value -> nat -> completion A) (init : A) : completion A :=
  snd (fold_left
         (fun '(i, acc) x => (S i, bind acc (fun a => f a x i)))
         array (O, Normal init)).

(** [_.every(array, p)] for a [p] that can throw. *)
Fixpoint every (array : list value) (p : value -> completion bool)
  : completion bool :=
  match array with
  | [] => Normal true
  | x :: rest =>
      bind (p x) (fun b => if b then every rest p else Normal false)
  end.

End Lodash.

(* ================================================================== *)
(** ** [src/automaton.js]: the path parser and the match engine *)
(* ================================================================== *)

Module Automaton.
Import JS.

(** A rule segment: [{type: 'property', value}], [{type: 'wildcard'}] or
    [{type: 'index', value}]. *)
Inductive segment : Type :=
| property (value : string)
| wildcard
| index (value : number).

(** *** The global functions [isNaN] and [parseInt] on strings (ASCII) *)

Definition is_space (c : ascii) : bool :=
  let n := nat_of_ascii c in
  ((9 <=? n)%nat && (n <=? 13)%nat) || (n =? 32)%nat.

Fixpoint trim_start (s : string) : string :=
  match s with
  | String c r => if is_space c then trim_start r else s
  | EmptyString => s
  end.

Fixpoint string_rev (acc s : string) : string :=
  match s with
  | EmptyString => acc
  | String c r => string_rev (String c acc) r
  end.

Definition trim (s : string) : string :=
  string_rev EmptyString (trim_start (string_rev EmptyString (trim_start s))).

(** The value of a digit in the given radix, if it is one. *)
Definition radix_digit (radix : nat) (c : ascii) : option nat :=
  let n := nat_of_ascii c in
  let d :=
    if (48 <=? n)%nat && (n <=? 57)%nat then Some (n - 48)
    else if (97 <=? n)%nat && (n <=? 122)%nat then Some (n - 87)
    else if (65 <=? n)%nat && (n <=? 90)%nat then Some (n - 55)
    else None in
  match d with
  | Some k => if (k <? radix)%nat then Some k else None
  | None => None
  end.

(** The longest prefix of digits: how many there are, their value, and
    what follows. *)
Fixpoint span_digits (radix : nat) (count : nat) (acc : Z) (s : string)
  : nat * Z * string :=
  match s with
  | EmptyString => (count, acc, s)
  | String c r =>
      match radix_digit radix c with
      | Some d => span_digits radix (S count) (Z.of_nat radix * acc + Z.of_nat d) r
      | None => (count, acc, s)
      end
  end.

Definition strip_sign (s : string) : bool * string :=
  match s with
  | String "-" r => (true, r)
  | String "+" r => (false, r)
  | _ => (false, s)
  end.

Definition exponent_part (s : string) : bool :=
  match s with
  | EmptyString => true
  | String c r =>
      if Ascii.eqb c "e" || Ascii.eqb c "E" then
        let '(n, _, rest) := span_digits 10 0 0 (snd (strip_sign r)) in
        negb (n =? 0)%nat && String.eqb rest EmptyString
      else false
  end.

Definition unsigned_decimal (s : string) : bool :=
  if String.eqb s "Infinity" then true
  else
    let '(n1, _, r1) := span_digits 10 0 0 s in
    match r1 with
    | String "." r2 =>
        let '(n2, _, r3) := span_digits 10 0 0 r2 in
        negb ((n1 =? 0)%nat && (n2 =? 0)%nat) && exponent_part r3
    | _ => negb (n1 =? 0)%nat && exponent_part r1
    end.

Definition radix_literal (radix : nat) (digits : string) : bool :=
  let '(n, _, rest) := span_digits radix 0 0 digits in
  negb (n =? 0)%nat && String.eqb rest EmptyString.

(** [Number(s)] is a number: [s], trimmed, is empty or a numeric literal. *)
Definition numeric_string (s : string) : bool :=
  match trim s with
  | EmptyString => true
  | String "0" (String c r) as t =>
      if Ascii.eqb c "x" || Ascii.eqb c "X" then radix_literal 16 r
      else if Ascii.eqb c "o" || Ascii.eqb c "O" then radix_literal 8 r
      else if Ascii.eqb c "b" || Ascii.eqb c "B" then radix_literal 2 r
      else unsigned_decimal t
  | t => unsigned_decimal (snd (strip_sign t))
  end.

Definition isNaN (s : string) : bool := negb (numeric_string s).

(** [parseInt(s)]: leading white space, a sign, an optional [0x], then
    the longest run of digits; [NaN] when there is none.  The result is
    the integer that the digits write: JavaScript has it exactly below
    [2^53] and rounds it to a double from there on. *)
Definition parseInt (s : string) : number :=
  let '(negative, body) := strip_sign (trim_start s) in
  let '(radix, digits) :=
    match body with
    | String "0" (String c r) =>
        if Ascii.eqb c "x" || Ascii.eqb c "X" then (16, r) else (10, body)
    | _ => (10, body)
    end in
  let '(n, v, _) := span_digits radix 0 0 digits in
  if (n =? 0)%nat then NaN else Int (if negative then (- v)%Z else v).

(** *** [parseJsonPath] *)

(** [jsonPath.replace(/^\$\.?/, '')]. *)
Definition strip_root (jsonPath : string) : string :=
  match jsonPath with
  | String "$" (String "." r) => r
  | String "$" r => r
  | _ => jsonPath
  end.

(** [if (current) segments.push({ type: 'property', value: current })]. *)
Definition push_property (segments : list segment) (current : string)
  : list segment :=
  match current with
  | EmptyString => segments
  | _ => segments ++ [property current]
  end.

(** The body of [if (char === ']')]. *)
Definition close_bracket (segments : list segment) (current : string)
  : list segment :=
  if String.eqb current "*" then segments ++ [wildcard]
  else if negb (isNaN current) then segments ++ [index (parseInt current)]
  else segments.

(** The [for] loop over the characters of [cleanPath], followed by the
    final [if (current)]. *)
Fixpoint parse_loop (cleanPath : string) (segments : list segment)
    (current : string) (inBracket : bool) : list segment :=
  match cleanPath with
  | EmptyString => push_property segments current
  | String char rest =>
      if Ascii.eqb char "[" then
        parse_loop rest (push_property segments current) EmptyString true
      else if Ascii.eqb char "]" then
        parse_loop rest (close_bracket segments current) EmptyString false
      else if Ascii.eqb char "." && negb inBracket then
        parse_loop rest (push_property segments current) EmptyString inBracket
      else
        parse_loop rest segments (current ++ String char EmptyString) inBracket
  end.

Definition parseJsonPath (jsonPath : string) : list segment :=
  parse_loop (strip_root jsonPath) [] EmptyString false.

(** *** States and transitions *)

(** An element of [currentPath]: a property name or an array position. *)
Inductive key : Type :=
| KProp (name : string)
| KIndex (n : number).

Record state : Type := mkState {
  ruleIndex : nat;
  currentValue : value;
  currentPath : list key
}.

(** An element of the result of [process]. *)
Record Match : Type := mkMatch {
  value_of : value;
  path : list key
}.

(** [array.map((item, index) => f(item, index))]. *)
Fixpoint mapi_from {A B : Type} (start : nat) (f : A -> nat -> B) (l : list A)
  : list B :=
  match l with
  | [] => []
  | x :: rest => f x start :: mapi_from (S start) f rest
  end.

Definition mapi {A B : Type} (f : A -> nat -> B) (l : list A) : list B :=
  mapi_from 0 f l.

(** The methods of [TreeAutomaton]; [rule] is [this.rule].  The
    [jsonData] argument of [transition] and of the three handlers is not
    read by them and is left out. *)
Section Engine.
Variable rule : list segment.

Definition isAcceptingState (s : state) : bool :=
  (List.length rule <=? ruleIndex s)%nat.

Definition handlePropertyTransition (s : state) (name : string) : list state :=
  if Lodash.isObject (currentValue s) && Lodash.has (currentValue s) name then
    [ mkState (ruleIndex s + 1)
              (getProp (currentValue s) name)
              (currentPath s ++ [KProp name]) ]
  else [].

Definition handleWildcardTransition (s : state) : list state :=
  match currentValue s with
  | VArr elems =>
      mapi (fun item i =>
              mkState (ruleIndex s + 1) item
                      (currentPath s ++ [KIndex (Int (Z.of_nat i))]))
           elems
  | _ => []
  end.

Definition handleIndexTransition (s : state) (n : number) : list state :=
  match currentValue s with
  | VArr elems =>
      if lt_length n elems then
        [ mkState (ruleIndex s + 1) (getIndex elems n)
                  (currentPath s ++ [KIndex n]) ]
      else []
  | _ => []
  end.

Definition transition (s : state) : list state :=
  if isAcceptingState s then [s]
  else
    match nth_error rule (ruleIndex s) with
    | Some (property name) => handlePropertyTransition s name
    | Some wildcard => handleWildcardTransition s
    | Some (index n) => handleIndexTransition s n
    | None => []
    end.

Definition to_match (s : state) : Match :=
  mkMatch (currentValue s) (currentPath s).

(** The [while] loop of [process].  Each unit of [fuel] pays for one
    round; the result carries the number of rounds that were run.  [None]
    means the fuel ran out before the loop ended. *)
Fixpoint process_loop (fuel : nat) (currentStates : list state)
  : option (list Match * nat) :=
  match currentStates with
  | [] => Some ([], 0)
  | _ :: _ =>
      match fuel with
      | O => None
      | S fuel' =>
          let nextStates := flat_map transition currentStates in
          let acceptingStates := filter isAcceptingState nextStates in
          let continuingStates :=
            filter (fun s => negb (isAcceptingState s)) nextStates in
          match acceptingStates with
          | _ :: _ => Some (map to_match acceptingStates, 1)
          | [] =>
              match process_loop fuel' continuingStates with
              | Some (result, rounds) => Some (result, S rounds)
              | None => None
              end
          end
      end
  end.

Definition initial_state (jsonData : value) : state :=
  mkState 0 jsonData [].

(** [process(jsonData)], run with one round of fuel per segment (and one
    for the empty rule), which [process_loop_enough_fuel] below shows to
    be enough. *)
Definition process (jsonData : value) : list Match :=
  match process_loop (Nat.max 1 (List.length rule)) [initial_state jsonData] with
  | Some (result, _) => result
  | None => []
  end.

End Engine.

(** [createAutomaton(jsonPathRule).process(jsonData)]. *)
Definition run (jsonPathRule : string) (jsonData : value) : list Match :=
  process (parseJsonPath jsonPathRule) jsonData.

(** *** Notions in which the properties of the engine are stated *)

(** One breadth-first step: every state makes its transitions. *)
Definition advance (rule : list segment) (states : list state) : list state :=
  flat_map (transition rule) states.

(** The states of breadth-first level [n], level 0 being the root. *)
Definition level (rule : list segment) (jsonData : value) (n : nat)
  : list state :=
  Nat.iter n (advance rule) [initial_state jsonData].

Definition accepting_at (rule : list segment) (jsonData : value) (n : nat)
  : list state :=
  filter (isAcceptingState rule) (level rule jsonData n).

(** All the states of a list have consumed [i] segments. *)
Definition uniform (i : nat) (states : list state) : Prop :=
  Forall (fun s => ruleIndex s = i) states.

(** What a transition does on a given segment. *)
Definition apply_segment (seg : segment) (s : state) : list state :=
  match seg with
  | property name => handlePropertyTransition s name
  | wildcard => handleWildcardTransition s
  | index n => handleIndexTransition s n
  end.

Definition run_segments (segs : list segment) (states : list state)
  : list state :=
  fold_left (fun states seg => flat_map (apply_segment seg) states) segs states.

(** Following property and index segments from a value: the value they
    lead to, if each of them succeeds.  A wildcard is not followed. *)
Definition follow_segment (seg : segment) (v : value) : option value :=
  match seg with
  | property name =>
      if Lodash.isObject v && Lodash.has v name then Some (getProp v name)
      else None
  | index n =>
      match v with
      | VArr elems => if lt_length n elems then Some (getIndex elems n) else None
      | _ => None
      end
  | wildcard => None
  end.

Fixpoint follow (segs : list segment) (v : value) : option value :=
  match segs with
  | [] => Some v
  | seg :: rest =>
      match follow_segment seg v with
      | Some v' => follow rest v'
      | None => None
      end
  end.

(** The location that property and index segments spell out. *)
Definition segment_key (seg : segment) : list key :=
  match seg with
  | property name => [KProp name]
  | index n => [KIndex n]
  | wildcard => []
  end.

Definition location (segs : list segment) : list key :=
  flat_map segment_key segs.

Definition position (i : nat) : key := KIndex (Int (Z.of_nat i)).

(** *** Notions in which the properties of the parser are stated *)

(** The variables of the loop of [parseJsonPath] after it has read
    [text]: [(segments, current, inBracket)]. *)
Fixpoint scan (text : string) (segments : list segment) (current : string)
    (inBracket : bool) : list segment * string * bool :=
  match text with
  | EmptyString => (segments, current, inBracket)
  | String char rest =>
      if Ascii.eqb char "[" then
        scan rest (push_property segments current) EmptyString true
      else if Ascii.eqb char "]" then
        scan rest (close_bracket segments current) EmptyString false
      else if Ascii.eqb char "." && negb inBracket then
        scan rest (push_property segments current) EmptyString inBracket
      else
        scan rest segments (current ++ String char EmptyString) inBracket
  end.

(** No bracket, opening or closing, occurs in [text]. *)
Fixpoint bracket_free (text : string) : bool :=
  match text with
  | EmptyString => true
  | String c rest =>
      negb (Ascii.eqb c "[") && negb (Ascii.eqb c "]") && bracket_free rest
  end.

(** The path has an unterminated bracket group: the loop ends while it
    is inside a bracket. *)
Definition unterminated (jsonPath : string) : bool :=
  snd (scan (strip_root jsonPath) [] EmptyString false).

End Automaton.

(* ================================================================== *)
(** ** [src/transformer.js]: reducers, extraction, writer and driver *)
(* ================================================================== *)

Module Transformer.
Import JS Automaton.
Local Open Scope string_scope.

Section WithOps.
Context {ops : JsOps}.

(** The own keys of the [aggregateOps] table. *)
Definition aggregateOps (name : string) : option (list value -> value) :=
  if String.eqb name "max" then Some Lodash.max
  else if String.eqb name "min" then Some Lodash.min
  else if String.eqb name "sum" then Some Lodash.sum
  else if String.eqb name "avg" then Some Lodash.mean
  else if String.eqb name "count" then
    Some (fun values => num_of_nat (List.length values))
  else if String.eqb name "first" then Some Lodash.first
  else if String.eqb name "last" then Some Lodash.last
  else if String.eqb name "unique" then
    Some (fun values => VArr (Lodash.uniq values))
  else if String.eqb name "sort" then
    Some (fun values => VArr (Lodash.sortBy values))
  else if String.eqb name "reverse" then
    Some (fun values => VArr (Lodash.reverse values))
  else None.

(** [\w]. *)
Definition is_word (c : ascii) : bool :=
  let n := nat_of_ascii c in
  ((48 <=? n)%nat && (n <=? 57)%nat) || ((65 <=? n)%nat && (n <=? 90)%nat)
  || ((97 <=? n)%nat && (n <=? 122)%nat) || (n =? 95)%nat.

(** Reading a reversed string: the word characters at its head, put back
    in their order, and what follows them. *)
Fixpoint span_word_rev (word : string) (reversed : string) : string * string :=
  match reversed with
  | String c r =>
      if is_word c then span_word_rev (String c word) r else (word, reversed)
  | EmptyString => (word, reversed)
  end.

(** The match of [/\.(\w+)\(\)$/]: the text before it and the name. *)
Definition operation_suffix (jsonPath : string) : option (string * string) :=
  match string_rev EmptyString jsonPath with
  | String ")" (String "(" r) =>
      match span_word_rev EmptyString r with
      | (String c w, String "." before) => Some (string_rev EmptyString before, String c w)
      | _ => None
      end
  | _ => None
  end.

Definition parsePathWithOperation (jsonPath : string) : string * option string :=
  match operation_suffix jsonPath with
  | Some (cleanPath, operation) => (cleanPath, Some operation)
  | None => (jsonPath, None)
  end.

(** [values.length === 1 ? values[0] : values]. *)
Definition single_or_all (values : list value) : value :=
  match values with
  | [v] => v
  | _ => VArr values
  end.

(** [extractValues(jsonData, jsonPath)].  [jsonPath.match] exists on
    strings only. *)
Definition extractValues (jsonData : value) (jsonPath : value)
  : completion value :=
  match jsonPath with
  | VStr text =>
      let '(path, operation) := parsePathWithOperation text in
      let results := process (parseJsonPath path) jsonData in
      let values := map value_of results in
      match operation with
      | Some name =>
          match aggregateOps name with
          | Some reducer => Normal (reducer values)
          | None =>
              match proto_call name (VArr values) with
              | Some outcome => outcome
              | None => Normal (single_or_all values)
              end
          end
      | None => Normal (single_or_all values)
      end
  | _ => Throw TypeError
  end.

(** [.replace(/\[(\d+)\]/g, '.$1')].  [pending] holds the digits read
    since an opening bracket that may still start a match. *)
Fixpoint replace_index_groups (s : string) (pending : option string) : string :=
  match s with
  | EmptyString =>
      match pending with
      | Some digits => "[" ++ digits
      | None => EmptyString
      end
  | String c r =>
      match pending with
      | None =>
          if Ascii.eqb c "[" then replace_index_groups r (Some EmptyString)
          else String c (replace_index_groups r None)
      | Some digits =>
          if is_digit c then
            replace_index_groups r (Some (digits ++ String c EmptyString))
          else if Ascii.eqb c "]" && negb (String.eqb digits EmptyString) then
            "." ++ digits ++ replace_index_groups r None
          else
            "[" ++ digits ++
            (if Ascii.eqb c "[" then replace_index_groups r (Some EmptyString)
             else String c (replace_index_groups r None))
      end
  end.

(** [.replace(/\[([^\]]+)\]/g, '.$1')]. *)
Fixpoint replace_key_groups (s : string) (pending : option string) : string :=
  match s with
  | EmptyString =>
      match pending with
      | Some content => "[" ++ content
      | None => EmptyString
      end
  | String c r =>
      match pending with
      | None =>
          if Ascii.eqb c "[" then replace_key_groups r (Some EmptyString)
          else String c (replace_key_groups r None)
      | Some content =>
          if Ascii.eqb c "]" then
            (if String.eqb content EmptyString then "[]" else "." ++ content)
            ++ replace_key_groups r None
          else replace_key_groups r (Some (content ++ String c EmptyString))
      end
  end.

Definition lodashPath (targetPath : string) : string :=
  replace_key_groups (replace_index_groups (strip_root targetPath) None) None.

(** [setValueAtPath(target, targetPath, value)].  [targetPath.replace]
    exists on strings only. *)
Definition setValueAtPath (target : value) (targetPath : value) (v : value)
  : completion value :=
  match targetPath with
  | VStr text => Normal (Lodash.set (Lodash.cloneDeep target) (lodashPath text) v)
  | _ => Throw TypeError
  end.

(** [target.includes('[*]')]: a method of strings and of arrays. *)
Definition includes_wildcard (target : value) : completion bool :=
  match target with
  | VStr text =>
      Normal (match String.index 0 "[*]" text with Some _ => true | None => false end)
  | VArr elems => Normal (existsb (Lodash.sameValueZero (VStr "[*]")) elems)
  | _ => Throw TypeError
  end.

(** [target.substring(0, target.indexOf('[*]'))]: [substring] exists on
    strings only. *)
Definition before_wildcard (target : value) : completion value :=
  match target with
  | VStr text =>
      match String.index 0 "[*]" text with
      | Some i => Normal (VStr (String.substring 0 i text))
      | None => Normal (VStr EmptyString)
      end
  | _ => Throw TypeError
  end.

(** [target.replace('[*]', `[${index}]`)]: the first occurrence only. *)
Definition indexed_target (target : value) (i : nat) : completion value :=
  match target with
  | VStr text =>
      match String.index 0 "[*]" text with
      | Some p =>
          Normal (VStr (String.substring 0 p text
                        ++ "[" ++ NilEmpty.string_of_uint (Nat.to_uint i) ++ "]"
                        ++ String.substring (p + 3) (String.length text - (p + 3)) text))
      | None => Normal target
      end
  | _ => Throw TypeError
  end.

(** The part of [transformSingleRule] that follows the extraction: the
    extracted value is written at [target] into [accumulator]. *)
Definition write_extracted (accumulator target extractedValue : value)
  : completion value :=
  bind (match extractedValue with
        | VArr _ => includes_wildcard target
        | _ => Normal false
        end)
    (fun expand =>
       if expand then
         match extractedValue with
         | VArr [] =>
             bind (before_wildcard target)
               (fun baseTarget => setValueAtPath accumulator baseTarget (VArr []))
         | VArr items =>
             Lodash.reduce items
               (fun acc item i =>
                  bind (indexed_target target i)
                    (fun indexedTarget => setValueAtPath acc indexedTarget item))
               accumulator
         | _ => setValueAtPath accumulator target extractedValue
         end
       else setValueAtPath accumulator target extractedValue).

(** The value that, in the words of the specification, the driver hands
    to the writer when no reducer applies: "a scalar if exactly one match
    with no array-target wildcard, else the full ordered list". *)
Definition spec_handed_value (values : list value) (target : string) : value :=
  match values, String.index 0 "[*]" target with
  | [v], None => v
  | _, _ => VArr values
  end.

Definition transformSingleRule (sourceData rule accumulator : value)
  : completion value :=
  let accumulator :=
    match accumulator with VUndefined => VObj [] | _ => accumulator end in
  bind (destructure rule "source") (fun source =>
  bind (destructure rule "target") (fun target =>
  bind (extractValues sourceData source) (fun extractedValue =>
  write_extracted accumulator target extractedValue))).

Definition transform (sourceData transformationRules : value)
  : completion value :=
  bind (destructure transformationRules "pathMappings") (fun pathMappings =>
  match pathMappings with
  | VArr rules =>
      Lodash.reduce rules
        (fun result rule _ => transformSingleRule sourceData rule result)
        (VObj [])
  | _ => Throw (Error "pathMappings must be an array")
  end).

(** [rule => _.isString(rule.source) && _.isString(rule.target)]:
    reading a property of [null] or [undefined] is a [TypeError]. *)
Definition valid_mapping (rule : value) : completion bool :=
  bind (destructure rule "source") (fun source =>
  if Lodash.isString source then
    bind (destructure rule "target") (fun target =>
    Normal (Lodash.isString target))
  else Normal false).

Definition validateRules (rules : value) : completion bool :=
  if negb (Lodash.isObject rules) then Normal false
  else
    match getProp rules "pathMappings" with
    | VArr mappings => Lodash.every mappings valid_mapping
    | _ => Normal false
    end.

(** The result of the reducer called [name] on [values], when the table
    has that reducer. *)
Definition reduced (name : string) (values : list value) : option value :=
  option_map (fun reducer => reducer values) (aggregateOps name).

(** [createTransformer(rules)]. *)
Definition createTransformer (rules : value) : value -> completion value :=
  fun data => transform data rules.

(** An element of [steps] in the result of [debugTransform]. *)
Record debug_step : Type := mkStep {
  step_rule : value;
  extractedValue : value;
  previousResult : value;
  newResult : value
}.

Record debug_info : Type := mkDebug {
  finalResult : value;
  steps : list debug_step
}.

(** The values a [for ... of] loop runs over: the elements of an array,
    the characters of a string; nothing else among the values is
    iterable. *)
Fixpoint characters (s : string) : list value :=
  match s with
  | EmptyString => []
  | String c r => VStr (String c EmptyString) :: characters r
  end.

Definition iterate (v : value) : completion (list value) :=
  match v with
  | VArr elems => Normal elems
  | VStr s => Normal (characters s)
  | _ => Throw TypeError
  end.

(** The body of the loop of [debugTransform]. *)
Definition debug_round (sourceData : value) (info : debug_info) (rule : value)
  : completion debug_info :=
  bind (destructure rule "source") (fun source =>
  bind (extractValues sourceData source) (fun extracted =>
  let previous := Lodash.cloneDeep (finalResult info) in
  bind (transformSingleRule sourceData rule (finalResult info)) (fun current =>
  Normal (mkDebug current
            (steps info
             ++ [mkStep rule extracted previous (Lodash.cloneDeep current)]))))).

Fixpoint debug_loop (sourceData : value) (info : debug_info)
    (pathMappings : list value) : completion debug_info :=
  match pathMappings with
  | [] => Normal info
  | rule :: rest =>
      bind (debug_round sourceData info rule)
        (fun info' => debug_loop sourceData info' rest)
  end.

Definition debugTransform (sourceData rules : value) : completion debug_info :=
  bind (destructure rules "pathMappings") (fun pathMappings =>
  bind (iterate pathMappings) (fun mappings =>
  debug_loop sourceData (mkDebug (VObj []) []) mappings)).

End WithOps.

(** [composeTransformations(...transformFunctions)]: [_.reduceRight]
    feeds the data to the last function first. *)
Definition composeTransformations
    (transformFunctions : list (value -> completion value))
  : value -> completion value :=
  fun data =>
    fold_right (fun fn result => bind result fn) (Normal data) transformFunctions.

End Transformer.

(* ================================================================== *)
(** ** [src/index.js]: the functional utilities *)
(* ================================================================== *)

Module Index.
Import JS.

(** [pipe(...fns)]: [fns.reduce((acc, fn) => fn(acc), value)]. *)
Definition pipe (fns : list (value -> completion value))
  : value -> completion value :=
  fun v => fold_left (fun acc fn => bind acc fn) fns (Normal v).

(** A function to curry: [fn.length] and what a call with the given
    arguments does. *)
Record js_function : Type := mkFunction {
  arity : nat;
  call : list value -> completion value
}.

(** What a call of a curried function gives: the outcome of [fn], or a
    function that holds the arguments received so far. *)
Inductive curried : Type :=
| Called (outcome : completion value)
| Holding (args : list value).

(** [curry(fn)] is the function holding no argument; this is one call of
    a function holding [held], with the arguments [args]. *)
Definition curry_call (fn : js_function) (held args : list value) : curried :=
  let all := held ++ args in
  if (arity fn <=? List.length all)%nat then Called (call fn all)
  else Holding all.

(** Successive calls [curry(fn)(...g1)(...g2)...].  The values of the
    model are no functions: calling the outcome of [fn] is a
    [TypeError]. *)
Fixpoint curry_calls (fn : js_function) (held : list value)
    (groups : list (list value)) : curried :=
  match groups with
  | [] => Holding held
  | args :: rest =>
      match curry_call fn held args with
      | Holding all => curry_calls fn all rest
      | Called outcome =>
          match rest with
          | [] => Called outcome
          | _ :: _ => Called (bind outcome (fun _ => Throw TypeError))
          end
      end
  end.

End Index.

(* ================================================================== *)
(** ** Notions in which further properties are stated *)
(* ================================================================== *)

Module Notions.
Import JS Automaton.
Local Open Scope string_scope.

(** The value a document holds at a location. *)
Definition resolve_key (v : value) (k : key) : value :=
  match k with
  | KProp name => getProp v name
  | KIndex n =>
      match v with
      | VArr elems => getIndex elems n
      | _ => VUndefined
      end
  end.

Definition resolve (jsonData : value) (location : list key) : value :=
  fold_left resolve_key location jsonData.

(** What the engine keeps true of every state. *)
Definition located (jsonData : value) (s : state) : Prop :=
  resolve jsonData (currentPath s) = currentValue s
  /\ List.length (currentPath s) = ruleIndex s.

(** No dot and no bracket occurs in [text]. *)
Fixpoint separator_free (text : string) : bool :=
  match text with
  | EmptyString => true
  | String c rest =>
      negb (Ascii.eqb c ".") && negb (Ascii.eqb c "[") && negb (Ascii.eqb c "]")
      && separator_free rest
  end.

(** A property name as it is written between dots. *)
Definition is_name (k : string) : bool :=
  negb (String.eqb k EmptyString) && separator_free k.

(** The property segments collected so far are well made. *)
Definition well_named (segments : list segment) : Prop :=
  forall s, In (property s) segments ->
            s <> EmptyString /\ bracket_free s = true.

(** Only word characters ([\w]) occur in [text]. *)
Fixpoint all_word (text : string) : bool :=
  match text with
  | EmptyString => true
  | String c rest => Transformer.is_word c && all_word rest
  end.

(** The name of an operation as the suffix [.name()] can carry it. *)
Definition is_operation_name (text : string) : bool :=
  negb (String.eqb text EmptyString) && all_word text.

(** [ks] written as [.k1.k2 ... .kn]. *)
Fixpoint dotted (ks : list string) : string :=
  match ks with
  | [] => EmptyString
  | k :: rest => "." ++ k ++ dotted rest
  end.

(** The decimal writing of [i], as in a template literal. *)
Definition decimal (i : nat) : string :=
  NilEmpty.string_of_uint (Nat.to_uint i).

(** A name that [_.set] takes as one key of a path and does not
    skip. *)
Definition settable (k : string) : bool :=
  is_name k && negb (Lodash.unsafe_key k).

(** The names of the members that every object inherits from
    [Object.prototype]. *)
Definition inherited_name (k : string) : bool :=
  existsb (String.eqb k)
    ["constructor"; "hasOwnProperty"; "isPrototypeOf"; "propertyIsEnumerable";
     "toLocaleString"; "toString"; "valueOf"; "__proto__";
     "__defineGetter__"; "__defineSetter__";
     "__lookupGetter__"; "__lookupSetter__"].

(** A key of a plain object: a name that [_.set] takes as one key, that
    is no array index, and under which an object finds nothing that it
    has not been given, so that [object[key]] is [undefined] in an object
    without this key.  The containers that [_.set] makes for such keys
    are objects. *)
Definition is_key (k : string) : bool :=
  settable k && negb (Lodash.isIndex k) && negb (inherited_name k).

Definition safe (ks : list string) : Prop :=
  Forall (fun k => Lodash.unsafe_key k = false) ks.

(** The container that [_.set] makes to hold the key [k]: an array for
    an index, an object otherwise. *)
Definition empty_for (k : string) : value :=
  if Lodash.isIndex k then VArr [] else VObj [].

(** The container that holds only [child], under the key [k]: the
    object with this one key; for an index [i], the array with [child]
    at position [i] (the positions before it hold [undefined]; the
    properties below meet the index 0 only, where there is none). *)
Definition holder (k : string) (child : value) : value :=
  match array_index k with
  | Some i => VArr (repeat VUndefined i ++ [child])
  | None => VObj [(k, child)]
  end.

(** [inner] under the keys [ks], each in its own container. *)
Definition nest (ks : list string) (inner : value) : value :=
  fold_right holder inner ks.

(** The object with the one key [k], which holds [inner] under the keys
    [ks]. *)
Definition under (k : string) (ks : list string) (inner : value) : value :=
  VObj [(k, nest ks inner)].

(** [inner] at the keys [ks] below a root object. *)
Definition rooted (ks : list string) (inner : value) : value :=
  match ks with
  | [] => inner
  | k :: rest => under k rest inner
  end.

End Notions.

(* ================================================================== *)
(** ** Example data *)
(* ================================================================== *)

Module Examples.
Import JS Automaton Transformer.

(** The operators on integers, for the examples below.  Operands of any
    other kind yield [NaN] or [false], and no name is looked up on
    [Object.prototype]: the examples use integers and the names of the
    table only. *)
Definition integer_ops : JsOps := {|
  js_add a b :=
    match a, b with
    | VNum (Int x), VNum (Int y) => VNum (Int (x + y))
    | _, _ => VNum NaN
    end;
  js_div a b :=
    match a, b with
    | VNum (Int x), VNum (Int y) =>
        if (y =? 0)%Z then VNum NaN
        else if (x mod y =? 0)%Z then VNum (Int (x / y)) else VNum NaN
    | _, _ => VNum NaN
    end;
  js_gt a b :=
    match a, b with
    | VNum (Int x), VNum (Int y) => (y <? x)%Z
    | _, _ => false
    end;
  js_lt a b :=
    match a, b with
    | VNum (Int x), VNum (Int y) => (x <? y)%Z
    | _, _ => false
    end;
  compareAscending a b :=
    match a, b with
    | VNum (Int x), VNum (Int y) => (y <? x)%Z
    | _, _ => false
    end;
  proto_call _ _ := None
|}.

Definition num (z : Z) : value := VNum (Int z).

(** The store of the test suite, with prices in cents. *)
Definition book (title : string) (price : Z) : value :=
  VObj [("title", VStr title); ("price", num price)].

Definition sampleData : value :=
  VObj [("store",
         VObj [("book", VArr [book "Book 1" 1095; book "Book 2" 1599]);
               ("bicycle", VObj [("color", VStr "red"); ("price", num 1995)])])].

(** The document of the nested-wildcard test. *)
Definition item (name : string) : value := VObj [("name", VStr name)].

Definition nestedData : value :=
  VObj [("categories",
         VArr [VObj [("items", VArr [item "item1"; item "item2"])];
               VObj [("items", VArr [item "item3"; item "item4"])]])].

Definition mapping (source target : string) : value :=
  VObj [("source", VStr source); ("target", VStr target)].

Definition rules (mappings : list value) : value :=
  VObj [("pathMappings", VArr mappings)].

End Examples.

(* ================================================================== *)
(** ** Properties of the match engine *)
(* ================================================================== *)

Module AutomatonProofs.
Import JS Automaton.

Section Engine.
Variable rule : list segment.

Lemma mapi_from_index {A : Type} (f : A -> nat -> state) (i : nat) :
  (forall x n, ruleIndex (f x n) = i) ->
  forall l start, uniform i (mapi_from start f l).
Proof.
  intros Hf l; induction l as [|x l IH]; intros start; simpl.
  - constructor.
  - constructor; [apply Hf | apply IH].
Qed.

Lemma apply_segment_index (seg : segment) (s s' : state) :
  In s' (apply_segment seg s) -> ruleIndex s' = S (ruleIndex s).
Proof.
  destruct seg as [name| |n]; simpl.
  - unfold handlePropertyTransition.
    destruct (Lodash.isObject (currentValue s) && Lodash.has (currentValue s) name);
      simpl; [intros [<-|[]]; simpl; lia | intros []].
  - unfold handleWildcardTransition.
    destruct (currentValue s) as [| | | | |elems|]; try (intros []).
    intros Hin.
    assert (H : uniform (S (ruleIndex s))
                  (mapi (fun item i => mkState (ruleIndex s + 1) item
                           (currentPath s ++ [KIndex (Int (Z.of_nat i))])) elems)).
    { apply mapi_from_index. intros; simpl; lia. }
    unfold uniform in H. rewrite Forall_forall in H. now apply H.
  - unfold handleIndexTransition.
    destruct (currentValue s) as [| | | | |elems|]; try (intros []).
    destruct (lt_length n elems); simpl; [intros [<-|[]]; simpl; lia | intros []].
Qed.

Lemma transition_not_accepting (s : state) :
  isAcceptingState rule s = false ->
  exists seg, nth_error rule (ruleIndex s) = Some seg
              /\ transition rule s = apply_segment seg s.
Proof.
  intros Hacc. unfold transition. rewrite Hacc.
  unfold isAcceptingState in Hacc. apply Nat.leb_gt in Hacc.
  destruct (nth_error rule (ruleIndex s)) as [seg|] eqn:E.
  - exists seg. split; [reflexivity|]. destruct seg; reflexivity.
  - apply nth_error_None in E. lia.
Qed.

(** Every transition out of a state that is not accepting consumes
    exactly one segment. *)
Lemma transition_advances (s s' : state) :
  isAcceptingState rule s = false ->
  In s' (transition rule s) -> ruleIndex s' = S (ruleIndex s).
Proof.
  intros Hacc Hin.
  destruct (transition_not_accepting s Hacc) as (seg & _ & E).
  rewrite E in Hin. now apply apply_segment_index in Hin.
Qed.

Lemma advance_uniform (i : nat) (states : list state) :
  i < List.length rule -> uniform i states -> uniform (S i) (advance rule states).
Proof.
  intros Hi Hu. unfold uniform, advance in *.
  rewrite Forall_forall in *. intros s' Hin.
  apply in_flat_map in Hin. destruct Hin as (s & Hs & Hs').
  specialize (Hu s Hs). subst i.
  apply transition_advances in Hs'; [assumption|].
  unfold isAcceptingState. apply Nat.leb_gt. assumption.
Qed.

Lemma filter_accepting_below (i : nat) (states : list state) :
  i < List.length rule -> uniform i states ->
  filter (isAcceptingState rule) states = []
  /\ filter (fun s => negb (isAcceptingState rule s)) states = states.
Proof.
  intros Hi Hu. induction Hu as [|s l Hs Hl [IH1 IH2]]; simpl; [auto|].
  assert (E : isAcceptingState rule s = false).
  { unfold isAcceptingState. apply Nat.leb_gt. lia. }
  rewrite E; simpl. rewrite IH2. auto.
Qed.

Lemma filter_accepting_at_end (i : nat) (states : list state) :
  List.length rule <= i -> uniform i states ->
  filter (isAcceptingState rule) states = states.
Proof.
  intros Hi Hu. induction Hu as [|s l Hs Hl IH]; simpl; [auto|].
  assert (E : isAcceptingState rule s = true).
  { unfold isAcceptingState. apply Nat.leb_le. lia. }
  rewrite E, IH. reflexivity.
Qed.

Lemma list_eq_nil_dec {A : Type} (l : list A) : {l = []} + {l <> []}.
Proof. destruct l; [left; reflexivity | right; discriminate]. Qed.

Lemma iter_advance_nil (n : nat) : Nat.iter n (advance rule) [] = [].
Proof. induction n as [|n IH]; simpl; [reflexivity|]. now rewrite IH. Qed.

Lemma iter_shift {A : Type} (f : A -> A) (n : nat) (x : A) :
  Nat.iter (S n) f x = Nat.iter n f (f x).
Proof. induction n as [|n IH]; simpl in *; [reflexivity|]. now rewrite IH. Qed.

Lemma process_loop_nil (fuel : nat) : process_loop rule fuel [] = Some ([], 0).
Proof. destruct fuel; reflexivity. Qed.

Lemma process_loop_unfold (fuel : nat) (states : list state) :
  states <> [] ->
  process_loop rule (S fuel) states
  = match filter (isAcceptingState rule) (advance rule states) with
    | [] =>
        match process_loop rule fuel
                (filter (fun s => negb (isAcceptingState rule s))
                        (advance rule states)) with
        | Some (result, rounds) => Some (result, S rounds)
        | None => None
        end
    | accepting => Some (map to_match accepting, 1)
    end.
Proof.
  destruct states as [|s0 states']; [congruence|]. intros _.
  unfold advance. cbn [process_loop].
  destruct (filter (isAcceptingState rule) (flat_map (transition rule) (s0 :: states')));
    reflexivity.
Qed.

(** From states that have all consumed [i] segments, the loop runs the
    [d] remaining breadth-first steps, unless the states run out first,
    and returns what these steps leave. *)
Lemma process_loop_uniform (d : nat) :
  forall fuel i states,
    uniform i states -> i + S d = List.length rule -> S d <= fuel ->
    exists rounds,
      process_loop rule fuel states
      = Some (map (to_match) (Nat.iter (S d) (advance rule) states), rounds)
      /\ rounds <= S d.
Proof.
  induction d as [|d IH]; intros fuel i states Hu Hlen Hfuel.
  - destruct (list_eq_nil_dec states) as [->|Hne].
    + exists 0. rewrite process_loop_nil. simpl. split; [reflexivity | lia].
    + destruct fuel as [|fuel]; [lia|].
      assert (Hnext : uniform (S i) (advance rule states))
        by (apply advance_uniform; [lia | assumption]).
      pose proof (filter_accepting_at_end (S i) _ ltac:(lia) Hnext) as Hall.
      rewrite process_loop_unfold by assumption. rewrite Hall.
      simpl Nat.iter.
      destruct (advance rule states) as [|n0 nexts] eqn:En.
      * rewrite process_loop_nil. exists 1. split; [reflexivity | lia].
      * exists 1. split; [reflexivity | lia].
  - destruct (list_eq_nil_dec states) as [->|Hne].
    + exists 0. rewrite process_loop_nil, iter_shift. simpl advance at 1.
      rewrite iter_advance_nil. simpl. split; [reflexivity | lia].
    + destruct fuel as [|fuel]; [lia|].
      assert (Hnext : uniform (S i) (advance rule states))
        by (apply advance_uniform; [lia | assumption]).
      destruct (filter_accepting_below (S i) _ ltac:(lia) Hnext) as [Hno Hall].
      destruct (IH fuel (S i) (advance rule states) Hnext ltac:(lia) ltac:(lia))
        as (rounds & Hrun & Hle).
      exists (S rounds). split; [|lia].
      rewrite process_loop_unfold by assumption.
      rewrite Hno, Hall, Hrun.
      rewrite (iter_shift (advance rule) (S d)). reflexivity.
Qed.

Lemma process_loop_fuel_mono (fuel : nat) :
  forall fuel' states outcome,
    process_loop rule fuel states = Some outcome -> fuel <= fuel' ->
    process_loop rule fuel' states = Some outcome.
Proof.
  induction fuel as [|fuel IH]; intros fuel' states outcome Hrun Hle.
  - destruct states; [|discriminate]. now rewrite process_loop_nil in *.
  - destruct (list_eq_nil_dec states) as [->|Hne].
    + now rewrite process_loop_nil in *.
    + destruct fuel' as [|fuel']; [lia|].
      rewrite process_loop_unfold in * by assumption.
      destruct (filter (isAcceptingState rule) (advance rule states)); [|assumption].
      destruct (process_loop rule fuel _) as [[result rounds]|] eqn:E; [|discriminate].
      rewrite (IH fuel' _ _ E) by lia. assumption.
Qed.

Lemma level_uniform (jsonData : value) (n : nat) :
  n <= List.length rule -> uniform n (level rule jsonData n).
Proof.
  induction n as [|n IH]; intros Hn.
  - repeat constructor.
  - apply advance_uniform; [lia | apply IH; lia].
Qed.

Lemma level_add (jsonData : value) (k n : nat) :
  level rule jsonData (k + n) = Nat.iter k (advance rule) (level rule jsonData n).
Proof. induction k as [|k IH]; simpl; [reflexivity|]. unfold level in *. simpl. now rewrite IH. Qed.

(** With a round of fuel per segment the loop ends, and it returns the
    states of the level that has consumed the whole rule. *)
Lemma process_loop_enough_fuel (jsonData : value) :
  exists rounds,
    rounds <= Nat.max 1 (List.length rule)
    /\ forall fuel,
         Nat.max 1 (List.length rule) <= fuel ->
         process_loop rule fuel [initial_state jsonData]
         = Some (map to_match (level rule jsonData (List.length rule)), rounds).
Proof.
  destruct (List.length rule) as [|d] eqn:Hlen.
  - exists 1. split; [simpl; lia|]. intros fuel Hfuel.
    destruct fuel as [|fuel]; [simpl in Hfuel; lia|].
    rewrite process_loop_unfold by discriminate.
    unfold advance, transition, isAcceptingState. simpl. rewrite Hlen. reflexivity.
  - destruct (process_loop_uniform d (S d) 0 [initial_state jsonData])
      as (rounds & Hrun & Hle); [repeat constructor | lia | lia |].
    exists rounds. split; [lia|]. intros fuel Hfuel.
    apply (process_loop_fuel_mono (S d)); [exact Hrun | lia].
Qed.

Lemma process_eq_level (jsonData : value) :
  process rule jsonData = map to_match (level rule jsonData (List.length rule)).
Proof.
  destruct (process_loop_enough_fuel jsonData) as (rounds & _ & Hrun).
  unfold process. now rewrite Hrun by lia.
Qed.

End Engine.

(** C9.  [process] is total, and its rounds are bounded by the segment
    count: on every document and every segment sequence with at least one
    segment (the data model has no empty sequence), the loop ends with a
    result after at most as many rounds as there are segments, however
    much fuel it is given beyond that; no run of the loop that ends has
    taken more rounds.  This is so because every transition out of a
    state that is not accepting advances the consumed-segment index by
    exactly one, and because accepting states are returned rather than
    explored again: a round whose successor states include an accepting
    state is the last one, and it returns the accepting ones. *)
Theorem process_total_rounds_bounded (rule : list segment) (jsonData : value) :
  rule <> [] ->
  (exists rounds,
     rounds <= List.length rule
     /\ forall fuel,
          List.length rule <= fuel ->
          process_loop rule fuel [initial_state jsonData]
          = Some (process rule jsonData, rounds))
  /\ (forall fuel result rounds,
        process_loop rule fuel [initial_state jsonData] = Some (result, rounds) ->
        result = process rule jsonData /\ rounds <= List.length rule)
  /\ (forall s s',
        isAcceptingState rule s = false -> In s' (transition rule s) ->
        ruleIndex s' = S (ruleIndex s))
  /\ (forall fuel states,
        filter (isAcceptingState rule) (flat_map (transition rule) states) <> [] ->
        process_loop rule (S fuel) states
        = Some (map to_match
                  (filter (isAcceptingState rule)
                     (flat_map (transition rule) states)), 1)).
Proof.
  intros Hne.
  assert (Hlen : Nat.max 1 (List.length rule) = List.length rule).
  { destruct rule as [|seg rest]; [congruence | simpl; lia]. }
  destruct (process_loop_enough_fuel rule jsonData) as (rounds & Hle & Hrun).
  rewrite Hlen in Hle, Hrun. rewrite <- process_eq_level in Hrun.
  split; [|split; [|split]].
  - exists rounds. split; assumption.
  - intros fuel result rounds' Hend.
    pose proof (process_loop_fuel_mono rule fuel
                  (Nat.max fuel (List.length rule)) _ _ Hend
                  (Nat.le_max_l _ _)) as Hmore.
    rewrite (Hrun _ (Nat.le_max_r _ _)) in Hmore.
    inversion Hmore; subst. split; [reflexivity | assumption].
  - apply transition_advances.
  - intros fuel states Hacc.
    assert (Hstates : states <> []).
    { intros ->. apply Hacc. reflexivity. }
    rewrite process_loop_unfold by assumption. unfold advance.
    destruct (filter (isAcceptingState rule) (flat_map (transition rule) states));
      [congruence | reflexivity].
Qed.

(** C1.  [process] returns exactly the accepting states, as Matches and in
    the order of their generation, of the earliest breadth-first level
    that has an accepting state, and the empty list when no level has
    one.  In the loop itself, a round whose successor states include an
    accepting state returns the accepting ones at once, whatever other
    states the round produced. *)
Theorem process_returns_earliest_accepting_level
    (rule : list segment) (jsonData : value) :
  ((exists n,
      accepting_at rule jsonData n <> []
      /\ (forall m, m < n -> accepting_at rule jsonData m = [])
      /\ process rule jsonData = map to_match (accepting_at rule jsonData n))
   \/ ((forall n, accepting_at rule jsonData n = [])
       /\ process rule jsonData = []))
  /\ (forall fuel states,
        filter (isAcceptingState rule) (advance rule states) <> [] ->
        process_loop rule (S fuel) states
        = Some (map to_match
                  (filter (isAcceptingState rule) (advance rule states)), 1)).
Proof.
  split.
  - assert (Hbelow : forall m, m < List.length rule -> accepting_at rule jsonData m = []).
    { intros m Hm. unfold accepting_at.
      apply (filter_accepting_below rule m); [assumption|].
      apply level_uniform. lia. }
    assert (Hend : accepting_at rule jsonData (List.length rule)
                   = level rule jsonData (List.length rule)).
    { unfold accepting_at.
      apply (filter_accepting_at_end rule (List.length rule)); [lia|].
      now apply level_uniform. }
    destruct (list_eq_nil_dec (level rule jsonData (List.length rule))) as [Hnil|Hne].
    + right. split.
      * intros n. destruct (Nat.lt_ge_cases n (List.length rule)) as [Hlt|Hge].
        -- now apply Hbelow.
        -- unfold accepting_at.
           replace n with ((n - List.length rule) + List.length rule) by lia.
           rewrite level_add, Hnil, iter_advance_nil. reflexivity.
      * rewrite process_eq_level, Hnil. reflexivity.
    + left. exists (List.length rule). rewrite Hend. repeat split.
      * assumption.
      * assumption.
      * apply process_eq_level.
  - intros fuel states Hacc.
    assert (Hne : states <> []).
    { intros ->. apply Hacc. reflexivity. }
    rewrite process_loop_unfold by assumption.
    destruct (filter (isAcceptingState rule) (advance rule states));
      [congruence | reflexivity].
Qed.

(** On the sample store, the last round of ["$.store.book[*].title"]
    returns the two accepting states it produces. *)
Lemma process_returns_earliest_accepting_level_sample :
  let rule := parseJsonPath "$.store.book[*].title" in
  let states := level rule Examples.sampleData 3 in
  filter (isAcceptingState rule) (advance rule states) <> []
  /\ process_loop rule 1 states
     = Some ([ mkMatch (VStr "Book 1")
                 [KProp "store"; KProp "book"; position 0; KProp "title"];
               mkMatch (VStr "Book 2")
                 [KProp "store"; KProp "book"; position 1; KProp "title"] ], 1).
Proof.
  intros rule states.
  assert (H : filter (isAcceptingState rule) (advance rule states) <> [])
    by (vm_compute; discriminate).
  split; [exact H|].
  exact (proj2 (process_returns_earliest_accepting_level rule Examples.sampleData)
           0 states H).
Defined.

(** On the sample store, the rule of ["$.store.bicycle"] has two
    segments and the loop ends after two rounds. *)
Lemma process_total_rounds_bounded_sample :
  let rule := parseJsonPath "$.store.bicycle" in
  rule <> []
  /\ exists rounds,
       rounds <= 2
       /\ forall fuel,
            2 <= fuel ->
            process_loop rule fuel [initial_state Examples.sampleData]
            = Some (process rule Examples.sampleData, rounds).
Proof.
  intros rule.
  assert (Hne : rule <> []) by discriminate.
  split; [exact Hne|].
  exact (proj1 (process_total_rounds_bounded rule Examples.sampleData Hne)).
Defined.

(** *** Runs over property, index and wildcard segments *)

Lemma advance_eq_apply (done rest : list segment) (seg : segment)
    (states : list state) :
  uniform (List.length done) states ->
  advance (done ++ seg :: rest) states = flat_map (apply_segment seg) states.
Proof.
  intros Hu. unfold advance.
  induction Hu as [|s l Hs Hl IH]; simpl; [reflexivity|].
  rewrite IH. f_equal.
  assert (Hacc : isAcceptingState (done ++ seg :: rest) s = false).
  { unfold isAcceptingState. apply Nat.leb_gt.
    rewrite length_app; simpl. lia. }
  destruct (transition_not_accepting _ s Hacc) as (seg' & Hnth & ->).
  rewrite Hs, nth_error_app2, Nat.sub_diag in Hnth by lia.
  simpl in Hnth. now inversion Hnth.
Qed.

Lemma flat_map_apply_uniform (seg : segment) (i : nat) (states : list state) :
  uniform i states -> uniform (S i) (flat_map (apply_segment seg) states).
Proof.
  unfold uniform. rewrite !Forall_forall. intros Hu s' Hin.
  apply in_flat_map in Hin. destruct Hin as (s & Hs & Hs').
  apply apply_segment_index in Hs'. rewrite (Hu s Hs) in Hs'. assumption.
Qed.

Lemma iter_advance_run_segments (segs : list segment) :
  forall done rest states,
    uniform (List.length done) states ->
    Nat.iter (List.length segs) (advance (done ++ segs ++ rest)) states
    = run_segments segs states.
Proof.
  induction segs as [|seg segs IH]; intros done rest states Hu; [reflexivity|].
  change (List.length (seg :: segs)) with (S (List.length segs)).
  rewrite iter_shift.
  change (done ++ (seg :: segs) ++ rest) with (done ++ seg :: (segs ++ rest)).
  rewrite advance_eq_apply by assumption.
  replace (done ++ seg :: segs ++ rest) with ((done ++ [seg]) ++ segs ++ rest)
    by (rewrite <- app_assoc; reflexivity).
  rewrite IH; [reflexivity|].
  rewrite length_app; simpl. rewrite Nat.add_1_r.
  now apply flat_map_apply_uniform.
Qed.

(** [process] runs the segments of the rule, in order, from the root. *)
Lemma process_run_segments (rule : list segment) (jsonData : value) :
  process rule jsonData
  = map to_match (run_segments rule [initial_state jsonData]).
Proof.
  rewrite process_eq_level. unfold level. f_equal.
  rewrite <- (iter_advance_run_segments rule [] []) by (repeat constructor).
  simpl. now rewrite app_nil_r.
Qed.

Lemma run_segments_app (a b : list segment) (states : list state) :
  run_segments (a ++ b) states = run_segments b (run_segments a states).
Proof. apply fold_left_app. Qed.

Lemma run_segments_nil (segs : list segment) : run_segments segs [] = [].
Proof. induction segs as [|seg segs IH]; simpl; [reflexivity | exact IH]. Qed.

Lemma run_segments_states_app (segs : list segment) :
  forall s1 s2,
    run_segments segs (s1 ++ s2) = run_segments segs s1 ++ run_segments segs s2.
Proof.
  induction segs as [|seg segs IH]; intros s1 s2; simpl; [reflexivity|].
  unfold run_segments in IH. now rewrite flat_map_app, IH.
Qed.

Lemma run_segments_cons (seg : segment) (segs : list segment)
    (states : list state) :
  run_segments (seg :: segs) states
  = run_segments segs (flat_map (apply_segment seg) states).
Proof. reflexivity. Qed.

Lemma flat_map_singleton {A B : Type} (f : A -> list B) (x : A) :
  flat_map f [x] = f x.
Proof. simpl. apply app_nil_r. Qed.

Lemma apply_followed_segment (seg : segment) (s : state) (v : value) :
  follow_segment seg (currentValue s) = Some v ->
  apply_segment seg s
  = [mkState (ruleIndex s + 1) v (currentPath s ++ segment_key seg)].
Proof.
  destruct seg as [name| |n]; simpl.
  - unfold handlePropertyTransition.
    destruct (Lodash.isObject (currentValue s) && Lodash.has (currentValue s) name);
      [|discriminate].
    intros H; inversion H; reflexivity.
  - discriminate.
  - unfold handleIndexTransition.
    destruct (currentValue s) as [| | | | |elems|]; try discriminate.
    destruct (lt_length n elems); [|discriminate].
    intros H; inversion H; reflexivity.
Qed.

(** Segments that can be followed lead one state to one state. *)
Lemma run_followed_segments (segs : list segment) :
  forall i v path v',
    follow segs v = Some v' ->
    run_segments segs [mkState i v path]
    = [mkState (i + List.length segs) v' (path ++ location segs)].
Proof.
  induction segs as [|seg segs IH]; intros i v path v' Hf.
  - simpl in *. inversion Hf; subst. now rewrite Nat.add_0_r, app_nil_r.
  - simpl in Hf.
    destruct (follow_segment seg v) as [v1|] eqn:E; [|discriminate].
    rewrite run_segments_cons, flat_map_singleton.
    rewrite (apply_followed_segment seg (mkState i v path) v1 E).
    cbn [ruleIndex currentValue currentPath].
    rewrite (IH (i + 1) v1 (path ++ segment_key seg) v' Hf).
    cbn [location flat_map List.length]. rewrite <- app_assoc.
    do 2 f_equal. lia.
Qed.

(** What a followed segment is: never a wildcard. *)
Lemma follow_no_wildcard (segs : list segment) :
  forall v v', follow segs v = Some v' -> ~ In wildcard segs.
Proof.
  induction segs as [|seg segs IH]; intros v v' Hf Hin; simpl in *; [assumption|].
  destruct Hin as [E|Hin].
  - subst seg. discriminate.
  - destruct (follow_segment seg v) as [v1|]; [|discriminate].
    now apply (IH v1 v').
Qed.

Lemma map_mapi_from {A B C : Type} (h : B -> C) (f : A -> nat -> B) (l : list A) :
  forall n, map h (mapi_from n f l) = mapi_from n (fun x i => h (f x i)) l.
Proof. induction l as [|x l IH]; intros n; simpl; [reflexivity|]. now rewrite IH. Qed.

Lemma mapi_from_ext {A B : Type} (f g : A -> nat -> B) (l : list A) :
  (forall x i, f x i = g x i) -> forall n, mapi_from n f l = mapi_from n g l.
Proof.
  intros H. induction l as [|x l IH]; intros n; simpl; [reflexivity|].
  now rewrite H, IH.
Qed.

Lemma length_mapi_from {A B : Type} (f : A -> nat -> B) (l : list A) :
  forall n, List.length (mapi_from n f l) = List.length l.
Proof. induction l as [|x l IH]; intros n; simpl; [reflexivity|]. now rewrite IH. Qed.

Lemma concat_mapi_from_singleton {A B : Type} (h : A -> nat -> B) (l : list A) :
  forall n, List.concat (mapi_from n (fun a i => [h a i]) l) = mapi_from n h l.
Proof. induction l as [|x l IH]; intros n; simpl; [reflexivity|]. now rewrite IH. Qed.

(** Running segments from the states a wildcard made, element by
    element. *)
Lemma run_segments_mapi_from {A : Type} (R : value -> A -> Prop)
    (segs : list segment) (f : value -> nat -> state)
    (g : A -> nat -> list state) :
  (forall e a i, R e a -> run_segments segs [f e i] = g a i) ->
  forall elems results n,
    Forall2 R elems results ->
    run_segments segs (mapi_from n f elems) = List.concat (mapi_from n g results).
Proof.
  intros Hone elems results n H. revert n.
  induction H as [|e a elems results He Hrest IH]; intros n; simpl.
  - apply run_segments_nil.
  - change (f e n :: mapi_from (S n) f elems)
      with ([f e n] ++ mapi_from (S n) f elems).
    rewrite run_segments_states_app, IH, (Hone e a n He). reflexivity.
Qed.

Lemma run_wildcard (i : nat) (elems : list value) (path : list key) :
  run_segments [wildcard] [mkState i (VArr elems) path]
  = mapi (fun item n => mkState (i + 1) item (path ++ [position n])) elems.
Proof. simpl. unfold handleWildcardTransition. simpl. apply app_nil_r. Qed.

(** The states a wildcard makes of an array whose elements all let the
    remaining segments be followed. *)
Lemma run_wildcard_then_follow (post : list segment) (i : nat)
    (elems vs : list value) (path : list key) :
  Forall2 (fun e v => follow post e = Some v) elems vs ->
  run_segments (wildcard :: post) [mkState i (VArr elems) path]
  = mapi (fun v n => mkState (i + 1 + List.length post) v
                       ((path ++ [position n]) ++ location post)) vs.
Proof.
  intros H.
  change (wildcard :: post) with ([wildcard] ++ post).
  rewrite run_segments_app, run_wildcard. unfold mapi.
  rewrite (run_segments_mapi_from (fun e v => follow post e = Some v) post
             (fun item n => mkState (i + 1) item (path ++ [position n]))
             (fun v n => [mkState (i + 1 + List.length post) v
                            ((path ++ [position n]) ++ location post)])
             ltac:(intros e a n Hf; now apply run_followed_segments)
             elems vs 0 H).
  apply concat_mapi_from_singleton.
Qed.

Lemma Forall2_length_eq {A B : Type} (R : A -> B -> Prop) (l : list A) (l' : list B) :
  Forall2 R l l' -> List.length l = List.length l'.
Proof. induction 1; simpl; congruence. Qed.

(** C2.  A rule with one wildcard, [pre ++ wildcard :: post], on a
    document where [pre] leads to an array of [k] elements and [post] can
    be followed from each of them: [process] returns [k] Matches, one per
    element and in element order, whose locations are the one location
    that [pre] and [post] spell out with the element's position
    [0 .. k-1] at the wildcard.  ([follow] succeeds on property and index
    segments only, see [follow_no_wildcard].) *)
Theorem single_wildcard_matches (pre post : list segment) (jsonData : value)
    (elems vs : list value) :
  follow pre jsonData = Some (VArr elems) ->
  Forall2 (fun e v => follow post e = Some v) elems vs ->
  process (pre ++ wildcard :: post) jsonData
  = mapi (fun v i => mkMatch v (location pre ++ position i :: location post)) vs
  /\ List.length (process (pre ++ wildcard :: post) jsonData) = List.length elems.
Proof.
  intros Hpre Hpost.
  assert (E : process (pre ++ wildcard :: post) jsonData
              = mapi (fun v i =>
                        mkMatch v (location pre ++ position i :: location post)) vs).
  { rewrite process_run_segments, run_segments_app.
    unfold initial_state.
    rewrite (run_followed_segments pre 0 jsonData [] _ Hpre).
    rewrite (run_wildcard_then_follow post _ elems vs _ Hpost).
    unfold mapi. rewrite map_mapi_from. unfold to_match; simpl.
    apply mapi_from_ext. intros v i. now rewrite <- app_assoc. }
  split; [exact E|].
  rewrite E. unfold mapi. rewrite length_mapi_from.
  symmetry. eapply Forall2_length_eq; eassumption.
Qed.

Lemma Forall2_compose {A B C : Type} (P : A -> B -> Prop) (Q : B -> C -> Prop)
    (l1 : list A) (l2 : list B) :
  Forall2 P l1 l2 ->
  forall l3, Forall2 Q l2 l3 ->
  Forall2 (fun x z => exists y, P x y /\ Q y z) l1 l3.
Proof.
  induction 1 as [|x y l1 l2 Hxy H12 IH]; intros l3 H23; inversion H23; subst.
  - constructor.
  - constructor; [exists y; split; assumption | now apply IH].
Qed.

Lemma length_concat_mapi_from {A B : Type} (g : A -> nat -> list B) (k : nat)
    (l : list A) :
  Forall (fun a => forall i, List.length (g a i) = k) l ->
  forall n, List.length (List.concat (mapi_from n g l)) = List.length l * k.
Proof.
  induction 1 as [|a l Ha Hl IH]; intros n; simpl; [reflexivity|].
  now rewrite length_app, Ha, IH.
Qed.

(** C3.  A rule with two wildcards, [pre ++ wildcard :: mid ++ wildcard ::
    post], on a document where [pre] leads to an array of [k1] elements,
    [mid] leads from each of them to an array of [k2] elements, and [post]
    can be followed from every inner element: [process] returns [k1 * k2]
    Matches, in the order of the outer elements and, for each of them, in
    the order of its inner elements. *)
Theorem nested_wildcards_matches (pre mid post : list segment) (jsonData : value)
    (outer : list value) (inners vss : list (list value)) (k2 : nat) :
  follow pre jsonData = Some (VArr outer) ->
  Forall2 (fun e inner => follow mid e = Some (VArr inner)) outer inners ->
  Forall2 (Forall2 (fun x v => follow post x = Some v)) inners vss ->
  Forall (fun inner => List.length inner = k2) inners ->
  process (pre ++ wildcard :: mid ++ wildcard :: post) jsonData
  = List.concat
      (mapi (fun vs i =>
               mapi (fun v j =>
                       mkMatch v (location pre ++ position i :: location mid
                                  ++ position j :: location post))
                    vs)
            vss)
  /\ List.length (process (pre ++ wildcard :: mid ++ wildcard :: post) jsonData)
     = List.length outer * k2.
Proof.
  intros Hpre Hmid Hpost Hk2.
  pose proof (Forall2_compose _ _ _ _ Hmid _ Hpost) as Hboth.
  set (matches :=
         fun vs i =>
           mapi (fun v j =>
                   mkMatch v (location pre ++ position i :: location mid
                              ++ position j :: location post))
                vs).
  assert (E : process (pre ++ wildcard :: mid ++ wildcard :: post) jsonData
              = List.concat (mapi matches vss)).
  { rewrite process_run_segments, run_segments_app.
    unfold initial_state.
    rewrite (run_followed_segments pre 0 jsonData [] _ Hpre).
    change (wildcard :: mid ++ wildcard :: post)
      with ([wildcard] ++ (mid ++ wildcard :: post)).
    rewrite run_segments_app, run_wildcard. unfold mapi at 1.
    rewrite (run_segments_mapi_from
               (fun e vs =>
                  exists inner,
                    follow mid e = Some (VArr inner)
                    /\ Forall2 (fun x v => follow post x = Some v) inner vs)
               (mid ++ wildcard :: post)
               (fun item n =>
                  mkState (0 + List.length pre + 1) item
                    (([] ++ location pre) ++ [position n]))
               (fun vs i =>
                  mapi (fun v n =>
                          mkState (0 + List.length pre + 1 + List.length mid + 1
                                   + List.length post) v
                            ((((([] ++ location pre) ++ [position i])
                               ++ location mid) ++ [position n])
                             ++ location post))
                       vs)
               ltac:(intros e vs i (inner & Hm & Hp);
                     rewrite run_segments_app;
                     rewrite (run_followed_segments mid _ e _ _ Hm);
                     exact (run_wildcard_then_follow post _ inner vs _ Hp))
               outer vss 0 Hboth).
    rewrite concat_map. f_equal. unfold mapi. rewrite map_mapi_from.
    apply mapi_from_ext. intros vs i. unfold matches, mapi.
    rewrite map_mapi_from. apply mapi_from_ext. intros v j.
    unfold to_match; simpl. f_equal.
    rewrite <- !app_assoc. reflexivity. }
  split; [exact E|].
  rewrite E. unfold mapi.
  rewrite (length_concat_mapi_from matches k2).
  - f_equal. transitivity (List.length inners).
    + symmetry. eapply Forall2_length_eq; eassumption.
    + symmetry. eapply Forall2_length_eq; eassumption.
  - clear E Hboth Hmid.
    induction Hpost as [|inner vs inners' vss' Hone Hrest IH]; constructor.
    + intros i. unfold matches, mapi. rewrite length_mapi_from.
      inversion Hk2; subst.
      symmetry. eapply Forall2_length_eq; eassumption.
    + apply IH. now inversion Hk2.
Qed.

(** The titles of the two books of the sample store. *)
Lemma single_wildcard_matches_sample :
  let pre := [property "store"; property "book"] in
  let post := [property "title"] in
  let elems := [Examples.book "Book 1" 1095; Examples.book "Book 2" 1599] in
  let vs := [VStr "Book 1"; VStr "Book 2"] in
  follow pre Examples.sampleData = Some (VArr elems)
  /\ Forall2 (fun e v => follow post e = Some v) elems vs
  /\ process (pre ++ wildcard :: post) Examples.sampleData
     = [ mkMatch (VStr "Book 1")
           [KProp "store"; KProp "book"; position 0; KProp "title"];
         mkMatch (VStr "Book 2")
           [KProp "store"; KProp "book"; position 1; KProp "title"] ].
Proof.
  intros pre post elems vs.
  assert (Hpre : follow pre Examples.sampleData = Some (VArr elems))
    by reflexivity.
  assert (Hpost : Forall2 (fun e v => follow post e = Some v) elems vs)
    by (repeat constructor).
  split; [exact Hpre|]. split; [exact Hpost|].
  exact (proj1 (single_wildcard_matches pre post Examples.sampleData elems vs
                  Hpre Hpost)).
Defined.

(** The names of the items of the nested sample, two categories of two
    items each. *)
Lemma nested_wildcards_matches_sample :
  let pre := [property "categories"] in
  let mid := [property "items"] in
  let post := [property "name"] in
  let outer :=
    [ VObj [("items", VArr [Examples.item "item1"; Examples.item "item2"])];
      VObj [("items", VArr [Examples.item "item3"; Examples.item "item4"])] ] in
  let inners :=
    [ [Examples.item "item1"; Examples.item "item2"];
      [Examples.item "item3"; Examples.item "item4"] ] in
  let vss := [ [VStr "item1"; VStr "item2"]; [VStr "item3"; VStr "item4"] ] in
  follow pre Examples.nestedData = Some (VArr outer)
  /\ Forall2 (fun e inner => follow mid e = Some (VArr inner)) outer inners
  /\ Forall2 (Forall2 (fun x v => follow post x = Some v)) inners vss
  /\ Forall (fun inner => List.length inner = 2) inners
  /\ List.map value_of
       (process (pre ++ wildcard :: mid ++ wildcard :: post) Examples.nestedData)
     = [VStr "item1"; VStr "item2"; VStr "item3"; VStr "item4"]
  /\ List.length
       (process (pre ++ wildcard :: mid ++ wildcard :: post) Examples.nestedData)
     = 2 * 2.
Proof.
  intros pre mid post outer inners vss.
  assert (Hpre : follow pre Examples.nestedData = Some (VArr outer))
    by reflexivity.
  assert (Hmid : Forall2 (fun e inner => follow mid e = Some (VArr inner))
                   outer inners)
    by (repeat constructor).
  assert (Hpost : Forall2 (Forall2 (fun x v => follow post x = Some v)) inners vss)
    by (repeat constructor).
  assert (Hk2 : Forall (fun inner => List.length inner = 2) inners)
    by (repeat constructor).
  pose proof (nested_wildcards_matches pre mid post Examples.nestedData
                outer inners vss 2 Hpre Hmid Hpost Hk2) as [Hmatches Hlength].
  repeat (split; [assumption|]).
  split; [rewrite Hmatches; reflexivity | exact Hlength].
Defined.

(** C10.  The path ["$"] parses to the empty segment sequence, and
    processing it returns one Match: the whole document at the empty
    location. *)
Theorem root_path_matches_whole_document (jsonData : value) :
  parseJsonPath "$" = []
  /\ process (parseJsonPath "$") jsonData = [mkMatch jsonData []].
Proof. split; reflexivity. Qed.

End AutomatonProofs.

(* ================================================================== *)
(** ** Properties of the path parser *)
(* ================================================================== *)

Module ParserProofs.
Import JS Automaton.
Local Open Scope string_scope.

Lemma append_assoc (a b c : string) : (a ++ b) ++ c = a ++ (b ++ c).
Proof. induction a as [|x a IH]; simpl; [reflexivity | now rewrite IH]. Qed.

(** The parser returns what the loop has collected, with the pending
    text pushed as a property. *)
Lemma parse_loop_scan (text : string) :
  forall segments current inBracket,
    parse_loop text segments current inBracket
    = push_property (fst (fst (scan text segments current inBracket)))
                    (snd (fst (scan text segments current inBracket))).
Proof.
  induction text as [|char rest IH]; intros segments current inBracket; simpl.
  - reflexivity.
  - destruct (Ascii.eqb char "["); [apply IH|].
    destruct (Ascii.eqb char "]"); [apply IH|].
    destruct (Ascii.eqb char "." && negb inBracket); apply IH.
Qed.

Lemma scan_app (front back : string) :
  forall segments current inBracket,
    scan (front ++ back) segments current inBracket
    = scan back (fst (fst (scan front segments current inBracket)))
                (snd (fst (scan front segments current inBracket)))
                (snd (scan front segments current inBracket)).
Proof.
  induction front as [|char rest IH]; intros segments current inBracket; simpl.
  - reflexivity.
  - destruct (Ascii.eqb char "["); [apply IH|].
    destruct (Ascii.eqb char "]"); [apply IH|].
    destruct (Ascii.eqb char "." && negb inBracket); apply IH.
Qed.

(** Inside a bracket, text without brackets is only accumulated. *)
Lemma scan_inside_bracket (rest : string) :
  forall segments current,
    bracket_free rest = true ->
    scan rest segments current true = (segments, current ++ rest, true).
Proof.
  induction rest as [|char rest IH]; intros segments current Hfree; simpl in *.
  - f_equal. f_equal. induction current as [|x current IHc]; simpl; congruence.
  - apply andb_prop in Hfree. destruct Hfree as [Hchar Hfree].
    apply andb_prop in Hchar. destruct Hchar as [Hopen Hclose].
    apply negb_true_iff in Hopen, Hclose. rewrite Hopen, Hclose.
    rewrite andb_false_r. rewrite IH by assumption.
    now rewrite append_assoc.
Qed.

(** When the loop ends inside a bracket, the last bracket of the text
    is an opening one (or the text has none and the loop began inside). *)
Lemma scan_ends_in_bracket (text : string) :
  forall segments current inBracket,
    snd (scan text segments current inBracket) = true ->
    (bracket_free text = true /\ inBracket = true)
    \/ exists front rest,
         text = front ++ String "[" rest /\ bracket_free rest = true.
Proof.
  induction text as [|char text IH]; intros segments current inBracket Hend;
    simpl in *.
  - left. split; [reflexivity | assumption].
  - destruct (Ascii.eqb char "[") eqn:Hopen.
    + apply Ascii.eqb_eq in Hopen. subst char. right.
      destruct (IH _ _ _ Hend) as [[Hfree _]|(front & rest & -> & Hfree)].
      * exists EmptyString, text. split; [reflexivity | assumption].
      * exists (String "[" front), rest. split; [reflexivity | assumption].
    + destruct (Ascii.eqb char "]") eqn:Hclose.
      * right.
        destruct (IH _ _ _ Hend) as [[_ Hin]|(front & rest & -> & Hfree)];
          [discriminate|].
        exists (String char front), rest. split; [reflexivity | assumption].
      * assert (Hrest : snd (scan text
                               (if Ascii.eqb char "." && negb inBracket
                                then push_property segments current
                                else segments)
                               (if Ascii.eqb char "." && negb inBracket
                                then EmptyString else current ++ String char EmptyString)
                               inBracket) = true).
        { destruct (Ascii.eqb char "." && negb inBracket); assumption. }
        destruct (IH _ _ _ Hrest) as [[Hfree Hin]|(front & rest & -> & Hfree)].
        -- left. split; [simpl; assumption | assumption].
        -- right. exists (String char front), rest.
           split; [reflexivity | assumption].
Qed.

(** C6 (as amended).  A path with an unterminated bracket group is, after
    the root marker, some text [front], an opening bracket, and a text
    [rest] without brackets.  Parsing it reports no error: it returns the
    segments parsed from [front], followed by [rest] as one more property
    segment, or by nothing when [rest] is empty. *)
Theorem unterminated_bracket_parsed_as_property (jsonPath : string) :
  unterminated jsonPath = true ->
  exists front rest,
    strip_root jsonPath = front ++ String "[" rest
    /\ bracket_free rest = true
    /\ parseJsonPath jsonPath
       = push_property (parse_loop front [] EmptyString false) rest.
Proof.
  intros Hopen. unfold unterminated in Hopen.
  destruct (scan_ends_in_bracket _ _ _ _ Hopen)
    as [[_ Hin]|(front & rest & Hpath & Hfree)]; [discriminate|].
  exists front, rest. split; [assumption|]. split; [assumption|].
  unfold parseJsonPath. rewrite Hpath.
  rewrite !parse_loop_scan, scan_app.
  destruct (scan front [] EmptyString false) as [[segments current] inBracket].
  cbn [fst snd scan Ascii.eqb Bool.eqb].
  rewrite scan_inside_bracket by assumption. reflexivity.
Qed.

Lemma unterminated_bracket_parsed_as_property_sample :
  unterminated "$.a[0" = true
  /\ exists front rest,
       strip_root "$.a[0" = front ++ String "[" rest
       /\ bracket_free rest = true
       /\ parseJsonPath "$.a[0"
          = push_property (parse_loop front [] EmptyString false) rest.
Proof.
  split; [reflexivity|].
  exact (unterminated_bracket_parsed_as_property "$.a[0" eq_refl).
Defined.

(** C6 as stated fails: a path with an unterminated bracket group is
    parsed to a list of segments, in which the text of the group is a
    property segment, and an empty unterminated group leaves no trace. *)
Lemma unterminated_bracket_not_reported :
  unterminated "$.a[0" = true
  /\ parseJsonPath "$.a[0" = [property "a"; property "0"]
  /\ unterminated "$.a[" = true
  /\ parseJsonPath "$.a[" = parseJsonPath "$.a".
Proof. repeat split. Qed.

End ParserProofs.

(* ================================================================== *)
(** ** Properties of the transformation engine *)
(* ================================================================== *)

Module TransformerProofs.
Import JS Automaton Transformer.
Local Open Scope string_scope.

Section WithOps.
Context {ops : JsOps}.

(** C8.  On the empty list, [sum] and [count] give 0, and [max], [min],
    [first] and [last] give [undefined].  None of them throws: a source
    path with one of these suffixes that matches nothing makes
    [extractValues] return that value normally. *)
Theorem aggregates_on_empty_list :
  (reduced "sum" [] = Some (VNum (Int 0))
   /\ reduced "count" [] = Some (VNum (Int 0))
   /\ reduced "max" [] = Some VUndefined
   /\ reduced "min" [] = Some VUndefined
   /\ reduced "first" [] = Some VUndefined
   /\ reduced "last" [] = Some VUndefined)
  /\ (forall jsonData text path name,
        parsePathWithOperation text = (path, Some name) ->
        process (parseJsonPath path) jsonData = [] ->
        In name ["sum"; "count"; "max"; "min"; "first"; "last"] ->
        exists v,
          reduced name [] = Some v
          /\ extractValues jsonData (VStr text) = Normal v).
Proof.
  split; [repeat split|].
  intros jsonData text path name Hparse Hnone Hname.
  unfold extractValues. rewrite Hparse, Hnone. simpl map.
  simpl in Hname.
  repeat (destruct Hname as [<-|Hname]; [eexists; split; reflexivity|]).
  contradiction.
Qed.

(** *** The value handed to the writer *)

Lemma extractValues_without_reducer (jsonData : value) (text : string) :
  snd (parsePathWithOperation text) = None ->
  extractValues jsonData (VStr text)
  = Normal (single_or_all
              (map value_of
                 (process (parseJsonPath (fst (parsePathWithOperation text)))
                          jsonData))).
Proof.
  intros Hop. unfold extractValues.
  destruct (parsePathWithOperation text) as [path operation].
  simpl in *. now subst operation.
Qed.

Lemma single_or_all_spec (values : list value) (target : string) :
  List.length values <> 1 \/ String.index 0 "[*]" target = None ->
  single_or_all values = spec_handed_value values target.
Proof.
  intros H. unfold single_or_all, spec_handed_value.
  destruct values as [|v [|w rest]]; try reflexivity.
  destruct H as [H|H]; [simpl in H; congruence | now rewrite H].
Qed.

(** C5 (as amended).  For a rule whose source has no aggregate suffix,
    the value that [transformSingleRule] hands to the writer is the
    matched value itself when there is exactly one match and the target
    has no wildcard, and the full ordered list of matched values when the
    number of matches is not one.  For a source with a suffix that names
    a reducer of the table, it is the result of that reducer on the
    ordered list of matched values. *)
Theorem handed_value_shape (sourceData rule accumulator : value)
    (text target : string) :
  destructure rule "source" = Normal (VStr text) ->
  destructure rule "target" = Normal (VStr target) ->
  accumulator <> VUndefined ->
  let path := fst (parsePathWithOperation text) in
  let values := map value_of (process (parseJsonPath path) sourceData) in
  (snd (parsePathWithOperation text) = None ->
   List.length values <> 1 \/ String.index 0 "[*]" target = None ->
   transformSingleRule sourceData rule accumulator
   = write_extracted accumulator (VStr target) (spec_handed_value values target))
  /\ (forall name reducer,
        snd (parsePathWithOperation text) = Some name ->
        aggregateOps name = Some reducer ->
        transformSingleRule sourceData rule accumulator
        = write_extracted accumulator (VStr target) (reducer values)).
Proof.
  intros Hsource Htarget Hacc path values.
  assert (Hstep : transformSingleRule sourceData rule accumulator
                  = bind (extractValues sourceData (VStr text))
                      (write_extracted accumulator (VStr target))).
  { unfold transformSingleRule. rewrite Hsource, Htarget. simpl.
    destruct accumulator; try reflexivity. congruence. }
  split.
  - intros Hop Hshape. rewrite Hstep, extractValues_without_reducer by assumption.
    simpl. fold path. fold values. now rewrite (single_or_all_spec values target).
  - intros name reducer Hop Hred. rewrite Hstep. unfold extractValues.
    subst values path.
    destruct (parsePathWithOperation text) as [path operation]. simpl in *.
    subst operation. rewrite Hred. reflexivity.
Qed.

(** *** Rule sets that fail the shape check *)

Lemma reduce_throw {A : Type} (f : A -> value -> nat -> completion A)
    (array : list value) :
  forall i e,
    snd (fold_left (fun '(i, acc) x => (S i, bind acc (fun a => f a x i)))
           array (i, Throw e))
    = Throw e.
Proof.
  induction array as [|x array IH]; intros i e; simpl; [reflexivity | apply IH].
Qed.

Lemma reduce_invalid {A : Type} (f : A -> value -> nat -> completion A)
    (p : value -> completion bool) (array : list value) :
  (forall x a i, p x <> Normal true -> exists e, f a x i = Throw e) ->
  Lodash.every array p <> Normal true ->
  forall i acc,
    exists e,
      snd (fold_left (fun '(i, acc) x => (S i, bind acc (fun a => f a x i)))
             array (i, acc))
      = Throw e.
Proof.
  intros Hf. induction array as [|x array IH]; intros Hevery i acc; simpl in *.
  - congruence.
  - destruct (p x) as [[|]|e0] eqn:Hp; simpl in Hevery.
    + apply IH. assumption.
    + destruct acc as [a|e1]; simpl.
      * destruct (Hf x a i) as [e He]; [congruence|].
        rewrite He. exists e. apply reduce_throw.
      * exists e1. apply reduce_throw.
    + destruct acc as [a|e1]; simpl.
      * destruct (Hf x a i) as [e He]; [congruence|].
        rewrite He. exists e. apply reduce_throw.
      * exists e1. apply reduce_throw.
Qed.

Lemma write_at_non_string_target (accumulator target extractedValue : value) :
  Lodash.isString target = false ->
  exists e, write_extracted accumulator target extractedValue = Throw e.
Proof.
  intros Htarget. unfold write_extracted.
  destruct target as [| | | | text |telems|tfields]; try discriminate;
    destruct extractedValue as [| | | | |items|]; simpl; eauto.
  destruct (existsb (Lodash.sameValueZero (VStr "[*]")) telems); simpl; eauto.
  destruct items as [|item items]; simpl; eauto.
  unfold Lodash.reduce. simpl. eexists. apply reduce_throw.
Qed.

(** A malformed entry makes [transformSingleRule] throw. *)
Lemma invalid_mapping_throws (sourceData rule accumulator : value) :
  valid_mapping rule <> Normal true ->
  exists e, transformSingleRule sourceData rule accumulator = Throw e.
Proof.
  unfold valid_mapping, transformSingleRule. intros Hvalid.
  destruct (destructure rule "source") as [source|e] eqn:Hs;
    cbn [bind] in *; eauto.
  assert (Ht : destructure rule "target" = Normal (getProp rule "target")).
  { destruct rule; simpl in *; try discriminate; reflexivity. }
  rewrite Ht in *. cbn [bind] in *.
  destruct (Lodash.isString source) eqn:Hsource.
  - destruct source as [| | | | text | |]; try discriminate.
    destruct (Lodash.isString (getProp rule "target")) eqn:Htarget; [congruence|].
    destruct (extractValues sourceData (VStr text)) as [v|e]; cbn [bind]; eauto.
    now apply write_at_non_string_target.
  - destruct source; try discriminate; cbn [extractValues bind]; eauto.
Qed.

(** C7 (as amended).  [transform] returns no output for a rule set that
    does not pass [validateRules].  When [pathMappings] is not a list it
    throws the error "pathMappings must be an array" before any rule is
    looked at.  It makes no other check of its own: a list with a
    malformed entry makes the fold over the rules throw. *)
Theorem transform_rejects_invalid_rules (sourceData rules : value) :
  (rules <> VUndefined -> rules <> VNull ->
   Lodash.isArray (getProp rules "pathMappings") = false ->
   transform sourceData rules = Throw (Error "pathMappings must be an array"))
  /\ (validateRules rules <> Normal true ->
      exists e, transform sourceData rules = Throw e).
Proof.
  split.
  - intros Hundef Hnull Harr. unfold transform.
    assert (Hd : destructure rules "pathMappings"
                 = Normal (getProp rules "pathMappings")).
    { destruct rules; simpl; congruence. }
    rewrite Hd. simpl.
    destruct (getProp rules "pathMappings"); try reflexivity. discriminate.
  - intros Hvalid. unfold transform, validateRules in *.
    destruct rules as [| | | | | elems|fields]; simpl in *; eauto.
    destruct (assoc "pathMappings" fields) as [[| | | | |mappings|]|];
      simpl; eauto.
    unfold Lodash.reduce.
    apply (reduce_invalid _ valid_mapping); [|assumption].
    intros rule a i Hrule. now apply invalid_mapping_throws.
Qed.

(** *** Writing through a wildcard target *)

(** What a rule with a wildcard in its target writes, by the number of
    matches of a source without aggregate suffix.  With two matches or
    more, the matched values are written one after the other, the value
    of position [i] at the target whose wildcard is replaced by [[i]].
    With a single match whose value is no array, there is one write, at
    the target as it stands. *)
Lemma wildcard_target_writes (sourceData rule accumulator : value)
    (text target : string) (p : nat) :
  destructure rule "source" = Normal (VStr text) ->
  destructure rule "target" = Normal (VStr target) ->
  accumulator <> VUndefined ->
  snd (parsePathWithOperation text) = None ->
  String.index 0 "[*]" target = Some p ->
  let values :=
    map value_of
      (process (parseJsonPath (fst (parsePathWithOperation text))) sourceData) in
  (2 <= List.length values ->
   transformSingleRule sourceData rule accumulator
   = Lodash.reduce values
       (fun acc item i =>
          bind (indexed_target (VStr target) i)
            (fun indexedTarget => setValueAtPath acc indexedTarget item))
       accumulator)
  /\ (forall v,
        values = [v] -> Lodash.isArray v = false ->
        transformSingleRule sourceData rule accumulator
        = setValueAtPath accumulator (VStr target) v).
Proof.
  intros Hsource Htarget Hacc Hop Hwild values.
  assert (Hstep : transformSingleRule sourceData rule accumulator
                  = write_extracted accumulator (VStr target)
                      (single_or_all values)).
  { unfold transformSingleRule. rewrite Hsource, Htarget. cbn [bind].
    rewrite extractValues_without_reducer by assumption. cbn [bind].
    destruct accumulator; try reflexivity. congruence. }
  split.
  - intros Hlen. rewrite Hstep.
    destruct values as [|v [|w rest]]; simpl in Hlen; try lia.
    unfold write_extracted, single_or_all, includes_wildcard.
    rewrite Hwild. reflexivity.
  - intros v Hone Hscalar. rewrite Hstep, Hone.
    unfold write_extracted, single_or_all.
    destruct v; try reflexivity. discriminate.
Qed.

(** C4 at the array length 1, where the code departs from the claim.
    The source path ["$.a.b[*].c"] matches the one element of [a.b];
    [extractValues] returns the bare value 7 and, the value being no
    array, the rule writes it under the literal key ["*"]: the output is
    [{x: {"*": {c: 7}}}] and not [{x: [{c: 7}]}].  With two elements the
    same rule writes [x[0].c] and [x[1].c]. *)
Theorem round_trip_single_element_under_star_key :
  let rule := Examples.mapping "$.a.b[*].c" "$.x[*].c" in
  let element (n : Z) := VObj [("c", Examples.num n)] in
  transform (VObj [("a", VObj [("b", VArr [element 7%Z])])]) (Examples.rules [rule])
  = Normal (VObj [("x", VObj [("*", element 7%Z)])])
  /\ transform (VObj [("a", VObj [("b", VArr [element 7%Z; element 8%Z])])])
       (Examples.rules [rule])
     = Normal (VObj [("x", VArr [element 7%Z; element 8%Z])]).
Proof. split; reflexivity. Qed.

End WithOps.

(** The maximum of the prices of an empty list of items. *)
Lemma aggregates_on_empty_list_sample :
  let jsonData := VObj [("items", VArr [])] in
  parsePathWithOperation "$.items[*].price.max()" = ("$.items[*].price", Some "max")
  /\ process (parseJsonPath "$.items[*].price") jsonData = []
  /\ In "max" ["sum"; "count"; "max"; "min"; "first"; "last"]
  /\ exists v,
       reduced (ops := Examples.integer_ops) "max" [] = Some v
       /\ extractValues (ops := Examples.integer_ops) jsonData
            (VStr "$.items[*].price.max()")
          = Normal v.
Proof.
  intros jsonData.
  assert (Hname : In "max" ["sum"; "count"; "max"; "min"; "first"; "last"])
    by (simpl; auto).
  split; [reflexivity|]. split; [reflexivity|]. split; [exact Hname|].
  exact (proj2 (aggregates_on_empty_list (ops := Examples.integer_ops))
           jsonData "$.items[*].price.max()" "$.items[*].price" "max"
           eq_refl eq_refl Hname).
Defined.

Lemma handed_value_shape_sample :
  let rule := Examples.mapping "$.store.book[*].price" "$.store.novel[*].cost" in
  destructure rule "source" = Normal (VStr "$.store.book[*].price")
  /\ destructure rule "target" = Normal (VStr "$.store.novel[*].cost")
  /\ VObj [] <> VUndefined
  /\ transformSingleRule (ops := Examples.integer_ops)
       Examples.sampleData rule (VObj [])
     = write_extracted (VObj []) (VStr "$.store.novel[*].cost")
         (VArr [Examples.num 1095; Examples.num 1599]).
Proof.
  intros rule.
  assert (Hacc : VObj [] <> VUndefined) by discriminate.
  split; [reflexivity|]. split; [reflexivity|]. split; [exact Hacc|].
  refine (proj1 (handed_value_shape (ops := Examples.integer_ops)
                   Examples.sampleData rule (VObj [])
                   "$.store.book[*].price" "$.store.novel[*].cost"
                   eq_refl eq_refl Hacc)
                eq_refl (or_introl _)).
  simpl. discriminate.
Defined.

(** C5 as stated fails.  With one match and a wildcard in the target,
    the specification's words give the one-element list, and the code
    hands over the bare value; with a reducer, the code hands over the
    reducer's result and not the list of matched values. *)
Lemma handed_value_differs_from_spec :
  let source := VObj [("a", VObj [("b", VArr [VObj [("c", Examples.num 7)]])])] in
  let one := map value_of (process (parseJsonPath "$.a.b[*].c") source) in
  let prices :=
    map value_of
      (process (parseJsonPath "$.store.book[*].price") Examples.sampleData) in
  (List.length one = 1
   /\ extractValues (ops := Examples.integer_ops) source (VStr "$.a.b[*].c")
      = Normal (Examples.num 7)
   /\ extractValues (ops := Examples.integer_ops) source (VStr "$.a.b[*].c")
      <> Normal (spec_handed_value one "$.x[*].c"))
  /\ (List.length prices = 2
      /\ extractValues (ops := Examples.integer_ops) Examples.sampleData
           (VStr "$.store.book[*].price.max()")
         = Normal (Examples.num 1599)
      /\ extractValues (ops := Examples.integer_ops) Examples.sampleData
           (VStr "$.store.book[*].price.max()")
         <> Normal (spec_handed_value prices "$.storeSummary.maxPrice")).
Proof.
  repeat split; try reflexivity; vm_compute; discriminate.
Qed.

Lemma transform_rejects_invalid_rules_sample :
  let notRules := VObj [("not", VStr "valid")] in
  let incomplete :=
    Examples.rules [ Examples.mapping "$.store.bicycle.color" "$.b";
                     VObj [("source", VStr "$.a")] ] in
  (notRules <> VUndefined /\ notRules <> VNull
   /\ Lodash.isArray (getProp notRules "pathMappings") = false
   /\ transform (ops := Examples.integer_ops) Examples.sampleData notRules
      = Throw (Error "pathMappings must be an array"))
  /\ (validateRules incomplete <> Normal true
      /\ exists e,
           transform (ops := Examples.integer_ops) Examples.sampleData incomplete
           = Throw e).
Proof.
  intros notRules incomplete.
  assert (H1 : notRules <> VUndefined) by discriminate.
  assert (H2 : notRules <> VNull) by discriminate.
  assert (H3 : Lodash.isArray (getProp notRules "pathMappings") = false)
    by reflexivity.
  assert (H4 : validateRules incomplete <> Normal true)
    by (vm_compute; discriminate).
  split.
  - repeat (split; [assumption|]).
    exact (proj1 (transform_rejects_invalid_rules (ops := Examples.integer_ops)
                    Examples.sampleData notRules) H1 H2 H3).
  - split; [assumption|].
    exact (proj2 (transform_rejects_invalid_rules (ops := Examples.integer_ops)
                    Examples.sampleData incomplete) H4).
Defined.

(** C7 as stated fails.  A rule list whose second entry has no target
    is not rejected up front: the first rule is extracted and written
    into the accumulator, and the call then fails on the second entry
    with a [TypeError], which is not an error of a validation. *)
Lemma malformed_entry_fails_after_first_write :
  let good := Examples.mapping "$.store.bicycle.color" "$.b" in
  let bad := VObj [("source", VStr "$.a")] in
  validateRules (Examples.rules [good; bad]) = Normal false
  /\ transformSingleRule (ops := Examples.integer_ops)
       Examples.sampleData good (VObj [])
     = Normal (VObj [("b", VStr "red")])
  /\ transform (ops := Examples.integer_ops)
       Examples.sampleData (Examples.rules [good; bad])
     = Throw TypeError
  /\ transform (ops := Examples.integer_ops)
       Examples.sampleData (Examples.rules [good; bad])
     <> Throw (Error "pathMappings must be an array").
Proof. repeat split; try reflexivity. vm_compute. discriminate. Qed.

End TransformerProofs.

(* ================================================================== *)
(** ** Further properties of the match engine *)
(* ================================================================== *)

Module EngineExtras.
Import JS Automaton Notions AutomatonProofs.

(** X1.  A rule of property and index segments that can be followed
    from the root of the document gives exactly one Match: the value the
    chain leads to, at the location the chain spells out. *)
Theorem chain_single_match (segs : list segment) (jsonData v : value) :
  follow segs jsonData = Some v ->
  process segs jsonData = [mkMatch v (location segs)].
Proof.
  intros Hf. rewrite process_run_segments. unfold initial_state.
  rewrite (run_followed_segments segs 0 jsonData [] v Hf). reflexivity.
Qed.

Lemma chain_single_match_sample :
  follow [property "store"; property "book"; index (Int 1); property "title"]
    Examples.sampleData = Some (VStr "Book 2")
  /\ process [property "store"; property "book"; index (Int 1); property "title"]
       Examples.sampleData
     = [mkMatch (VStr "Book 2")
          [KProp "store"; KProp "book"; KIndex (Int 1); KProp "title"]].
Proof.
  split; [reflexivity|].
  exact (chain_single_match
           [property "store"; property "book"; index (Int 1); property "title"]
           Examples.sampleData (VStr "Book 2") eq_refl).
Defined.

Lemma apply_unfollowed_segment (seg : segment) (s : state) :
  seg <> wildcard ->
  follow_segment seg (currentValue s) = None ->
  apply_segment seg s = [].
Proof.
  intros Hseg. destruct seg as [name| |n]; simpl; [| congruence |].
  - unfold handlePropertyTransition.
    destruct (Lodash.isObject (currentValue s) && Lodash.has (currentValue s) name);
      [discriminate | reflexivity].
  - unfold handleIndexTransition.
    destruct (currentValue s) as [| | | | |elems|]; try reflexivity.
    destruct (lt_length n elems); [discriminate | reflexivity].
Qed.

(** The states that remain after [pre] are all the rule has: once a
    step leaves none, the result is empty. *)
Lemma process_dead_end (pre post : list segment) (seg : segment)
    (jsonData : value) :
  flat_map (apply_segment seg) (run_segments pre [initial_state jsonData]) = [] ->
  process (pre ++ seg :: post) jsonData = [].
Proof.
  intros Hdead.
  rewrite process_run_segments, run_segments_app, run_segments_cons, Hdead.
  now rewrite run_segments_nil.
Qed.

(** X2.  A property that the value reached does not have, or an index
    past the end of the array reached (or applied to a value that is no
    array), prunes the branch: the result is the empty list, and no error
    is raised. *)
Theorem failed_step_no_match (pre post : list segment) (seg : segment)
    (jsonData v : value) :
  follow pre jsonData = Some v ->
  seg <> wildcard ->
  follow_segment seg v = None ->
  process (pre ++ seg :: post) jsonData = [].
Proof.
  intros Hpre Hseg Hfail. apply process_dead_end. unfold initial_state.
  rewrite (run_followed_segments pre 0 jsonData [] v Hpre).
  rewrite flat_map_singleton. now apply apply_unfollowed_segment.
Qed.

Lemma failed_step_no_match_sample :
  let pre := [property "store"; property "book"] in
  (follow pre Examples.sampleData
   = Some (VArr [Examples.book "Book 1" 1095; Examples.book "Book 2" 1599])
   /\ index (Int 5) <> wildcard
   /\ follow_segment (index (Int 5))
        (VArr [Examples.book "Book 1" 1095; Examples.book "Book 2" 1599]) = None
   /\ process (pre ++ index (Int 5) :: [property "title"]) Examples.sampleData = [])
  /\ (follow [property "store"] Examples.sampleData
      = Some (getProp Examples.sampleData "store")
      /\ property "nonexistent" <> wildcard
      /\ follow_segment (property "nonexistent")
           (getProp Examples.sampleData "store") = None
      /\ process ([property "store"] ++ property "nonexistent" :: [property "property"])
           Examples.sampleData = []).
Proof.
  intros pre.
  assert (H1 : index (Int 5) <> wildcard) by discriminate.
  assert (H2 : property "nonexistent" <> wildcard) by discriminate.
  split.
  - split; [reflexivity|]. split; [exact H1|]. split; [reflexivity|].
    exact (failed_step_no_match pre [property "title"] (index (Int 5))
             Examples.sampleData _ eq_refl H1 eq_refl).
  - split; [reflexivity|]. split; [exact H2|]. split; [reflexivity|].
    exact (failed_step_no_match [property "store"] [property "property"]
             (property "nonexistent") Examples.sampleData _ eq_refl H2 eq_refl).
Defined.

(** X3.  A wildcard applied to a value that is no array prunes the
    branch: the result is the empty list. *)
Theorem wildcard_on_non_array_no_match (pre post : list segment)
    (jsonData v : value) :
  follow pre jsonData = Some v ->
  Lodash.isArray v = false ->
  process (pre ++ wildcard :: post) jsonData = [].
Proof.
  intros Hpre Hv. apply process_dead_end. unfold initial_state.
  rewrite (run_followed_segments pre 0 jsonData [] v Hpre).
  rewrite flat_map_singleton. simpl. unfold handleWildcardTransition. simpl.
  destruct v; try reflexivity. discriminate.
Qed.

Lemma wildcard_on_non_array_no_match_sample :
  let pre := [property "store"; property "bicycle"] in
  follow pre Examples.sampleData
  = Some (VObj [("color", VStr "red"); ("price", Examples.num 1995)])
  /\ Lodash.isArray (VObj [("color", VStr "red"); ("price", Examples.num 1995)])
     = false
  /\ process (pre ++ wildcard :: [property "color"]) Examples.sampleData = [].
Proof.
  intros pre. split; [reflexivity|]. split; [reflexivity|].
  exact (wildcard_on_non_array_no_match pre [property "color"]
           Examples.sampleData _ eq_refl eq_refl).
Defined.

Lemma flat_map_all_nil {A B : Type} (f : A -> list B) (l : list A) :
  (forall x, f x = []) -> flat_map f l = [].
Proof.
  intros H. induction l as [|x l IH]; simpl; [reflexivity|]. now rewrite H, IH.
Qed.

(** A rule with an index segment that holds [NaN] matches nothing. *)
Lemma index_nan_no_match (pre post : list segment) (jsonData : value) :
  process (pre ++ index NaN :: post) jsonData = [].
Proof.
  apply process_dead_end.
  apply flat_map_all_nil. intros s. simpl. unfold handleIndexTransition.
  destruct (currentValue s); reflexivity.
Qed.

(** X5.  [handleIndexTransition] checks the index against the length of
    the array only: a negative index passes the check, and the branch
    goes on with the value [undefined]. *)
Theorem negative_index_matches_undefined (pre : list segment)
    (jsonData : value) (elems : list value) (z : Z) :
  follow pre jsonData = Some (VArr elems) ->
  (z < 0)%Z ->
  process (pre ++ [index (Int z)]) jsonData
  = [mkMatch VUndefined (location pre ++ [KIndex (Int z)])].
Proof.
  intros Hpre Hz.
  assert (Hstep : follow_segment (index (Int z)) (VArr elems) = Some VUndefined).
  { simpl. assert (Hlt : (z <? Z.of_nat (List.length elems))%Z = true)
      by (apply Z.ltb_lt; lia).
    rewrite Hlt. assert (Hneg : (z <? 0)%Z = true) by (apply Z.ltb_lt; lia).
    now rewrite Hneg. }
  assert (Hall : follow (pre ++ [index (Int z)]) jsonData = Some VUndefined).
  { clear Hz. revert jsonData Hpre.
    induction pre as [|seg pre IH]; intros jsonData Hpre; simpl in *.
    - inversion Hpre; subst. simpl in Hstep. now rewrite Hstep.
    - destruct (follow_segment seg jsonData); [now apply IH | discriminate]. }
  rewrite process_run_segments. unfold initial_state.
  rewrite (run_followed_segments _ 0 jsonData [] VUndefined Hall).
  simpl. unfold location. rewrite flat_map_app. reflexivity.
Qed.

Lemma negative_index_matches_undefined_sample :
  parseJsonPath "$.store.book[-1]"
  = [property "store"; property "book"] ++ [index (Int (-1))]
  /\ follow [property "store"; property "book"] Examples.sampleData
     = Some (VArr [Examples.book "Book 1" 1095; Examples.book "Book 2" 1599])
  /\ (-1 < 0)%Z
  /\ process ([property "store"; property "book"] ++ [index (Int (-1))])
       Examples.sampleData
     = [mkMatch VUndefined [KProp "store"; KProp "book"; KIndex (Int (-1))]].
Proof.
  assert (Hneg : (-1 < 0)%Z) by lia.
  split; [reflexivity|]. split; [reflexivity|]. split; [exact Hneg|].
  exact (negative_index_matches_undefined [property "store"; property "book"]
           Examples.sampleData _ (-1) eq_refl Hneg).
Defined.

(** *** The location of a Match *)

Lemma in_mapi_from {A B : Type} (f : A -> nat -> B) (l : list A) :
  forall start y,
    In y (mapi_from start f l) ->
    exists j x, nth_error l j = Some x /\ y = f x (start + j).
Proof.
  induction l as [|x l IH]; intros start y Hin; simpl in Hin; [contradiction|].
  destruct Hin as [<-|Hin].
  - exists 0, x. split; [reflexivity|]. now rewrite Nat.add_0_r.
  - destruct (IH _ _ Hin) as (j & x' & Hnth & ->).
    exists (S j), x'. split; [assumption|]. f_equal. lia.
Qed.

Lemma resolve_snoc (jsonData : value) (location : list key) (k : key) :
  resolve jsonData (location ++ [k]) = resolve_key (resolve jsonData location) k.
Proof. unfold resolve. now rewrite fold_left_app. Qed.

Lemma apply_segment_located (jsonData : value) (seg : segment) (s s' : state) :
  located jsonData s -> In s' (apply_segment seg s) -> located jsonData s'.
Proof.
  intros [Hval Hlen] Hin. destruct seg as [name| |n]; simpl in Hin.
  - unfold handlePropertyTransition in Hin.
    destruct (Lodash.isObject (currentValue s) && Lodash.has (currentValue s) name);
      [|contradiction].
    destruct Hin as [<-|[]]. split; simpl.
    + now rewrite resolve_snoc, Hval.
    + rewrite length_app. simpl. lia.
  - unfold handleWildcardTransition in Hin.
    destruct (currentValue s) as [| | | | |elems|] eqn:Hcur; try contradiction.
    apply in_mapi_from in Hin. destruct Hin as (j & x & Hnth & ->).
    split; simpl.
    + rewrite resolve_snoc, Hval. simpl.
      assert (Hpos : (Z.of_nat j <? 0)%Z = false) by (apply Z.ltb_ge; lia).
      rewrite Hpos, Nat2Z.id. now apply nth_error_nth.
    + rewrite length_app. simpl. lia.
  - unfold handleIndexTransition in Hin.
    destruct (currentValue s) as [| | | | |elems|] eqn:Hcur; try contradiction.
    destruct (lt_length n elems); [|contradiction].
    destruct Hin as [<-|[]]. split; simpl.
    + now rewrite resolve_snoc, Hval.
    + rewrite length_app. simpl. lia.
Qed.

Lemma run_segments_located (jsonData : value) (segs : list segment) :
  forall states,
    Forall (located jsonData) states ->
    Forall (located jsonData) (run_segments segs states).
Proof.
  induction segs as [|seg segs IH]; intros states Hall; [exact Hall|].
  rewrite run_segments_cons. apply IH.
  rewrite Forall_forall in *. intros s' Hin.
  apply in_flat_map in Hin. destruct Hin as (s & Hs & Hs').
  eapply apply_segment_located; [apply Hall|]; eassumption.
Qed.

(** X6.  Every Match that [process] returns is located in the document:
    its value is what the document holds at its location, read key by key
    from the root, and its location has one key per segment of the
    rule. *)
Theorem matches_are_located (rule : list segment) (jsonData : value) (m : Match) :
  In m (process rule jsonData) ->
  resolve jsonData (path m) = value_of m
  /\ List.length (path m) = List.length rule.
Proof.
  intros Hin. rewrite process_run_segments in Hin.
  apply in_map_iff in Hin. destruct Hin as (s & <- & Hs).
  assert (Hall : Forall (located jsonData)
                   (run_segments rule [initial_state jsonData])).
  { apply run_segments_located. repeat constructor. }
  rewrite Forall_forall in Hall. destruct (Hall s Hs) as [Hval Hlen].
  split; [exact Hval|]. simpl. rewrite Hlen.
  assert (Hu : uniform (List.length rule) (run_segments rule [initial_state jsonData])).
  { rewrite <- (iter_advance_run_segments rule [] []) by (repeat constructor).
    simpl. rewrite app_nil_r. apply (level_uniform rule jsonData). lia. }
  unfold uniform in Hu. rewrite Forall_forall in Hu. now apply Hu.
Qed.

Lemma matches_are_located_sample :
  let m := mkMatch (VStr "Book 2")
             [KProp "store"; KProp "book"; position 1; KProp "title"] in
  In m (process (parseJsonPath "$.store.book[*].title") Examples.sampleData)
  /\ resolve Examples.sampleData (path m) = value_of m
  /\ List.length (path m) = 4.
Proof.
  intros m.
  assert (Hin : In m (process (parseJsonPath "$.store.book[*].title")
                        Examples.sampleData))
    by (right; left; reflexivity).
  split; [exact Hin|].
  exact (matches_are_located (parseJsonPath "$.store.book[*].title")
           Examples.sampleData m Hin).
Defined.

End EngineExtras.

(* ================================================================== *)
(** ** Facts about strings, digits and decimal writing *)
(* ================================================================== *)

Module TextFacts.
Import JS Automaton Notions.

Lemma app_nil_string (a : string) : (a ++ EmptyString)%string = a.
Proof. induction a as [|x a IH]; simpl; [reflexivity | now rewrite IH]. Qed.

Lemma app_assoc_string (a b c : string) :
  ((a ++ b) ++ c)%string = (a ++ (b ++ c))%string.
Proof. induction a as [|x a IH]; simpl; [reflexivity | now rewrite IH]. Qed.

Lemma length_app_string (a b : string) :
  String.length (a ++ b) = String.length a + String.length b.
Proof. induction a as [|x a IH]; simpl; [reflexivity | now rewrite IH]. Qed.

Lemma string_rev_acc (s : string) :
  forall acc, string_rev acc s = (string_rev EmptyString s ++ acc)%string.
Proof.
  induction s as [|c s IH]; intros acc; simpl; [reflexivity|].
  rewrite (IH (String c acc)), (IH (String c EmptyString)).
  now rewrite app_assoc_string.
Qed.

Lemma string_rev_app (a b : string) :
  forall acc, string_rev acc (a ++ b) = string_rev (string_rev acc a) b.
Proof. induction a as [|c a IH]; intros acc; simpl; [reflexivity | apply IH]. Qed.

Lemma string_rev_involutive (s : string) :
  string_rev EmptyString (string_rev EmptyString s) = s.
Proof.
  induction s as [|c s IH]; [reflexivity|]. simpl.
  rewrite (string_rev_acc s (String c EmptyString)), string_rev_app, IH.
  reflexivity.
Qed.

(** *** Digits *)

Lemma digit_cases (c : ascii) :
  is_digit c = true ->
  In c ["0"; "1"; "2"; "3"; "4"; "5"; "6"; "7"; "8"; "9"]%char.
Proof.
  intros H.
  destruct c as [[] [] [] [] [] [] [] []];
    try (cbv in H; discriminate H); simpl; tauto.
Qed.

Ltac digit_case H :=
  apply digit_cases in H; simpl in H;
  repeat (destruct H as [H|H]; [subst|]); [..|contradiction].

Lemma radix_digit_decimal (c : ascii) :
  is_digit c = true -> radix_digit 10 c = Some (digit_val c).
Proof. intros H. digit_case H; reflexivity. Qed.

Lemma digit_is_no_space (c : ascii) : is_digit c = true -> is_space c = false.
Proof. intros H. digit_case H; reflexivity. Qed.

Lemma digit_is_name_char (c : ascii) :
  is_digit c = true ->
  Ascii.eqb c "." = false /\ Ascii.eqb c "[" = false /\ Ascii.eqb c "]" = false.
Proof. intros H. digit_case H; repeat split. Qed.

Lemma all_digits_cons (c : ascii) (s : string) :
  all_digits (String c s) = true -> is_digit c = true /\ all_digits s = true.
Proof. simpl. intros H. now apply andb_prop in H. Qed.

Lemma all_digits_separator_free (s : string) :
  all_digits s = true -> separator_free s = true.
Proof.
  induction s as [|c s IH]; [reflexivity|]. intros H.
  apply all_digits_cons in H. destruct H as [Hc Hs].
  destruct (digit_is_name_char c Hc) as (Hdot & Hopen & Hclose).
  simpl. rewrite Hdot, Hopen, Hclose. simpl. now apply IH.
Qed.

Lemma all_digits_rev (s : string) :
  forall acc,
    all_digits acc = true -> all_digits s = true ->
    all_digits (string_rev acc s) = true.
Proof.
  induction s as [|c s IH]; intros acc Hacc Hs; simpl; [assumption|].
  apply all_digits_cons in Hs. destruct Hs as [Hc Hs].
  apply IH; [|assumption]. simpl. now rewrite Hc, Hacc.
Qed.

Lemma trim_start_digits (s : string) : all_digits s = true -> trim_start s = s.
Proof.
  destruct s as [|c s]; [reflexivity|]. intros H.
  apply all_digits_cons in H. destruct H as [Hc _].
  simpl. now rewrite (digit_is_no_space c Hc).
Qed.

Lemma trim_digits (s : string) : all_digits s = true -> trim s = s.
Proof.
  intros H. unfold trim. rewrite (trim_start_digits s H).
  rewrite trim_start_digits by (now apply all_digits_rev).
  apply string_rev_involutive.
Qed.

Lemma span_digits_decimal (ds : string) :
  forall count a,
    all_digits ds = true ->
    span_digits 10 count (Z.of_nat a) ds
    = (count + String.length ds, Z.of_nat (decimal_value a ds), EmptyString).
Proof.
  induction ds as [|c ds IH]; intros count a H.
  - simpl. now rewrite Nat.add_0_r.
  - apply all_digits_cons in H. destruct H as [Hc Hds].
    cbn [span_digits decimal_value String.length].
    rewrite (radix_digit_decimal c Hc).
    replace (Z.of_nat 10 * Z.of_nat a + Z.of_nat (digit_val c))%Z
      with (Z.of_nat (10 * a + digit_val c)) by lia.
    rewrite IH by assumption. f_equal. f_equal. lia.
Qed.

Lemma strip_sign_digits (s : string) :
  all_digits s = true -> strip_sign s = (false, s).
Proof.
  destruct s as [|c s]; [reflexivity|]. intros H.
  apply all_digits_cons in H. destruct H as [Hc _].
  digit_case Hc; reflexivity.
Qed.

Lemma digit_is_no_letter (c : ascii) (l : ascii) :
  is_digit c = true -> is_digit l = false -> Ascii.eqb c l = false.
Proof.
  intros Hc Hl. destruct (Ascii.eqb c l) eqn:E; [|reflexivity].
  apply Ascii.eqb_eq in E. subst. congruence.
Qed.

Lemma unsigned_decimal_digits (s : string) :
  all_digits s = true -> s <> EmptyString -> unsigned_decimal s = true.
Proof.
  intros H Hne. unfold unsigned_decimal.
  assert (Hinf : String.eqb s "Infinity" = false).
  { destruct s as [|c s]; [reflexivity|].
    apply all_digits_cons in H. destruct H as [Hc _].
    simpl. now rewrite (digit_is_no_letter c "I" Hc eq_refl). }
  rewrite Hinf. change 0%Z with (Z.of_nat 0).
  rewrite span_digits_decimal by assumption.
  destruct s; [congruence | reflexivity].
Qed.

(** A run of decimal digits is a number for [isNaN], and [parseInt]
    reads its value. *)
Lemma digits_are_numeric (s : string) :
  all_digits s = true -> s <> EmptyString ->
  isNaN s = false
  /\ parseInt s = Int (Z.of_nat (decimal_value 0 s)).
Proof.
  intros H Hne. split.
  - unfold isNaN, numeric_string. rewrite (trim_digits s H).
    assert (Hdec := unsigned_decimal_digits s H Hne).
    assert (Hsign := strip_sign_digits s H).
    destruct s as [|c1 r]; [congruence|].
    destruct (all_digits_cons _ _ H) as [Hc1 Hr].
    digit_case Hc1; try (rewrite Hsign; simpl; now rewrite Hdec).
    destruct r as [|c2 r2]; [reflexivity|].
    destruct (all_digits_cons _ _ Hr) as [Hc2 _].
    rewrite (digit_is_no_letter c2 "x" Hc2 eq_refl),
      (digit_is_no_letter c2 "X" Hc2 eq_refl),
      (digit_is_no_letter c2 "o" Hc2 eq_refl),
      (digit_is_no_letter c2 "O" Hc2 eq_refl),
      (digit_is_no_letter c2 "b" Hc2 eq_refl),
      (digit_is_no_letter c2 "B" Hc2 eq_refl).
    simpl orb. cbv iota. now rewrite Hdec.
  - unfold parseInt. rewrite (trim_start_digits s H), (strip_sign_digits s H).
    assert (Hbody :
              match s with
              | String "0" (String c r) =>
                  if Ascii.eqb c "x" || Ascii.eqb c "X" then (16, r) else (10, s)
              | _ => (10, s)
              end = (10, s)).
    { destruct s as [|c1 r]; [reflexivity|].
      destruct (all_digits_cons _ _ H) as [Hc1 Hr].
      digit_case Hc1; try reflexivity.
      destruct r as [|c2 r2]; [reflexivity|].
      destruct (all_digits_cons _ _ Hr) as [Hc2 _].
      now rewrite (digit_is_no_letter c2 "x" Hc2 eq_refl),
        (digit_is_no_letter c2 "X" Hc2 eq_refl). }
    rewrite Hbody. change 0%Z with (Z.of_nat 0).
    rewrite span_digits_decimal by assumption.
    destruct s; [congruence | reflexivity].
Qed.

(** *** The decimal writing of a number *)

Lemma all_digits_of_uint (d : Decimal.uint) :
  all_digits (NilEmpty.string_of_uint d) = true.
Proof. induction d; simpl; auto. Qed.

Lemma decimal_value_of_uint (d : Decimal.uint) :
  forall a, decimal_value a (NilEmpty.string_of_uint d) = Nat.of_uint_acc d a.
Proof.
  induction d; intros a; cbn [NilEmpty.string_of_uint decimal_value Nat.of_uint_acc];
    [reflexivity|..];
    rewrite IHd, Nat.tail_mul_spec; f_equal; cbv [digit_val nat_of_ascii];
    simpl; lia.
Qed.

Lemma decimal_digits (i : nat) : all_digits (decimal i) = true.
Proof. apply all_digits_of_uint. Qed.

Lemma decimal_value_decimal (i : nat) : decimal_value 0 (decimal i) = i.
Proof.
  unfold decimal. rewrite decimal_value_of_uint.
  change (Nat.of_uint_acc (Nat.to_uint i) 0) with (Nat.of_uint (Nat.to_uint i)).
  apply DecimalNat.Unsigned.of_to.
Qed.

Lemma decimal_nonempty (i : nat) : decimal i <> EmptyString.
Proof.
  unfold decimal. pose proof (DecimalNat.Unsigned.to_of (Nat.to_uint i)) as H.
  rewrite DecimalNat.Unsigned.of_to in H.
  destruct (Nat.to_uint i) eqn:E; simpl; discriminate.
Qed.

End TextFacts.

(* ================================================================== *)
(** ** Further properties of the path parser *)
(* ================================================================== *)

Module ParserExtras.
Import JS Automaton Notions ParserProofs.

Lemma append_nil_r (a : string) : (a ++ EmptyString)%string = a.
Proof. induction a as [|x a IH]; simpl; [reflexivity | now rewrite IH]. Qed.

Lemma separator_free_chars (c : ascii) (rest : string) :
  separator_free (String c rest) = true ->
  Ascii.eqb c "." = false /\ Ascii.eqb c "[" = false /\ Ascii.eqb c "]" = false
  /\ separator_free rest = true.
Proof.
  simpl. intros H.
  apply andb_prop in H. destruct H as [H Hrest].
  apply andb_prop in H. destruct H as [H Hclose].
  apply andb_prop in H. destruct H as [Hdot Hopen].
  apply negb_true_iff in Hdot, Hopen, Hclose. auto.
Qed.

(** Text without dot or bracket is only accumulated by the loop. *)
Lemma parse_loop_name (k : string) :
  forall rest segments current inBracket,
    separator_free k = true ->
    parse_loop (k ++ rest) segments current inBracket
    = parse_loop rest segments (current ++ k) inBracket.
Proof.
  induction k as [|c k IH]; intros rest segments current inBracket Hfree.
  - simpl. now rewrite append_nil_r.
  - apply separator_free_chars in Hfree.
    destruct Hfree as (Hdot & Hopen & Hclose & Hfree).
    simpl. rewrite Hopen, Hclose, Hdot. simpl.
    rewrite IH by assumption. now rewrite append_assoc.
Qed.

Lemma push_property_name (segments : list segment) (k : string) :
  is_name k = true -> push_property segments k = segments ++ [property k].
Proof.
  unfold is_name. intros H. apply andb_prop in H. destruct H as [Hne _].
  destruct k; [discriminate | reflexivity].
Qed.

Lemma parse_loop_dotted (ks : list string) :
  Forall (fun k => is_name k = true) ks ->
  forall segments current,
    parse_loop (dotted ks) segments current false
    = push_property segments current ++ map property ks.
Proof.
  induction 1 as [|k ks Hk Hks IH]; intros segments current; simpl.
  - now rewrite app_nil_r.
  - assert (Hfree : separator_free k = true).
    { unfold is_name in Hk. now apply andb_prop in Hk. }
    rewrite parse_loop_name by assumption. simpl.
    rewrite IH, push_property_name by assumption.
    now rewrite <- app_assoc.
Qed.

Lemma parse_dotted_path (ks : list string) :
  Forall (fun k => is_name k = true) ks ->
  parseJsonPath ("$" ++ dotted ks) = map property ks.
Proof.
  intros Hks. unfold parseJsonPath.
  destruct Hks as [|k ks Hk Hks]; [reflexivity|].
  simpl strip_root.
  assert (Hfree : separator_free k = true).
  { unfold is_name in Hk. now apply andb_prop in Hk. }
  rewrite parse_loop_name by assumption. simpl.
  rewrite parse_loop_dotted, push_property_name by assumption. reflexivity.
Qed.

(** X7.  A path written as the root marker followed by dot-separated
    names is parsed to the property segments of these names, in order;
    matched against a document, it gives at most one Match. *)
Theorem dotted_path_parses_to_properties (ks : list string) (jsonData : value) :
  Forall (fun k => is_name k = true) ks ->
  parseJsonPath ("$" ++ dotted ks) = map property ks
  /\ List.length (process (parseJsonPath ("$" ++ dotted ks)) jsonData) <= 1.
Proof.
  intros Hks. rewrite parse_dotted_path by assumption. split; [reflexivity|].
  rewrite AutomatonProofs.process_run_segments. rewrite length_map.
  generalize (initial_state jsonData). clear Hks.
  induction ks as [|k ks IH]; intros s; [simpl; lia|].
  cbn [map]. rewrite AutomatonProofs.run_segments_cons,
    AutomatonProofs.flat_map_singleton.
  simpl apply_segment. unfold handlePropertyTransition.
  destruct (Lodash.isObject (currentValue s) && Lodash.has (currentValue s) k).
  - apply IH.
  - rewrite AutomatonProofs.run_segments_nil. simpl. lia.
Qed.

Lemma dotted_path_parses_to_properties_sample :
  Forall (fun k => is_name k = true) ["store"; "bicycle"; "color"]
  /\ parseJsonPath "$.store.bicycle.color"
     = [property "store"; property "bicycle"; property "color"].
Proof.
  assert (H : Forall (fun k => is_name k = true) ["store"; "bicycle"; "color"])
    by (repeat constructor).
  split; [exact H|].
  exact (proj1 (dotted_path_parses_to_properties ["store"; "bicycle"; "color"]
                  VNull H)).
Defined.

(** Names, then an opening bracket: the names are pushed and the loop
    is inside the bracket. *)
Lemma parse_loop_dotted_bracket (ks : list string) (rest : string) :
  Forall (fun k => is_name k = true) ks ->
  forall segments current,
    parse_loop (dotted ks ++ String "[" rest) segments current false
    = parse_loop rest (push_property segments current ++ map property ks)
        EmptyString true.
Proof.
  induction 1 as [|k ks Hk Hks IH]; intros segments current.
  - simpl. now rewrite app_nil_r.
  - assert (Hfree : separator_free k = true).
    { unfold is_name in Hk. now apply andb_prop in Hk. }
    cbn [dotted]. change ("." ++ k ++ dotted ks)%string
      with (String "." (k ++ dotted ks)).
    cbn [String.append]. rewrite append_assoc.
    cbn [parse_loop Ascii.eqb Bool.eqb andb negb].
    rewrite parse_loop_name by assumption. rewrite IH. simpl String.append.
    rewrite push_property_name by assumption.
    now rewrite <- app_assoc.
Qed.

(** The parse of a path that is names, one bracket group, names. *)
Lemma parse_names_group_names (pre post : list string) (group : string)
    (seg : segment) :
  Forall (fun k => is_name k = true) pre ->
  Forall (fun k => is_name k = true) post ->
  (forall segments rest,
     parse_loop (group ++ String "]" rest) segments EmptyString true
     = parse_loop rest (segments ++ [seg]) EmptyString false) ->
  parseJsonPath ("$" ++ dotted pre ++ String "[" (group ++ String "]" (dotted post)))
  = map property pre ++ seg :: map property post.
Proof.
  intros Hpre Hpost Hgroup. unfold parseJsonPath.
  assert (Hafter : forall segments,
             parse_loop (group ++ String "]" (dotted post)) segments EmptyString true
             = segments ++ seg :: map property post).
  { intros segments. rewrite Hgroup, parse_loop_dotted by assumption.
    simpl. now rewrite <- app_assoc. }
  destruct Hpre as [|k pre Hk Hpre].
  - simpl. apply Hafter.
  - assert (Hfree : separator_free k = true).
    { unfold is_name in Hk. now apply andb_prop in Hk. }
    cbn [dotted]. change ("." ++ k ++ dotted pre)%string
      with (String "." (k ++ dotted pre)).
    cbn [String.append strip_root]. rewrite append_assoc.
    rewrite parse_loop_name by assumption.
    rewrite parse_loop_dotted_bracket by assumption.
    rewrite Hafter. simpl String.append.
    rewrite push_property_name by assumption. reflexivity.
Qed.

Lemma parse_wildcard_group (segments : list segment) (rest : string) :
  parse_loop ("*" ++ String "]" rest) segments EmptyString true
  = parse_loop rest (segments ++ [wildcard]) EmptyString false.
Proof. reflexivity. Qed.

Lemma parse_index_group (i : nat) (segments : list segment) (rest : string) :
  parse_loop (decimal i ++ String "]" rest) segments EmptyString true
  = parse_loop rest (segments ++ [index (Int (Z.of_nat i))]) EmptyString false.
Proof.
  pose proof (TextFacts.decimal_digits i) as Hd.
  destruct (TextFacts.digits_are_numeric (decimal i) Hd
              (TextFacts.decimal_nonempty i)) as [Hnan Hint].
  rewrite parse_loop_name by (now apply TextFacts.all_digits_separator_free).
  cbn [parse_loop Ascii.eqb Bool.eqb String.append].
  unfold close_bracket. rewrite Hnan, Hint, TextFacts.decimal_value_decimal.
  assert (Hstar : String.eqb (decimal i) "*" = false).
  { destruct (decimal i) as [|c r] eqn:E; [reflexivity|].
    destruct (TextFacts.all_digits_cons _ _ Hd) as [Hc _].
    simpl. now rewrite (TextFacts.digit_is_no_letter c "*" Hc eq_refl). }
  now rewrite Hstar.
Qed.

(** X8.  In a path of dot-separated names with one bracket group, the
    group [[*]] is parsed to the wildcard segment, and a group of decimal
    digits that write a number below 2^53 (up to where every integer is a
    number of JavaScript) to the index segment of that number; the names
    before and after are the property segments around it. *)
Theorem bracket_group_parses_to_wildcard_or_index (pre post : list string) :
  Forall (fun k => is_name k = true) pre ->
  Forall (fun k => is_name k = true) post ->
  parseJsonPath ("$" ++ dotted pre ++ "[*]" ++ dotted post)
  = map property pre ++ wildcard :: map property post
  /\ forall i,
       (Z.of_nat i < 2 ^ 53)%Z ->
       parseJsonPath ("$" ++ dotted pre ++ "[" ++ decimal i ++ "]" ++ dotted post)
       = map property pre ++ index (Int (Z.of_nat i)) :: map property post.
Proof.
  intros Hpre Hpost. split.
  - apply (parse_names_group_names pre post "*" wildcard Hpre Hpost).
    intros; apply parse_wildcard_group.
  - intros i _.
    apply (parse_names_group_names pre post (decimal i) _ Hpre Hpost).
    intros; apply parse_index_group.
Qed.

Lemma bracket_group_parses_to_wildcard_or_index_sample :
  Forall (fun k => is_name k = true) ["store"; "book"]
  /\ Forall (fun k => is_name k = true) ["title"]
  /\ (Z.of_nat 12 < 2 ^ 53)%Z
  /\ parseJsonPath "$.store.book[*].title"
     = [property "store"; property "book"; wildcard; property "title"]
  /\ parseJsonPath "$.store.book[12].title"
     = [property "store"; property "book"; index (Int 12); property "title"].
Proof.
  assert (H1 : Forall (fun k => is_name k = true) ["store"; "book"])
    by (repeat constructor).
  assert (H2 : Forall (fun k => is_name k = true) ["title"])
    by (repeat constructor).
  assert (H3 : (Z.of_nat 12 < 2 ^ 53)%Z) by (vm_compute; reflexivity).
  split; [exact H1|]. split; [exact H2|]. split; [exact H3|].
  pose proof (bracket_group_parses_to_wildcard_or_index
                ["store"; "book"] ["title"] H1 H2) as [Hw Hi].
  split; [exact Hw | exact (Hi 12 H3)].
Defined.

(** *** What a property segment is never made of *)

Lemma bracket_free_snoc (current : string) (c : ascii) :
  bracket_free current = true ->
  Ascii.eqb c "[" = false -> Ascii.eqb c "]" = false ->
  bracket_free (current ++ String c EmptyString) = true.
Proof.
  intros Hcur Hopen Hclose.
  induction current as [|x current IH]; simpl in *.
  - now rewrite Hopen, Hclose.
  - apply andb_prop in Hcur. destruct Hcur as [Hx Hcur].
    rewrite Hx. simpl. now apply IH.
Qed.

Lemma well_named_push (segments : list segment) (current : string) :
  well_named segments -> bracket_free current = true ->
  well_named (push_property segments current).
Proof.
  intros Hsegs Hcur. destruct current as [|c r]; [exact Hsegs|].
  simpl. intros s Hin. apply in_app_or in Hin.
  destruct Hin as [Hin|[E|[]]]; [now apply Hsegs|].
  inversion E; subst. split; [discriminate | assumption].
Qed.

Lemma well_named_close (segments : list segment) (current : string) :
  well_named segments -> well_named (close_bracket segments current).
Proof.
  intros Hsegs. unfold close_bracket.
  destruct (String.eqb current "*"); [|destruct (negb (isNaN current))];
    try exact Hsegs;
    intros s Hin; apply in_app_or in Hin;
    (destruct Hin as [Hin|[E|[]]]; [now apply Hsegs | discriminate E]).
Qed.

Lemma parse_loop_well_named (text : string) :
  forall segments current inBracket,
    well_named segments -> bracket_free current = true ->
    well_named (parse_loop text segments current inBracket).
Proof.
  induction text as [|char rest IH]; intros segments current inBracket Hsegs Hcur.
  - now apply well_named_push.
  - simpl.
    destruct (Ascii.eqb char "[") eqn:Hopen;
      [apply IH; [now apply well_named_push | reflexivity]|].
    destruct (Ascii.eqb char "]") eqn:Hclose;
      [apply IH; [now apply well_named_close | reflexivity]|].
    destruct (Ascii.eqb char "." && negb inBracket);
      [apply IH; [now apply well_named_push | reflexivity]|].
    apply IH; [assumption | now apply bracket_free_snoc].
Qed.

(** X9.  Whatever the text, a property segment that [parseJsonPath]
    returns has a name that is not empty and that holds no bracket. *)
Theorem parsed_property_names_well_formed (jsonPath s : string) :
  In (property s) (parseJsonPath jsonPath) ->
  s <> EmptyString /\ bracket_free s = true.
Proof.
  apply (parse_loop_well_named (strip_root jsonPath) [] EmptyString false);
    [intros s' [] | reflexivity].
Qed.

Lemma parsed_property_names_well_formed_sample :
  In (property "b.c") (parseJsonPath "$..a[b.c")
  /\ "b.c" <> EmptyString /\ bracket_free "b.c" = true.
Proof.
  assert (Hin : In (property "b.c") (parseJsonPath "$..a[b.c"))
    by (right; left; reflexivity).
  split; [exact Hin|].
  exact (parsed_property_names_well_formed "$..a[b.c" "b.c" Hin).
Defined.

(** *** An empty bracket group *)

(** The loop only adds to the segments it was given. *)
Lemma parse_loop_extends (text : string) :
  forall segments current inBracket,
    exists tail, parse_loop text segments current inBracket = segments ++ tail.
Proof.
  assert (Hpush : forall segments current,
             exists tail, push_property segments current = segments ++ tail).
  { intros segments current. destruct current; simpl.
    - exists []. now rewrite app_nil_r.
    - eexists. reflexivity. }
  assert (Hclose : forall segments current,
             exists tail, close_bracket segments current = segments ++ tail).
  { intros segments current. unfold close_bracket.
    destruct (String.eqb current "*"); [eexists; reflexivity|].
    destruct (negb (isNaN current)); [eexists; reflexivity|].
    exists []. now rewrite app_nil_r. }
  induction text as [|char rest IH]; intros segments current inBracket.
  - apply Hpush.
  - cbn [parse_loop].
    destruct (Ascii.eqb char "[").
    { destruct (Hpush segments current) as [t1 ->].
      destruct (IH (segments ++ t1) EmptyString true) as [t2 ->].
      exists (t1 ++ t2). now rewrite app_assoc. }
    destruct (Ascii.eqb char "]").
    { destruct (Hclose segments current) as [t1 ->].
      destruct (IH (segments ++ t1) EmptyString false) as [t2 ->].
      exists (t1 ++ t2). now rewrite app_assoc. }
    destruct (Ascii.eqb char "." && negb inBracket).
    { destruct (Hpush segments current) as [t1 ->].
      destruct (IH (segments ++ t1) EmptyString inBracket) as [t2 ->].
      exists (t1 ++ t2). now rewrite app_assoc. }
    apply IH.
Qed.

(** Wherever the loop is when it reads [[]], it adds an index segment
    that holds [NaN]: the text collected inside the brackets is empty,
    [isNaN] of the empty text is false and [parseInt] of it is [NaN]. *)
Lemma parse_loop_empty_group (front back : string) :
  forall segments current inBracket,
    exists pre post,
      parse_loop (front ++ String "[" (String "]" back)) segments current inBracket
      = pre ++ index NaN :: post.
Proof.
  induction front as [|char rest IH]; intros segments current inBracket.
  - cbn [String.append parse_loop Ascii.eqb Bool.eqb].
    change (close_bracket (push_property segments current) EmptyString)
      with (push_property segments current ++ [index NaN]).
    destruct (parse_loop_extends back
                (push_property segments current ++ [index NaN]) EmptyString false)
      as [tail ->].
    exists (push_property segments current), tail.
    now rewrite <- app_assoc.
  - cbn [String.append parse_loop].
    destruct (Ascii.eqb char "["); [apply IH|].
    destruct (Ascii.eqb char "]"); [apply IH|].
    destruct (Ascii.eqb char "." && negb inBracket); apply IH.
Qed.

(** Removing the root marker leaves a [[]] of the path in place. *)
Lemma strip_root_keeps_group (front back : string) :
  exists front',
    strip_root (front ++ String "[" (String "]" back))
    = (front' ++ String "[" (String "]" back))%string.
Proof.
  destruct front as [|c front]; [exists EmptyString; reflexivity|].
  destruct (Ascii.eqb_spec c "$") as [->|Hc].
  - destruct front as [|d front]; [exists EmptyString; reflexivity|].
    destruct (Ascii.eqb_spec d ".") as [->|Hd].
    + exists front. reflexivity.
    + exists (String d front).
      destruct d as [[] [] [] [] [] [] [] []]; try reflexivity.
      now contradiction Hd.
  - exists (String c front).
    destruct c as [[] [] [] [] [] [] [] []]; try reflexivity.
    now contradiction Hc.
Qed.

(** X4.  Whatever stands before and after it, an empty bracket group
    [[]] in a path is parsed to an index segment that holds [NaN]
    ([isNaN] of the empty text is false, [parseInt] of it is [NaN]); a
    path with such a group matches nothing, in no document. *)
Theorem empty_bracket_group_matches_nothing (front back : string)
    (jsonData : value) :
  (exists pre post,
     parseJsonPath (front ++ "[]" ++ back) = pre ++ index NaN :: post)
  /\ process (parseJsonPath (front ++ "[]" ++ back)) jsonData = [].
Proof.
  assert (Hparse : exists pre post,
             parseJsonPath (front ++ "[]" ++ back) = pre ++ index NaN :: post).
  { unfold parseJsonPath.
    change (front ++ "[]" ++ back)%string
      with (front ++ String "[" (String "]" back))%string.
    destruct (strip_root_keeps_group front back) as [front' ->].
    apply parse_loop_empty_group. }
  split; [exact Hparse|].
  destruct Hparse as (pre & post & ->).
  apply EngineExtras.index_nan_no_match.
Qed.

(** *** A bracket group that is neither a number nor the wildcard *)

Lemma parse_dropped_group (group : string) (segments : list segment)
    (rest : string) :
  separator_free group = true ->
  group <> "*"%string ->
  isNaN group = true ->
  parse_loop (group ++ String "]" rest) segments EmptyString true
  = parse_loop rest segments EmptyString false.
Proof.
  intros Hfree Hstar Hnan.
  rewrite parse_loop_name by assumption.
  cbn [parse_loop Ascii.eqb Bool.eqb String.append].
  unfold close_bracket. rewrite Hnan.
  apply String.eqb_neq in Hstar. now rewrite Hstar.
Qed.

Lemma parse_names_dropped_group (pre post : list string) (group : string) :
  Forall (fun k => is_name k = true) pre ->
  Forall (fun k => is_name k = true) post ->
  (forall segments rest,
     parse_loop (group ++ String "]" rest) segments EmptyString true
     = parse_loop rest segments EmptyString false) ->
  parseJsonPath ("$" ++ dotted pre ++ String "[" (group ++ String "]" (dotted post)))
  = map property pre ++ map property post.
Proof.
  intros Hpre Hpost Hgroup. unfold parseJsonPath.
  assert (Hafter : forall segments,
             parse_loop (group ++ String "]" (dotted post)) segments EmptyString true
             = segments ++ map property post).
  { intros segments. rewrite Hgroup, parse_loop_dotted by assumption.
    reflexivity. }
  destruct Hpre as [|k pre Hk Hpre].
  - simpl. apply Hafter.
  - assert (Hfree : separator_free k = true).
    { unfold is_name in Hk. now apply andb_prop in Hk. }
    cbn [dotted]. change ("." ++ k ++ dotted pre)%string
      with (String "." (k ++ dotted pre)).
    cbn [String.append strip_root]. rewrite append_assoc.
    rewrite parse_loop_name by assumption.
    rewrite parse_loop_dotted_bracket by assumption.
    rewrite Hafter. simpl String.append.
    rewrite push_property_name by assumption. reflexivity.
Qed.

(** X20.  In a path of dot-separated names with one bracket group whose
    content is neither the wildcard nor a number (a quoted name, for
    instance), the group leaves no segment: the path is parsed to the
    property segments of the names around the group, and it matches what
    the path without the group matches. *)
Theorem named_bracket_group_is_dropped (pre post : list string)
    (group : string) (jsonData : value) :
  Forall (fun k => is_name k = true) pre ->
  Forall (fun k => is_name k = true) post ->
  separator_free group = true ->
  group <> "*"%string ->
  isNaN group = true ->
  let path := ("$" ++ dotted pre ++ "[" ++ group ++ "]" ++ dotted post)%string in
  parseJsonPath path = map property (pre ++ post)
  /\ process (parseJsonPath path) jsonData
     = process (parseJsonPath ("$" ++ dotted (pre ++ post))) jsonData.
Proof.
  intros Hpre Hpost Hfree Hstar Hnan path.
  assert (Hparse : parseJsonPath path = map property (pre ++ post)).
  { rewrite map_app.
    apply (parse_names_dropped_group pre post group Hpre Hpost).
    intros segments rest. now apply parse_dropped_group. }
  split; [exact Hparse|].
  rewrite Hparse, parse_dotted_path; [reflexivity|].
  apply Forall_app. now split.
Qed.

Lemma named_bracket_group_is_dropped_sample :
  Forall (fun k => is_name k = true) ["store"]
  /\ Forall (fun k => is_name k = true) ["color"]
  /\ separator_free "'bicycle'" = true
  /\ "'bicycle'"%string <> "*"%string
  /\ isNaN "'bicycle'" = true
  /\ parseJsonPath "$.store['bicycle'].color"
     = [property "store"; property "color"]
  /\ process (parseJsonPath "$.store['bicycle'].color") Examples.sampleData
     = process (parseJsonPath "$.store.color") Examples.sampleData.
Proof.
  assert (H1 : Forall (fun k => is_name k = true) ["store"])
    by (repeat constructor).
  assert (H2 : Forall (fun k => is_name k = true) ["color"])
    by (repeat constructor).
  assert (H3 : separator_free "'bicycle'" = true) by reflexivity.
  assert (H4 : "'bicycle'"%string <> "*"%string) by discriminate.
  assert (H5 : isNaN "'bicycle'" = true) by reflexivity.
  split; [exact H1|]. split; [exact H2|]. split; [exact H3|].
  split; [exact H4|]. split; [exact H5|].
  exact (named_bracket_group_is_dropped ["store"] ["color"] "'bicycle'"
           Examples.sampleData H1 H2 H3 H4 H5).
Defined.

End ParserExtras.

(* ================================================================== *)
(** ** Further properties of extraction and of the mapping driver *)
(* ================================================================== *)

Module TransformerExtras.
Import JS Automaton Transformer Notions TransformerProofs.

(** *** The aggregate suffix *)

Lemma all_word_cons (c : ascii) (s : string) :
  all_word (String c s) = true -> is_word c = true /\ all_word s = true.
Proof. simpl. intros H. now apply andb_prop in H. Qed.

Lemma all_word_rev (s : string) :
  forall acc,
    all_word acc = true -> all_word s = true ->
    all_word (string_rev acc s) = true.
Proof.
  induction s as [|c s IH]; intros acc Hacc Hs; simpl; [assumption|].
  apply all_word_cons in Hs. destruct Hs as [Hc Hs].
  apply IH; [|assumption]. simpl. now rewrite Hc, Hacc.
Qed.

(** Reading word characters that are followed by a dot. *)
Lemma span_word_rev_run (run : string) :
  forall word rest,
    all_word run = true ->
    span_word_rev word (run ++ String "." rest)
    = (string_rev word run, String "." rest).
Proof.
  induction run as [|c run IH]; intros word rest Hrun; [reflexivity|].
  apply all_word_cons in Hrun. destruct Hrun as [Hc Hrun].
  simpl. rewrite Hc. now apply IH.
Qed.

(** What [span_word_rev] returns, whatever the text. *)
Lemma span_word_rev_spec (text : string) :
  forall word word' rest,
    span_word_rev word text = (word', rest) ->
    exists run,
      text = (run ++ rest)%string /\ all_word run = true
      /\ word' = string_rev word run.
Proof.
  induction text as [|c text IH]; intros word word' rest Hspan; simpl in Hspan.
  - inversion Hspan; subst. exists EmptyString. repeat split.
  - destruct (is_word c) eqn:Hc.
    + destruct (IH _ _ _ Hspan) as (run & -> & Hrun & ->).
      exists (String c run). simpl. rewrite Hc. repeat split. assumption.
    + inversion Hspan; subst. exists EmptyString. repeat split.
Qed.

Lemma string_rev_nonempty (s acc : string) :
  s <> EmptyString -> string_rev acc s <> EmptyString.
Proof.
  destruct s as [|c s]; [congruence|]. intros _. simpl.
  rewrite TextFacts.string_rev_acc.
  destruct (string_rev EmptyString s); discriminate.
Qed.

(** The suffix [.name()] is split off. *)
Lemma parse_operation_suffix (path name : string) :
  is_operation_name name = true ->
  parsePathWithOperation (path ++ "." ++ name ++ "()") = (path, Some name).
Proof.
  intros Hname. unfold is_operation_name in Hname.
  apply andb_prop in Hname. destruct Hname as [Hne Hword].
  apply negb_true_iff in Hne.
  unfold parsePathWithOperation, operation_suffix.
  rewrite TextFacts.string_rev_app.
  change ("." ++ name ++ "()")%string with (String "." (name ++ "()")).
  cbn [string_rev]. rewrite TextFacts.string_rev_app. cbn [string_rev].
  rewrite (TextFacts.string_rev_acc name).
  rewrite span_word_rev_run
    by (apply all_word_rev; [reflexivity | assumption]).
  rewrite !TextFacts.string_rev_involutive.
  destruct name as [|c w]; [discriminate | reflexivity].
Qed.

(** X10.  A path that ends in [.name()], for a name of word characters,
    is split into the text before the suffix and the name; and whenever
    [parsePathWithOperation] returns an operation, the text it was given
    is the returned path followed by [.name()], the name being made of
    word characters. *)
Theorem operation_suffix_round_trip :
  (forall path name,
     is_operation_name name = true ->
     parsePathWithOperation (path ++ "." ++ name ++ "()") = (path, Some name))
  /\ (forall text path name,
        parsePathWithOperation text = (path, Some name) ->
        text = (path ++ "." ++ name ++ "()")%string
        /\ is_operation_name name = true).
Proof.
  split.
  - intros path name Hname. now apply parse_operation_suffix.
  - intros text path name Hparse.
    unfold parsePathWithOperation in Hparse.
    destruct (operation_suffix text) as [[cleanPath operation]|] eqn:Hsuffix;
      [|discriminate].
    inversion Hparse; subst cleanPath operation. clear Hparse.
    unfold operation_suffix in Hsuffix.
    destruct (string_rev EmptyString text) as [|c1 s1] eqn:Hrev; [discriminate|].
    destruct c1 as [[] [] [] [] [] [] [] []]; try discriminate.
    destruct s1 as [|c2 r]; [discriminate|].
    destruct c2 as [[] [] [] [] [] [] [] []]; try discriminate.
    destruct (span_word_rev EmptyString r) as [word rest] eqn:Hspan.
    destruct (span_word_rev_spec _ _ _ _ Hspan) as (run & -> & Hrun & ->).
    destruct (string_rev EmptyString run) as [|c w] eqn:Hword; [discriminate|].
    destruct rest as [|d before]; [discriminate|].
    destruct d as [[] [] [] [] [] [] [] []]; try discriminate.
    inversion Hsuffix; subst path name. clear Hsuffix.
    split.
    + rewrite <- (TextFacts.string_rev_involutive text), Hrev.
      cbn [string_rev]. rewrite TextFacts.string_rev_app. cbn [string_rev].
      rewrite (TextFacts.string_rev_acc before).
      rewrite (TextFacts.string_rev_acc run), Hword. reflexivity.
    + unfold is_operation_name. rewrite <- Hword.
      rewrite all_word_rev by (reflexivity || assumption).
      rewrite Hword. reflexivity.
Qed.

Lemma operation_suffix_round_trip_sample :
  is_operation_name "max" = true
  /\ parsePathWithOperation ("$.store.book[*].price" ++ "." ++ "max" ++ "()")
     = ("$.store.book[*].price", Some "max")
  /\ "$.store.book[*].price.max()"
     = ("$.store.book[*].price" ++ "." ++ "max" ++ "()")%string.
Proof.
  split; [reflexivity|].
  pose proof (proj1 operation_suffix_round_trip
                "$.store.book[*].price" "max" eq_refl) as H.
  split; [exact H|].
  exact (proj1 (proj2 operation_suffix_round_trip
                  "$.store.book[*].price.max()" "$.store.book[*].price" "max" H)).
Defined.

Section WithOps.
Context {ops : JsOps}.

(** *** Rules are applied from left to right *)

Lemma reduce_snoc {A : Type} (f : A -> value -> nat -> completion A)
    (array : list value) (x : value) (init : A) :
  Lodash.reduce (array ++ [x]) f init
  = bind (Lodash.reduce array f init) (fun a => f a x (List.length array)).
Proof.
  unfold Lodash.reduce. rewrite fold_left_app. simpl.
  assert (H : forall l i (acc : completion A),
             fst (fold_left (fun '(i, acc) x => (S i, bind acc (fun a => f a x i)))
                    l (i, acc)) = i + List.length l).
  { induction l as [|y l IH]; intros i acc; simpl; [lia|].
    rewrite IH. lia. }
  destruct (fold_left _ array (0, Normal init)) as [i acc] eqn:E.
  simpl. pose proof (H array 0 (Normal init)) as Hi. rewrite E in Hi.
  simpl in Hi. now subst i.
Qed.

(** X12.  [transform] folds the rules from left to right, starting from
    the empty object: with no rule the output is [{}], and a rule added at
    the end of the list is applied to the output of the rules before it
    (and is not looked at when one of them fails). *)
Theorem transform_applies_rules_in_order (sourceData : value)
    (mappings : list value) (rule : value) :
  transform sourceData (Examples.rules []) = Normal (VObj [])
  /\ transform sourceData (Examples.rules (mappings ++ [rule]))
     = bind (transform sourceData (Examples.rules mappings))
         (fun result => transformSingleRule sourceData rule result).
Proof.
  split; [reflexivity|].
  unfold transform, Examples.rules. simpl. apply reduce_snoc.
Qed.

(** *** [debugTransform] *)

Lemma debug_round_follows (sourceData rule : value) (info : debug_info) :
  match debug_round sourceData info rule with
  | Normal info' =>
      transformSingleRule sourceData rule (finalResult info)
      = Normal (finalResult info')
      /\ List.length (steps info') = S (List.length (steps info))
  | Throw e =>
      transformSingleRule sourceData rule (finalResult info) = Throw e
  end.
Proof.
  unfold debug_round, transformSingleRule.
  destruct (destructure rule "source") as [source|e] eqn:Hs; cbn [bind];
    [|reflexivity].
  assert (Ht : destructure rule "target" = Normal (getProp rule "target")).
  { destruct rule; simpl in *; try discriminate; reflexivity. }
  rewrite Ht. cbn [bind].
  destruct (extractValues sourceData source) as [v|e]; cbn [bind];
    [|reflexivity].
  destruct (write_extracted _ (getProp rule "target") v) as [out|e];
    cbn [bind]; [|reflexivity].
  split; [reflexivity|]. simpl. rewrite length_app. simpl. lia.
Qed.

Lemma debug_loop_follows (sourceData : value) (mappings : list value) :
  forall info i,
    match debug_loop sourceData info mappings with
    | Normal info' =>
        snd (fold_left
               (fun '(i, acc) x =>
                  (S i, bind acc (fun a => transformSingleRule sourceData x a)))
               mappings (i, Normal (finalResult info)))
        = Normal (finalResult info')
        /\ List.length (steps info')
           = List.length (steps info) + List.length mappings
    | Throw e =>
        snd (fold_left
               (fun '(i, acc) x =>
                  (S i, bind acc (fun a => transformSingleRule sourceData x a)))
               mappings (i, Normal (finalResult info)))
        = Throw e
    end.
Proof.
  induction mappings as [|rule mappings IH]; intros info i; simpl.
  - split; [reflexivity | lia].
  - pose proof (debug_round_follows sourceData rule info) as Hround.
    destruct (debug_round sourceData info rule) as [info'|e]; cbn [bind].
    + destruct Hround as [Hstep Hlen]. rewrite Hstep.
      specialize (IH info' (S i)).
      destruct (debug_loop sourceData info' mappings) as [info''|e].
      * destruct IH as [IHrun IHlen]. split; [exact IHrun | lia].
      * exact IH.
    + rewrite Hround. apply reduce_throw.
Qed.

(** X13.  On a rule set whose [pathMappings] is a list, [debugTransform]
    and [transform] agree: when the one returns, the other returns its
    [finalResult], and there is one recorded step per rule; when the one
    throws, the other throws the same error. *)
Theorem debugTransform_agrees_with_transform (sourceData rules : value)
    (mappings : list value) :
  destructure rules "pathMappings" = Normal (VArr mappings) ->
  match debugTransform sourceData rules with
  | Normal info =>
      transform sourceData rules = Normal (finalResult info)
      /\ List.length (steps info) = List.length mappings
  | Throw e => transform sourceData rules = Throw e
  end.
Proof.
  intros Hd. unfold debugTransform, transform. rewrite Hd. cbn [bind iterate].
  unfold Lodash.reduce.
  exact (debug_loop_follows sourceData mappings (mkDebug (VObj []) []) 0).
Qed.

(** *** Composition of transformations *)

Lemma compose_from (fs : list (value -> completion value)) (c : completion value) :
  fold_right (fun fn result => bind result fn) c fs
  = bind c (composeTransformations fs).
Proof.
  unfold composeTransformations.
  induction fs as [|f fs IH]; simpl.
  - destruct c; reflexivity.
  - rewrite IH. destruct c; reflexivity.
Qed.

(** X14.  [composeTransformations] applies its functions from the last
    to the first, [pipe] from the first to the last, a failure ending the
    chain: composing [fs ++ gs] is composing [gs] and then [fs], piping
    [fs ++ gs] is piping [fs] and then [gs], and [pipe] is
    [composeTransformations] on the reversed list.  So two transformers
    composed run the rules of the second on the data and the rules of the
    first on the result. *)
Theorem compose_and_pipe (fs gs : list (value -> completion value))
    (data rules1 rules2 : value) :
  composeTransformations (fs ++ gs) data
  = bind (composeTransformations gs data) (composeTransformations fs)
  /\ Index.pipe (fs ++ gs) data = bind (Index.pipe fs data) (Index.pipe gs)
  /\ Index.pipe fs data = composeTransformations (rev fs) data
  /\ composeTransformations [createTransformer rules1; createTransformer rules2]
       data
     = bind (transform data rules2) (fun result => transform result rules1).
Proof.
  assert (Hpipe : forall l d, Index.pipe l d = composeTransformations (rev l) d).
  { intros l d. unfold Index.pipe, composeTransformations.
    symmetry.
    exact (fold_left_rev_right (fun fn result => bind result fn) l (Normal d)). }
  assert (Hcomp : forall l1 l2 d,
             composeTransformations (l1 ++ l2) d
             = bind (composeTransformations l2 d) (composeTransformations l1)).
  { intros l1 l2 d. unfold composeTransformations at 1.
    rewrite fold_right_app. apply compose_from. }
  split; [apply Hcomp|]. split.
  - rewrite !Hpipe, rev_app_distr, Hcomp.
    destruct (composeTransformations (rev fs) data) as [d|e]; simpl;
      [apply eq_sym, Hpipe | reflexivity].
  - split; [apply Hpipe|].
    unfold composeTransformations, createTransformer. simpl.
    destruct (transform data rules2); reflexivity.
Qed.

(** *** A suffix that names no reducer *)

(** X19.  A source that ends in [.name()] for a name that the table of
    reducers does not have (and that is found nowhere else from the
    table): the suffix is cut off all the same, the matched values of
    the path before it are not reduced, and what is handed on is the
    matched value itself when there is exactly one match and the list of
    the matched values otherwise.  No error is raised for the unknown
    name. *)
Theorem unknown_operation_is_ignored (jsonData : value) (path name : string) :
  is_operation_name name = true ->
  aggregateOps name = None ->
  (forall values, proto_call name values = None) ->
  extractValues jsonData (VStr (path ++ "." ++ name ++ "()"))
  = Normal (single_or_all
              (map value_of (process (parseJsonPath path) jsonData))).
Proof.
  intros Hname Htable Hproto. unfold extractValues.
  rewrite parse_operation_suffix by assumption.
  now rewrite Htable, Hproto.
Qed.

End WithOps.

Lemma debugTransform_agrees_with_transform_sample :
  let mappings :=
    [ Examples.mapping "$.store.book[*].price" "$.store.novel[*].cost";
      Examples.mapping "$.store.book[*].title" "$.store.novel[*].bookTitle" ] in
  destructure (Examples.rules mappings) "pathMappings" = Normal (VArr mappings)
  /\ match debugTransform (ops := Examples.integer_ops) Examples.sampleData
             (Examples.rules mappings) with
     | Normal info =>
         transform (ops := Examples.integer_ops) Examples.sampleData
           (Examples.rules mappings)
         = Normal (finalResult info)
         /\ List.length (steps info) = List.length mappings
     | Throw e =>
         transform (ops := Examples.integer_ops) Examples.sampleData
           (Examples.rules mappings)
         = Throw e
     end.
Proof.
  intros mappings. split; [reflexivity|].
  exact (debugTransform_agrees_with_transform (ops := Examples.integer_ops)
           Examples.sampleData (Examples.rules mappings) mappings eq_refl).
Defined.

Lemma unknown_operation_is_ignored_sample :
  is_operation_name "median" = true
  /\ aggregateOps (ops := Examples.integer_ops) "median" = None
  /\ (forall values, proto_call (JsOps := Examples.integer_ops) "median" values = None)
  /\ extractValues (ops := Examples.integer_ops) Examples.sampleData
       (VStr "$.store.book[*].price.median()")
     = Normal (VArr [Examples.num 1095; Examples.num 1599]).
Proof.
  assert (H1 : is_operation_name "median" = true) by reflexivity.
  assert (H2 : aggregateOps (ops := Examples.integer_ops) "median" = None)
    by reflexivity.
  assert (H3 : forall values,
             proto_call (JsOps := Examples.integer_ops) "median" values = None)
    by reflexivity.
  split; [exact H1|]. split; [exact H2|]. split; [exact H3|].
  exact (unknown_operation_is_ignored (ops := Examples.integer_ops)
           Examples.sampleData "$.store.book[*].price" "median" H1 H2 H3).
Defined.

End TransformerExtras.

(* ================================================================== *)
(** ** Properties of the functional utilities *)
(* ================================================================== *)

Module IndexExtras.
Import JS Index.

Lemma curry_calls_holding (fn : js_function) (groups : list (list value)) :
  forall held,
    List.length (held ++ List.concat groups) < arity fn ->
    curry_calls fn held groups = Holding (held ++ List.concat groups).
Proof.
  induction groups as [|args groups IH]; intros held Hlen; simpl in *.
  - now rewrite app_nil_r.
  - unfold curry_call.
    assert (Hfew : (arity fn <=? List.length (held ++ args))%nat = false).
    { apply Nat.leb_gt. rewrite !length_app in *. lia. }
    rewrite Hfew, IH; rewrite <- ?app_assoc; [reflexivity | assumption].
Qed.

(** X15.  A curried function holds the arguments it is given, call
    after call, as long as they are fewer than the parameters of [fn]; the
    call that brings their number to that of the parameters, or above,
    calls [fn] once with all of them, in the order received. *)
Theorem curry_collects_arguments (fn : js_function)
    (groups : list (list value)) (last : list value) :
  List.length (List.concat groups) < arity fn ->
  arity fn <= List.length (List.concat groups ++ last) ->
  curry_calls fn [] groups = Holding (List.concat groups)
  /\ curry_calls fn [] (groups ++ [last])
     = Called (call fn (List.concat groups ++ last)).
Proof.
  intros Hfew Henough.
  assert (Hhold : forall held gs,
             List.length (held ++ List.concat gs) < arity fn ->
             arity fn <= List.length ((held ++ List.concat gs) ++ last) ->
             curry_calls fn held (gs ++ [last])
             = Called (call fn ((held ++ List.concat gs) ++ last))).
  { intros held gs. revert held.
    induction gs as [|args gs IH]; intros held Hlt Hge; simpl in *.
    - rewrite app_nil_r in *. unfold curry_call.
      apply Nat.leb_le in Hge. now rewrite Hge.
    - unfold curry_call.
      assert (Hlow : (arity fn <=? List.length (held ++ args))%nat = false).
      { apply Nat.leb_gt. rewrite !length_app in *. lia. }
      rewrite Hlow. rewrite IH; rewrite <- ?app_assoc in *;
        [reflexivity | assumption | assumption]. }
  split.
  - now apply (curry_calls_holding fn groups []).
  - now apply (Hhold [] groups).
Qed.

Lemma curry_collects_arguments_sample :
  let fn := mkFunction 3 (fun args => Normal (VArr args)) in
  let a := VNum (Int 1) in
  let b := VNum (Int 2) in
  let c := VNum (Int 3) in
  List.length (List.concat [[a]; [b]]) < arity fn
  /\ arity fn <= List.length (List.concat [[a]; [b]] ++ [c])
  /\ curry_calls fn [] [[a]; [b]] = Holding [a; b]
  /\ curry_calls fn [] ([[a]; [b]] ++ [[c]]) = Called (Normal (VArr [a; b; c])).
Proof.
  intros fn a b c.
  assert (H1 : List.length (List.concat [[a]; [b]]) < arity fn) by (simpl; lia).
  assert (H2 : arity fn <= List.length (List.concat [[a]; [b]] ++ [c]))
    by (simpl; lia).
  split; [exact H1|]. split; [exact H2|].
  exact (curry_collects_arguments fn [[a]; [b]] [c] H1 H2).
Defined.

End IndexExtras.

(* ================================================================== *)
(** ** Properties of the location writer *)
(* ================================================================== *)

Module WriterExtras.
Import JS Automaton Transformer Notions AutomatonProofs.

(** *** Keys *)

Lemma unorm_head (d : Decimal.uint) :
  match Decimal.unorm d with
  | Decimal.Nil => False
  | Decimal.D0 Decimal.Nil => True
  | Decimal.D0 _ => False
  | _ => True
  end.
Proof. induction d; simpl; auto. Qed.

Lemma array_index_decimal (i : nat) : array_index (decimal i) = Some i.
Proof.
  pose proof (TextFacts.decimal_digits i) as Hd.
  pose proof (TextFacts.decimal_value_decimal i) as Hv.
  pose proof (unorm_head (Nat.to_uint i)) as Hh.
  rewrite <- (DecimalNat.Unsigned.to_of (Nat.to_uint i)) in Hh.
  rewrite DecimalNat.Unsigned.of_to in Hh.
  unfold decimal in *.
  destruct (Nat.to_uint i) as [|d|d|d|d|d|d|d|d|d|d]; try contradiction;
    try (cbn [NilEmpty.string_of_uint array_index] in *; rewrite Hd; now f_equal).
  destruct d; try contradiction. simpl in Hv. now subst i.
Qed.

Lemma index_is_not_length (k : string) (i : nat) :
  array_index k = Some i -> String.eqb k "length" = false.
Proof.
  intros H. destruct (String.eqb k "length") eqn:E; [|reflexivity].
  apply String.eqb_eq in E. subst k. discriminate H.
Qed.

Lemma settable_parts (k : string) :
  settable k = true ->
  is_name k = true /\ separator_free k = true /\ Lodash.unsafe_key k = false.
Proof.
  unfold settable. intros H. apply andb_prop in H. destruct H as [Hname Hsafe].
  apply negb_true_iff in Hsafe. split; [assumption|]. split; [|assumption].
  unfold is_name in Hname. now apply andb_prop in Hname.
Qed.

Lemma is_key_parts (k : string) :
  is_key k = true ->
  is_name k = true /\ separator_free k = true /\ Lodash.unsafe_key k = false.
Proof.
  unfold is_key. intros H. apply andb_prop in H. destruct H as [H _].
  apply andb_prop in H. destruct H as [H _]. now apply settable_parts.
Qed.

Lemma key_is_no_index (k : string) :
  is_key k = true -> Lodash.isIndex k = false.
Proof.
  unfold is_key. intros H. apply andb_prop in H. destruct H as [H _].
  apply andb_prop in H. destruct H as [_ H]. now apply negb_true_iff in H.
Qed.

Lemma decimal_settable (i : nat) : settable (decimal i) = true.
Proof.
  pose proof (TextFacts.decimal_digits i) as Hd.
  pose proof (TextFacts.decimal_nonempty i) as Hne.
  unfold settable, is_name.
  rewrite (TextFacts.all_digits_separator_free _ Hd).
  destruct (decimal i) as [|c r]; [congruence|].
  destruct (TextFacts.all_digits_cons _ _ Hd) as [Hc _].
  unfold Lodash.unsafe_key. simpl.
  rewrite (TextFacts.digit_is_no_letter c "_" Hc eq_refl),
    (TextFacts.digit_is_no_letter c "c" Hc eq_refl),
    (TextFacts.digit_is_no_letter c "p" Hc eq_refl).
  reflexivity.
Qed.

(** *** Containers *)

Lemma array_set_empty (i : nat) (v : value) :
  Lodash.array_set i v [] = repeat VUndefined i ++ [v].
Proof. induction i as [|i IH]; simpl; [reflexivity | now rewrite IH]. Qed.

Lemma array_set_last (elems : list value) (old v : value) :
  Lodash.array_set (List.length elems) v (elems ++ [old]) = elems ++ [v].
Proof. induction elems as [|x elems IH]; simpl; [reflexivity | now rewrite IH]. Qed.

Lemma array_set_end (elems : list value) (v : value) :
  Lodash.array_set (List.length elems) v elems = elems ++ [v].
Proof. induction elems as [|x elems IH]; simpl; [reflexivity | now rewrite IH]. Qed.

Lemma holder_is_object (k : string) (child : value) :
  Lodash.isObject (holder k child) = true.
Proof. unfold holder. destruct (array_index k); reflexivity. Qed.

Lemma holder_has (k : string) (child : value) :
  hasOwn (holder k child) k = true /\ getProp (holder k child) k = child.
Proof.
  unfold holder. destruct (array_index k) as [i|] eqn:Hi; simpl.
  - rewrite (index_is_not_length k i Hi), Hi.
    rewrite length_app, repeat_length. simpl. split.
    + apply Nat.ltb_lt. lia.
    + rewrite app_nth2 by (rewrite repeat_length; lia).
      rewrite repeat_length, Nat.sub_diag. reflexivity.
  - now rewrite String.eqb_refl.
Qed.

Lemma object_has (k : string) (child : value) :
  hasOwn (VObj [(k, child)]) k = true /\ getProp (VObj [(k, child)]) k = child.
Proof. simpl. now rewrite String.eqb_refl. Qed.

Lemma assign_empty_for (k : string) (v : value) :
  Lodash.assignValue (empty_for k) k v = holder k v.
Proof.
  unfold empty_for, holder, Lodash.isIndex.
  destruct (array_index k) as [i|] eqn:Hi; simpl.
  - now rewrite Hi, array_set_empty.
  - reflexivity.
Qed.

Lemma assign_holder (k : string) (old v : value) :
  Lodash.assignValue (holder k old) k v = holder k v.
Proof.
  unfold holder. destruct (array_index k) as [i|] eqn:Hi; simpl.
  - rewrite Hi. f_equal.
    rewrite <- (repeat_length VUndefined i) at 1. apply array_set_last.
  - now rewrite String.eqb_refl.
Qed.

Lemma get_empty_for (k : string) : getProp (empty_for k) k = VUndefined.
Proof.
  unfold empty_for, Lodash.isIndex.
  destruct (array_index k) as [i|] eqn:Hi; simpl; [|reflexivity].
  rewrite (index_is_not_length k i Hi), Hi. now destruct i.
Qed.

(** *** What [baseSet] builds *)

Lemma base_set_step (c : value) (k next : string) (rest : list string)
    (v : value) :
  Lodash.unsafe_key k = false ->
  Lodash.baseSet c (k :: next :: rest) v
  = Lodash.assignValue c k
      (Lodash.baseSet
         (if Lodash.isObject (getProp c k) then getProp c k else empty_for next)
         (next :: rest) v).
Proof.
  intros Hk. change (Lodash.baseSet c (k :: next :: rest) v)
    with (if Lodash.unsafe_key k then c
          else Lodash.assignValue c k
                 (Lodash.baseSet
                    (if Lodash.isObject (getProp c k) then getProp c k
                     else empty_for next)
                    (next :: rest) v)).
  now rewrite Hk.
Qed.

(** Where nothing is held under the first key, the containers of the
    remaining keys are made and the value is put under the last one. *)
Lemma base_set_create (rest : list string) (v : value) :
  forall c k,
    safe (k :: rest) ->
    getProp c k = VUndefined ->
    Lodash.baseSet c (k :: rest) v = Lodash.assignValue c k (nest rest v).
Proof.
  induction rest as [|next rest IH]; intros c k Hsafe Hget;
    inversion Hsafe as [|? ? Hk Hrest]; subst.
  - simpl. now rewrite Hk.
  - rewrite base_set_step by assumption. rewrite Hget. cbn [Lodash.isObject].
    rewrite (IH (empty_for next) next Hrest) by apply get_empty_for.
    now rewrite assign_empty_for.
Qed.

(** Where an object or an array is held under the first key, the write
    goes on inside it. *)
Lemma base_set_through (c child : value) (k next : string)
    (rest : list string) (v : value) :
  Lodash.unsafe_key k = false ->
  getProp c k = child ->
  Lodash.isObject child = true ->
  Lodash.baseSet c (k :: next :: rest) v
  = Lodash.assignValue c k (Lodash.baseSet child (next :: rest) v).
Proof.
  intros Hk Hget Hobj. rewrite base_set_step by assumption.
  now rewrite Hget, Hobj.
Qed.

Lemma nest_is_object (ks : list string) (inner : value) :
  ks <> [] -> Lodash.isObject (nest ks inner) = true.
Proof. destruct ks; [congruence|]. intros _. apply holder_is_object. Qed.

(** Writing again along the keys of a nest replaces what it holds. *)
Lemma base_set_overwrite (rest : list string) (old v : value) :
  forall k,
    safe (k :: rest) ->
    Lodash.baseSet (holder k (nest rest old)) (k :: rest) v
    = holder k (nest rest v).
Proof.
  induction rest as [|next rest IH]; intros k Hsafe;
    inversion Hsafe as [|? ? Hk Hrest]; subst.
  - simpl. rewrite Hk. apply assign_holder.
  - rewrite (base_set_through _ (nest (next :: rest) old))
      by (assumption || apply holder_has || now apply nest_is_object).
    cbn [nest fold_right]. fold (nest rest old). rewrite IH by assumption.
    apply assign_holder.
Qed.

(** *** Reading a nest *)

Lemma has_own_key (obj : value) (k : string) :
  hasOwn obj k = true -> Lodash.has obj k = true.
Proof. intros H. unfold Lodash.has, Lodash.castPath. rewrite H. exact H. Qed.

Lemma follow_holder (k : string) (child : value) :
  follow_segment (property k) (holder k child) = Some child.
Proof.
  destruct (holder_has k child) as [Hhas Hget]. unfold follow_segment.
  now rewrite holder_is_object, (has_own_key _ _ Hhas), Hget.
Qed.

Lemma follow_object (k : string) (child : value) :
  follow_segment (property k) (VObj [(k, child)]) = Some child.
Proof.
  destruct (object_has k child) as [Hhas Hget]. unfold follow_segment.
  change (Lodash.isObject (VObj [(k, child)])) with true.
  now rewrite (has_own_key _ _ Hhas), Hget.
Qed.

Lemma follow_nest (ks : list string) (inner : value) :
  follow (map property ks) (nest ks inner) = Some inner.
Proof.
  induction ks as [|k ks IH]; [reflexivity|].
  cbn [map follow nest fold_right]. fold (nest ks inner).
  now rewrite follow_holder.
Qed.

Lemma follow_app (a b : list segment) (v w : value) :
  follow a v = Some w -> follow (a ++ b) v = follow b w.
Proof.
  revert v. induction a as [|seg a IH]; intros v H; simpl in *.
  - now inversion H.
  - destruct (follow_segment seg v); [now apply IH | discriminate].
Qed.

Lemma follow_under (k : string) (ks : list string) (inner : value) :
  follow (map property (k :: ks)) (under k ks inner) = Some inner.
Proof.
  unfold under. cbn [map follow]. rewrite follow_object. apply follow_nest.
Qed.

Lemma location_properties (ks : list string) :
  location (map property ks) = map KProp ks.
Proof. induction ks as [|k ks IH]; simpl; [reflexivity | now rewrite <- IH]. Qed.

Lemma process_of_followed (segs : list segment) (jsonData v : value) :
  follow segs jsonData = Some v ->
  process segs jsonData = [mkMatch v (location segs)].
Proof.
  intros Hf. rewrite process_run_segments. unfold initial_state.
  now rewrite (run_followed_segments segs 0 jsonData [] v Hf).
Qed.

(** *** The key path of a target *)

Lemma separator_free_bracket_free (s : string) :
  separator_free s = true -> bracket_free s = true.
Proof.
  induction s as [|c s IH]; [reflexivity|]. intros H.
  apply ParserExtras.separator_free_chars in H.
  destruct H as (_ & Hopen & Hclose & Hs).
  simpl. rewrite Hopen, Hclose. simpl. now apply IH.
Qed.

Lemma bracket_free_app (a b : string) :
  bracket_free a = true -> bracket_free b = true -> bracket_free (a ++ b) = true.
Proof.
  intros Ha Hb. induction a as [|c a IH]; [assumption|]. simpl in *.
  apply andb_prop in Ha. destruct Ha as [Hc Ha]. rewrite Hc. simpl. now apply IH.
Qed.

Lemma bracket_free_dotted (ks : list string) :
  Forall (fun k => separator_free k = true) ks -> bracket_free (dotted ks) = true.
Proof.
  induction 1 as [|k ks Hk Hks IH]; [reflexivity|].
  cbn [dotted]. change ("." ++ k ++ dotted ks)%string
    with (String "." (k ++ dotted ks)).
  simpl. apply bracket_free_app; [now apply separator_free_bracket_free | exact IH].
Qed.

Lemma dotted_app (a b : list string) :
  dotted (a ++ b) = (dotted a ++ dotted b)%string.
Proof.
  induction a as [|k a IH]; [reflexivity|]. cbn [app dotted]. rewrite IH.
  change ("." ++ k ++ dotted a)%string with (String "." (k ++ dotted a)).
  cbn [String.append]. now rewrite TextFacts.app_assoc_string.
Qed.

Lemma bracket_free_head (c : ascii) (s : string) :
  bracket_free (String c s) = true ->
  Ascii.eqb c "[" = false /\ bracket_free s = true.
Proof.
  simpl. intros H. apply andb_prop in H. destruct H as [H Hs].
  apply andb_prop in H. destruct H as [Hopen _].
  apply negb_true_iff in Hopen. auto.
Qed.

Lemma replace_index_groups_plain (s : string) :
  bracket_free s = true -> replace_index_groups s None = s.
Proof.
  induction s as [|c s IH]; [reflexivity|]. intros H.
  apply bracket_free_head in H. destruct H as [Hopen Hs].
  simpl. rewrite Hopen. now rewrite IH.
Qed.

Lemma replace_key_groups_plain (s : string) :
  bracket_free s = true -> replace_key_groups s None = s.
Proof.
  induction s as [|c s IH]; [reflexivity|]. intros H.
  apply bracket_free_head in H. destruct H as [Hopen Hs].
  simpl. rewrite Hopen. now rewrite IH.
Qed.

(** Digits closed by a bracket, read after an opening bracket. *)
Lemma replace_index_groups_digits (ds : string) :
  forall held rest,
    all_digits ds = true -> (held ++ ds)%string <> EmptyString ->
    replace_index_groups (ds ++ String "]" rest) (Some held)
    = ("." ++ held ++ ds ++ replace_index_groups rest None)%string.
Proof.
  induction ds as [|c ds IH]; intros held rest Hd Hne.
  - rewrite TextFacts.app_nil_string in Hne. simpl.
    destruct held as [|h held]; [congruence|]. reflexivity.
  - destruct (TextFacts.all_digits_cons _ _ Hd) as [Hc Hds].
    cbn [String.append replace_index_groups]. rewrite Hc.
    rewrite IH; [|assumption|].
    + now rewrite !TextFacts.app_assoc_string.
    + rewrite TextFacts.app_assoc_string. destruct held; discriminate.
Qed.

Lemma replace_index_groups_app (a rest : string) :
  bracket_free a = true ->
  replace_index_groups (a ++ rest) None = (a ++ replace_index_groups rest None)%string.
Proof.
  induction a as [|c a IH]; [reflexivity|]. intros H.
  apply bracket_free_head in H. destruct H as [Hopen Ha].
  cbn [String.append replace_index_groups]. rewrite Hopen. now rewrite IH.
Qed.

Lemma split_dot_name (k : string) :
  forall cur rest,
    separator_free k = true ->
    Lodash.split_dot cur (k ++ rest) = Lodash.split_dot (cur ++ k) rest.
Proof.
  induction k as [|c k IH]; intros cur rest Hk.
  - now rewrite TextFacts.app_nil_string.
  - apply ParserExtras.separator_free_chars in Hk.
    destruct Hk as (Hdot & _ & _ & Hk).
    cbn [String.append Lodash.split_dot]. rewrite Hdot, IH by assumption.
    now rewrite TextFacts.app_assoc_string.
Qed.

Lemma split_dot_dotted (ks : list string) :
  Forall (fun k => separator_free k = true) ks ->
  forall cur, Lodash.split_dot cur (dotted ks) = cur :: ks.
Proof.
  induction 1 as [|k ks Hk Hks IH]; intros cur; [reflexivity|].
  cbn [dotted]. change ("." ++ k ++ dotted ks)%string
    with (String "." (k ++ dotted ks)).
  cbn [Lodash.split_dot Ascii.eqb Bool.eqb].
  rewrite split_dot_name by assumption. now rewrite IH.
Qed.

Lemma eqb_proper_prefix (k : string) (c : ascii) (rest : string) :
  String.eqb k (k ++ String c rest) = false.
Proof.
  induction k as [|x k IH]; [reflexivity|]. simpl. now rewrite Ascii.eqb_refl.
Qed.

(** The keys of a target of dot-separated names, for an accumulator
    that is empty or that holds the first name only. *)
Lemma cast_dotted (k : string) (rest : list string) (fields : list (string * value)) :
  Forall (fun k => separator_free k = true) (k :: rest) ->
  fields = [] \/ (exists child, fields = [(k, child)]) ->
  Lodash.castPath (k ++ dotted rest) (VObj fields) = k :: rest.
Proof.
  intros Hks Hfields. inversion Hks as [|? ? Hk Hrest]; subst.
  unfold Lodash.castPath.
  assert (Hsplit : Lodash.split_dot EmptyString (k ++ dotted rest) = k :: rest).
  { rewrite split_dot_name by assumption. now apply split_dot_dotted. }
  destruct Hfields as [->|[child ->]]; [exact Hsplit|].
  destruct rest as [|next rest].
  - simpl. rewrite TextFacts.app_nil_string, String.eqb_refl. reflexivity.
  - cbn [dotted]. change ("." ++ next ++ dotted rest)%string
      with (String "." (next ++ dotted rest)).
    simpl hasOwn. rewrite eqb_proper_prefix.
    cbn [dotted] in Hsplit. exact Hsplit.
Qed.

Lemma keys_separator_free (ks : list string) :
  Forall (fun k => is_key k = true) ks ->
  Forall (fun k => separator_free k = true) ks
  /\ Forall (fun k => is_name k = true) ks
  /\ safe ks.
Proof.
  induction 1 as [|k ks Hk Hks (IH1 & IH2 & IH3)];
    [repeat split; constructor|].
  destruct (is_key_parts k Hk) as (Hname & Hfree & Hsafe).
  repeat split; constructor; assumption.
Qed.

Lemma lodash_path_dotted (k : string) (rest : list string) :
  Forall (fun k => separator_free k = true) (k :: rest) ->
  lodashPath ("$" ++ dotted (k :: rest)) = (k ++ dotted rest)%string.
Proof.
  intros Hks. inversion Hks as [|? ? Hk Hrest]; subst.
  unfold lodashPath. cbn [dotted].
  change ("$" ++ "." ++ k ++ dotted rest)%string
    with (String "$" (String "." (k ++ dotted rest))).
  cbn [strip_root].
  assert (Hfree : bracket_free (k ++ dotted rest) = true).
  { apply bracket_free_app;
      [now apply separator_free_bracket_free | now apply bracket_free_dotted]. }
  now rewrite replace_index_groups_plain, replace_key_groups_plain.
Qed.

(** X16.  Writing a value into the empty object at a target of
    dot-separated keys of plain objects (names that are no array indices
    and that no object inherits), and then matching the same path against
    the result, gives back the value, at the location the names spell
    out: the output is one object inside the other, one for each name,
    with the value under the last name. *)
Theorem write_then_read (k : string) (rest : list string) (v : value) :
  Forall (fun k => is_key k = true) (k :: rest) ->
  let target := ("$" ++ dotted (k :: rest))%string in
  setValueAtPath (VObj []) (VStr target) v = Normal (under k rest v)
  /\ process (parseJsonPath target) (under k rest v)
     = [mkMatch v (map KProp (k :: rest))].
Proof.
  intros Hkeys target.
  destruct (keys_separator_free _ Hkeys) as (Hfree & Hnames & Hsafe).
  split.
  - unfold setValueAtPath, Lodash.cloneDeep, Lodash.set, target.
    cbn [Lodash.isObject].
    rewrite lodash_path_dotted, cast_dotted by (assumption || now left).
    rewrite base_set_create by (assumption || reflexivity). reflexivity.
  - unfold target.
    rewrite ParserExtras.parse_dotted_path by assumption.
    rewrite (process_of_followed _ _ v (follow_under k rest v)).
    now rewrite location_properties.
Qed.

Lemma write_then_read_sample :
  Forall (fun k => is_key k = true) ["store"; "novel"; "cost"]
  /\ setValueAtPath (VObj []) (VStr "$.store.novel.cost") (Examples.num 7)
     = Normal
         (VObj [("store", VObj [("novel", VObj [("cost", Examples.num 7)])])])
  /\ process (parseJsonPath "$.store.novel.cost")
       (under "store" ["novel"; "cost"] (Examples.num 7))
     = [mkMatch (Examples.num 7) [KProp "store"; KProp "novel"; KProp "cost"]].
Proof.
  assert (H : Forall (fun k => is_key k = true) ["store"; "novel"; "cost"])
    by (repeat constructor).
  split; [exact H|].
  exact (write_then_read "store" ["novel"; "cost"] (Examples.num 7) H).
Defined.

(** *** Targets with a wildcard *)

Lemma prefix_wildcard_no (c : ascii) (s : string) :
  Ascii.eqb c "[" = false -> String.prefix "[*]" (String c s) = false.
Proof.
  intros H.
  change (String.prefix "[*]" (String c s))
    with (match Ascii.ascii_dec "[" c with
          | left _ => String.prefix "*]" s
          | right _ => false
          end).
  destruct (Ascii.ascii_dec "[" c) as [E|E]; [|reflexivity].
  subst c. discriminate H.
Qed.

Lemma index_wildcard (a b : string) :
  bracket_free a = true ->
  String.index 0 "[*]" (a ++ "[*]" ++ b) = Some (String.length a).
Proof.
  intros Ha. induction a as [|c a IH].
  - destruct b; reflexivity.
  - apply bracket_free_head in Ha. destruct Ha as [Hopen Ha].
    change (String.index 0 "[*]" (String c a ++ "[*]" ++ b))
      with (if String.prefix "[*]" (String c (a ++ "[*]" ++ b)) then Some 0
            else match String.index 0 "[*]" (a ++ "[*]" ++ b) with
                 | Some n => Some (S n)
                 | None => None
                 end).
    rewrite (prefix_wildcard_no c _ Hopen). now rewrite IH.
Qed.

Lemma substring_prefix (a rest : string) :
  String.substring 0 (String.length a) (a ++ rest) = a.
Proof. induction a as [|c a IH]; simpl; [now destruct rest | now rewrite IH]. Qed.

Lemma substring_whole (b : string) :
  String.substring 0 (String.length b) b = b.
Proof. induction b as [|c b IH]; simpl; [reflexivity | now rewrite IH]. Qed.

Lemma substring_skip (a rest : string) (n m : nat) :
  String.substring (String.length a + n) m (a ++ rest)
  = String.substring n m rest.
Proof. induction a as [|c a IH]; simpl; [reflexivity | exact IH]. Qed.

(** The target of position [i]: the wildcard replaced by [[i]]. *)
Lemma indexed_target_wildcard (a b : string) (i : nat) :
  bracket_free a = true ->
  indexed_target (VStr (a ++ "[*]" ++ b)) i
  = Normal (VStr (a ++ "[" ++ decimal i ++ "]" ++ b)).
Proof.
  intros Ha. unfold indexed_target. rewrite index_wildcard by assumption.
  rewrite substring_prefix.
  rewrite (substring_skip a ("[*]" ++ b) 3).
  rewrite TextFacts.length_app_string.
  replace (String.length a + String.length ("[*]" ++ b) - (String.length a + 3))
    with (String.length b) by (simpl; lia).
  change (String.substring 3 (String.length b) ("[*]" ++ b))
    with (String.substring 0 (String.length b) b).
  now rewrite substring_whole.
Qed.

Lemma before_wildcard_prefix (a b : string) :
  bracket_free a = true ->
  before_wildcard (VStr (a ++ "[*]" ++ b)) = Normal (VStr a).
Proof.
  intros Ha. unfold before_wildcard. rewrite index_wildcard by assumption.
  now rewrite substring_prefix.
Qed.

Lemma root_prefix_bracket_free (ks : list string) :
  Forall (fun k => separator_free k = true) ks ->
  bracket_free ("$" ++ dotted ks) = true.
Proof. intros H. simpl. now apply bracket_free_dotted. Qed.

(** The key path of the target of position [i]. *)
Lemma lodash_path_indexed (k : string) (pre post : list string) (i : nat) :
  Forall (fun k => separator_free k = true) (k :: pre) ->
  Forall (fun k => separator_free k = true) post ->
  lodashPath (("$" ++ dotted (k :: pre)) ++ "[" ++ decimal i ++ "]" ++ dotted post)
  = (k ++ dotted (pre ++ decimal i :: post))%string.
Proof.
  intros Hpre Hpost. inversion Hpre as [|? ? Hk Hpre']; subst.
  unfold lodashPath. cbn [dotted].
  change (("$" ++ "." ++ k ++ dotted pre) ++ "[" ++ decimal i ++ "]" ++ dotted post)%string
    with (String "$" (String "."
            ((k ++ dotted pre) ++ String "[" (decimal i ++ String "]" (dotted post))))).
  cbn [strip_root].
  assert (Hfront : bracket_free (k ++ dotted pre) = true).
  { apply bracket_free_app;
      [now apply separator_free_bracket_free | now apply bracket_free_dotted]. }
  rewrite replace_index_groups_app by assumption.
  cbn [replace_index_groups Ascii.eqb Bool.eqb].
  rewrite replace_index_groups_digits
    by (apply TextFacts.decimal_digits || (simpl; apply TextFacts.decimal_nonempty)).
  rewrite replace_index_groups_plain by (now apply bracket_free_dotted).
  cbn [String.append].
  assert (Hwhole : ((k ++ dotted pre) ++ String "." (decimal i ++ dotted post))%string
                   = (k ++ dotted (pre ++ decimal i :: post))%string).
  { rewrite dotted_app, TextFacts.app_assoc_string. reflexivity. }
  rewrite Hwhole. apply replace_key_groups_plain.
  apply bracket_free_app; [now apply separator_free_bracket_free|].
  apply bracket_free_dotted. apply Forall_app. split; [assumption|].
  constructor; [|assumption].
  apply TextFacts.all_digits_separator_free, TextFacts.decimal_digits.
Qed.

(** *** Writing inside what is there *)

Lemma base_set_nest (ks : list string) (inner : value) (t : string)
    (tail : list string) (v : value) :
  forall k,
    safe (k :: ks) ->
    Lodash.isObject inner = true ->
    Lodash.baseSet (holder k (nest ks inner)) (k :: ks ++ t :: tail) v
    = holder k (nest ks (Lodash.baseSet inner (t :: tail) v)).
Proof.
  induction ks as [|k2 ks IH]; intros k Hsafe Hinner;
    inversion Hsafe as [|? ? Hk Hrest]; subst.
  - cbn [app nest fold_right].
    rewrite (base_set_through _ inner) by (assumption || apply holder_has).
    apply assign_holder.
  - cbn [app].
    rewrite (base_set_through _ (nest (k2 :: ks) inner))
      by (assumption || apply holder_has || now apply nest_is_object).
    cbn [nest fold_right]. fold (nest ks inner).
    rewrite IH by assumption. apply assign_holder.
Qed.

Lemma base_set_under (k : string) (ks : list string) (inner : value)
    (t : string) (tail : list string) (v : value) :
  safe (k :: ks) ->
  Lodash.isObject inner = true ->
  Lodash.baseSet (under k ks inner) (k :: ks ++ t :: tail) v
  = under k ks (Lodash.baseSet inner (t :: tail) v).
Proof.
  intros Hsafe Hinner. inversion Hsafe as [|? ? Hk Hrest]; subst.
  unfold under. destruct ks as [|k2 ks].
  - cbn [app nest fold_right].
    rewrite (base_set_through _ inner) by (assumption || apply object_has).
    simpl. now rewrite String.eqb_refl.
  - cbn [app].
    rewrite (base_set_through _ (nest (k2 :: ks) inner))
      by (assumption || apply object_has || now apply nest_is_object).
    cbn [nest fold_right]. fold (nest ks inner).
    rewrite base_set_nest by assumption.
    simpl. now rewrite String.eqb_refl.
Qed.

Lemma nest_app (a b : list string) (inner : value) :
  nest (a ++ b) inner = nest a (nest b inner).
Proof. unfold nest. now rewrite fold_right_app. Qed.

(** The element of position [length elems] is added at the end. *)
Lemma base_set_append (elems : list value) (post : list string) (v : value) :
  safe post ->
  Lodash.baseSet (VArr elems) (decimal (List.length elems) :: post) v
  = VArr (elems ++ [nest post v]).
Proof.
  intros Hpost.
  pose proof (array_index_decimal (List.length elems)) as Hi.
  destruct (settable_parts _ (decimal_settable (List.length elems)))
    as (_ & _ & Hsafe).
  rewrite base_set_create.
  - simpl. now rewrite Hi, array_set_end.
  - now constructor.
  - simpl. rewrite (index_is_not_length _ _ Hi), Hi.
    now apply nth_overflow.
Qed.

(** *** The expansion of a wildcard target *)

Lemma holder_decimal (i : nat) (child : value) :
  holder (decimal i) child = VArr (repeat VUndefined i ++ [child]).
Proof. unfold holder. now rewrite array_index_decimal. Qed.

Lemma decimal_separator_free (i : nat) : separator_free (decimal i) = true.
Proof. apply TextFacts.all_digits_separator_free, TextFacts.decimal_digits. Qed.

Lemma decimal_safe (i : nat) : Lodash.unsafe_key (decimal i) = false.
Proof. now destruct (settable_parts _ (decimal_settable i)) as (_ & _ & H). Qed.

Lemma indexed_keys_separator_free (k : string) (pre post : list string) (i : nat) :
  Forall (fun k => separator_free k = true) (k :: pre) ->
  Forall (fun k => separator_free k = true) post ->
  Forall (fun k => separator_free k = true) (k :: pre ++ decimal i :: post).
Proof.
  intros Hpre Hpost. inversion Hpre as [|? ? Hk Hpre']; subst.
  constructor; [assumption|]. apply Forall_app. split; [assumption|].
  constructor; [apply decimal_separator_free | assumption].
Qed.

(** The write of the first item, into the empty object. *)
Lemma write_first_item (k : string) (pre post : list string) (v : value) :
  Forall (fun k => is_key k = true) (k :: pre) ->
  Forall (fun k => is_key k = true) post ->
  setValueAtPath (VObj [])
    (VStr (("$" ++ dotted (k :: pre)) ++ "[" ++ decimal 0 ++ "]" ++ dotted post)) v
  = Normal (under k pre (VArr [nest post v])).
Proof.
  intros Hpre Hpost.
  destruct (keys_separator_free _ Hpre) as (Hfree1 & _ & Hsafe1).
  destruct (keys_separator_free _ Hpost) as (Hfree2 & _ & Hsafe2).
  unfold setValueAtPath, Lodash.cloneDeep, Lodash.set. cbn [Lodash.isObject].
  rewrite lodash_path_indexed by assumption.
  rewrite cast_dotted
    by (now apply indexed_keys_separator_free || now left).
  rewrite base_set_create.
  - unfold under. simpl Lodash.assignValue.
    rewrite nest_app. cbn [nest fold_right]. fold (nest post v).
    now rewrite holder_decimal.
  - inversion Hsafe1 as [|? ? Hk Hpre']; subst. constructor; [assumption|].
    apply Forall_app. split; [assumption|].
    constructor; [apply decimal_safe | assumption].
  - reflexivity.
Qed.

(** The write of a further item, next to the items written before. *)
Lemma write_next_item (k : string) (pre post : list string)
    (elems : list value) (v : value) :
  Forall (fun k => is_key k = true) (k :: pre) ->
  Forall (fun k => is_key k = true) post ->
  setValueAtPath (under k pre (VArr elems))
    (VStr (("$" ++ dotted (k :: pre)) ++ "[" ++ decimal (List.length elems) ++ "]"
           ++ dotted post)) v
  = Normal (under k pre (VArr (elems ++ [nest post v]))).
Proof.
  intros Hpre Hpost.
  destruct (keys_separator_free _ Hpre) as (Hfree1 & _ & Hsafe1).
  destruct (keys_separator_free _ Hpost) as (Hfree2 & _ & Hsafe2).
  unfold setValueAtPath, Lodash.cloneDeep, Lodash.set.
  change (Lodash.isObject (under k pre (VArr elems))) with true. cbv iota.
  rewrite lodash_path_indexed by assumption.
  assert (Hcast : Lodash.castPath
                    (k ++ dotted (pre ++ decimal (List.length elems) :: post))
                    (under k pre (VArr elems))
                  = k :: pre ++ decimal (List.length elems) :: post).
  { apply cast_dotted; [now apply indexed_keys_separator_free|].
    right. eexists. reflexivity. }
  rewrite Hcast.
  rewrite base_set_under by (assumption || reflexivity).
  now rewrite base_set_append.
Qed.

(** A reduction whose every step adds one element to a list that the
    accumulator wraps. *)
Lemma reduce_grows (f : value -> value -> nat -> completion value)
    (wrap : list value -> value) (g : value -> value) :
  (forall elems x,
     f (wrap elems) x (List.length elems) = Normal (wrap (elems ++ [g x]))) ->
  forall items elems,
    fold_left (fun '(i, acc) x => (S i, bind acc (fun a => f a x i)))
      items (List.length elems, Normal (wrap elems))
    = (List.length elems + List.length items,
       Normal (wrap (elems ++ map g items))).
Proof.
  intros Hstep. induction items as [|x items IH]; intros elems.
  - simpl. now rewrite Nat.add_0_r, app_nil_r.
  - cbn [fold_left bind map List.length]. rewrite Hstep.
    replace (S (List.length elems)) with (List.length (elems ++ [g x]))
      by (rewrite length_app; simpl; lia).
    rewrite IH, <- app_assoc. simpl. f_equal.
    rewrite length_app. simpl. lia.
Qed.

Lemma follow_nests (post : list string) (items : list value) :
  Forall2 (fun e v => follow (map property post) e = Some v)
    (map (nest post) items) items.
Proof.
  induction items as [|x items IH]; simpl; constructor;
    [apply follow_nest | exact IH].
Qed.

(** The items written at a target of names with one wildcard group. *)
Lemma expand_writes (k : string) (pre post : list string) (items : list value) :
  Forall (fun k => is_key k = true) (k :: pre) ->
  Forall (fun k => is_key k = true) post ->
  write_extracted (VObj [])
    (VStr ("$" ++ dotted (k :: pre) ++ "[*]" ++ dotted post)) (VArr items)
  = Normal (under k pre (VArr (map (nest post) items))).
Proof.
  intros Hpre Hpost.
  destruct (keys_separator_free _ Hpre) as (Hfree1 & Hnames1 & Hsafe1).
  destruct (keys_separator_free _ Hpost) as (Hfree2 & Hnames2 & Hsafe2).
  assert (Hroot : bracket_free ("$" ++ dotted (k :: pre)) = true)
    by now apply root_prefix_bracket_free.
  unfold write_extracted, includes_wildcard.
  change ("$" ++ dotted (k :: pre) ++ "[*]" ++ dotted post)%string
    with (("$" ++ dotted (k :: pre)) ++ "[*]" ++ dotted post)%string.
  rewrite index_wildcard by assumption. cbn [bind].
  destruct items as [|x items].
  - rewrite before_wildcard_prefix by assumption. cbn [bind map].
    unfold setValueAtPath, Lodash.cloneDeep, Lodash.set.
    cbn [Lodash.isObject].
    rewrite lodash_path_dotted, cast_dotted by (assumption || now left).
    rewrite base_set_create by (assumption || reflexivity). reflexivity.
  - unfold Lodash.reduce. cbn [fold_left bind].
    rewrite indexed_target_wildcard by assumption. cbn [bind].
    rewrite write_first_item by assumption.
    change 1 with (List.length [nest post x]).
    rewrite (reduce_grows
               (fun acc item i =>
                  bind (indexed_target
                          (VStr (("$" ++ dotted (k :: pre)) ++ "[*]" ++ dotted post)) i)
                    (fun indexedTarget => setValueAtPath acc indexedTarget item))
               (fun elems => under k pre (VArr elems)) (nest post)).
    + reflexivity.
    + intros elems y. rewrite indexed_target_wildcard by assumption.
      cbn [bind]. now apply write_next_item.
Qed.

(** The items read back by the same path. *)
Lemma expand_reads (k : string) (pre post : list string) (items : list value) :
  Forall (fun k => is_key k = true) (k :: pre) ->
  Forall (fun k => is_key k = true) post ->
  process (parseJsonPath ("$" ++ dotted (k :: pre) ++ "[*]" ++ dotted post))
    (under k pre (VArr (map (nest post) items)))
  = mapi (fun v i =>
            mkMatch v (map KProp (k :: pre) ++ position i :: map KProp post))
      items.
Proof.
  intros Hpre Hpost.
  destruct (keys_separator_free _ Hpre) as (Hfree1 & Hnames1 & Hsafe1).
  destruct (keys_separator_free _ Hpost) as (Hfree2 & Hnames2 & Hsafe2).
  assert (Hparse : parseJsonPath ("$" ++ dotted (k :: pre) ++ "[*]" ++ dotted post)
                   = map property (k :: pre) ++ wildcard :: map property post).
  { exact (ParserExtras.parse_names_group_names (k :: pre) post "*" wildcard
             Hnames1 Hnames2
             (fun segments rest => ParserExtras.parse_wildcard_group segments rest)). }
  rewrite Hparse, process_run_segments, run_segments_app.
  unfold initial_state.
  rewrite (run_followed_segments (map property (k :: pre)) 0 _ [] _
             (follow_under k pre (VArr (map (nest post) items)))).
  rewrite (run_wildcard_then_follow (map property post) _
             (map (nest post) items) items _ (follow_nests post items)).
  unfold mapi. rewrite map_mapi_from. apply mapi_from_ext.
  intros v i. unfold to_match. cbn [currentValue currentPath app].
  rewrite !location_properties, <- app_assoc. reflexivity.
Qed.

(** X17.  A list of items (of a length that an array can have) written
    into the empty object at a target that is dot-separated keys of plain
    objects with one wildcard group: the output holds, under the names
    before the wildcard, an array with one element for each item, in the
    order of the list and without holes, and each element holds its item
    under the names after the wildcard.  The empty list gives the empty
    array.  Matching the target path against the output gives back the
    items, in order, the item of position [i] at the location of the
    names with the index [i] in the place of the wildcard. *)
Theorem wildcard_target_round_trip (k : string) (pre post : list string)
    (items : list value) :
  Forall (fun k => is_key k = true) (k :: pre) ->
  Forall (fun k => is_key k = true) post ->
  (Z.of_nat (List.length items) < 2 ^ 32)%Z ->
  let target := ("$" ++ dotted (k :: pre) ++ "[*]" ++ dotted post)%string in
  let output := under k pre (VArr (map (nest post) items)) in
  write_extracted (VObj []) (VStr target) (VArr items) = Normal output
  /\ process (parseJsonPath target) output
     = mapi (fun v i =>
               mkMatch v (map KProp (k :: pre) ++ position i :: map KProp post))
         items.
Proof.
  intros Hpre Hpost _ target output. split.
  - now apply expand_writes.
  - now apply expand_reads.
Qed.

Lemma wildcard_target_round_trip_sample :
  Forall (fun k => is_key k = true) ["shop"; "titles"]
  /\ Forall (fun k => is_key k = true) ["name"]
  /\ (Z.of_nat (List.length [VStr "a"; VStr "b"; VStr "c"]) < 2 ^ 32)%Z
  /\ write_extracted (VObj []) (VStr "$.shop.titles[*].name")
       (VArr [VStr "a"; VStr "b"; VStr "c"])
     = Normal
         (VObj [("shop",
                 VObj [("titles",
                        VArr [VObj [("name", VStr "a")];
                              VObj [("name", VStr "b")];
                              VObj [("name", VStr "c")]])])])
  /\ process (parseJsonPath "$.shop.titles[*].name")
       (under "shop" ["titles"] (VArr (map (nest ["name"]) [VStr "a"; VStr "b"; VStr "c"])))
     = [mkMatch (VStr "a") [KProp "shop"; KProp "titles"; position 0; KProp "name"];
        mkMatch (VStr "b") [KProp "shop"; KProp "titles"; position 1; KProp "name"];
        mkMatch (VStr "c") [KProp "shop"; KProp "titles"; position 2; KProp "name"]].
Proof.
  assert (H1 : Forall (fun k => is_key k = true) ["shop"; "titles"])
    by (repeat constructor).
  assert (H2 : Forall (fun k => is_key k = true) ["name"])
    by (repeat constructor).
  assert (H3 : (Z.of_nat (List.length [VStr "a"; VStr "b"; VStr "c"]) < 2 ^ 32)%Z)
    by (vm_compute; reflexivity).
  split; [exact H1|]. split; [exact H2|]. split; [exact H3|].
  exact (wildcard_target_round_trip "shop" ["titles"] ["name"]
           [VStr "a"; VStr "b"; VStr "c"] H1 H2 H3).
Defined.

(** *** Two targets that part at one key *)

Lemma separator_free_no_dot (a b : string) :
  separator_free (a ++ String "." b) = false.
Proof.
  induction a as [|c a IH]; [reflexivity|].
  simpl. rewrite IH. now rewrite andb_false_r.
Qed.

(** The keys of a dotted target, for an accumulator that holds another
    name only. *)
Lemma cast_dotted_other (k1 k : string) (rest : list string) (child : value) :
  Forall (fun k => separator_free k = true) (k :: rest) ->
  separator_free k1 = true ->
  k1 <> k ->
  Lodash.castPath (k ++ dotted rest) (VObj [(k1, child)]) = k :: rest.
Proof.
  intros Hks Hk1 Hne. inversion Hks as [|? ? Hk Hrest]; subst.
  unfold Lodash.castPath.
  assert (Hsplit : Lodash.split_dot EmptyString (k ++ dotted rest) = k :: rest).
  { rewrite split_dot_name by assumption. now apply split_dot_dotted. }
  assert (Hown : hasOwn (VObj [(k1, child)]) (k ++ dotted rest) = false).
  { simpl. destruct (String.eqb_spec k1 (k ++ dotted rest)) as [E|E];
      [|reflexivity].
    exfalso. destruct rest as [|next rest].
    - simpl in E. rewrite TextFacts.app_nil_string in E. contradiction.
    - cbn [dotted] in E.
      change ("." ++ next ++ dotted rest)%string
        with (String "." (next ++ dotted rest)) in E.
      rewrite E, separator_free_no_dot in Hk1. discriminate. }
  now rewrite Hown.
Qed.

Lemma base_set_sibling (k1 k2 : string) (rest : list string) (child v : value) :
  k1 <> k2 ->
  safe (k2 :: rest) ->
  Lodash.baseSet (VObj [(k1, child)]) (k2 :: rest) v
  = VObj [(k1, child); (k2, nest rest v)].
Proof.
  intros Hne Hsafe.
  assert (Heq : String.eqb k1 k2 = false) by now apply String.eqb_neq.
  rewrite base_set_create; [|assumption|].
  - simpl. now rewrite Heq.
  - simpl. now rewrite Heq.
Qed.

Lemma holder_of_name (k : string) (child : value) :
  Lodash.isIndex k = false -> holder k child = VObj [(k, child)].
Proof.
  unfold Lodash.isIndex, holder. now destruct (array_index k).
Qed.

Lemma write_into_empty (k : string) (rest : list string) (v : value) :
  Forall (fun k => is_key k = true) (k :: rest) ->
  setValueAtPath (VObj []) (VStr ("$" ++ dotted (k :: rest))) v
  = Normal (under k rest v).
Proof.
  intros Hkeys.
  destruct (keys_separator_free _ Hkeys) as (Hfree & Hnames & Hsafe).
  unfold setValueAtPath, Lodash.cloneDeep, Lodash.set. cbn [Lodash.isObject].
  rewrite lodash_path_dotted, cast_dotted by (assumption || now left).
  rewrite base_set_create by (assumption || reflexivity). reflexivity.
Qed.

Lemma follow_rooted (ks : list string) (inner : value) :
  follow (map property ks) (rooted ks inner) = Some inner.
Proof. destruct ks as [|k ks]; [reflexivity | apply follow_under]. Qed.

Lemma follow_field (k : string) (fields : list (string * value)) (child : value) :
  assoc k fields = Some child ->
  follow_segment (property k) (VObj fields) = Some child.
Proof.
  intros H. unfold follow_segment.
  change (Lodash.isObject (VObj fields)) with true.
  assert (Hown : hasOwn (VObj fields) k = true) by (simpl; now rewrite H).
  rewrite (has_own_key _ _ Hown). simpl. now rewrite H.
Qed.

(** Reading, at keys that go through [ks], what an object found there
    holds under a further name. *)
Lemma process_rooted_field (ks rest : list string) (k : string)
    (fields : list (string * value)) (v : value) :
  Forall (fun k => is_name k = true) (ks ++ k :: rest) ->
  assoc k fields = Some (nest rest v) ->
  process (parseJsonPath ("$" ++ dotted (ks ++ k :: rest)))
    (rooted ks (VObj fields))
  = [mkMatch v (map KProp (ks ++ k :: rest))].
Proof.
  intros Hnames Hfield.
  rewrite ParserExtras.parse_dotted_path by assumption.
  rewrite (process_of_followed _ _ v).
  - now rewrite location_properties.
  - rewrite map_app, (follow_app _ _ _ _ (follow_rooted ks (VObj fields))).
    cbn [map follow]. rewrite (follow_field _ _ _ Hfield). apply follow_nest.
Qed.

(** X18.  Two values written one after the other into the empty object,
    at two targets of dot-separated names that go the same way down to a
    key where they part (all of them keys of plain objects): the output
    holds both values, each at the location its own target spells out;
    where the targets part there is one object with the two names, the
    first written first.  Matching either target path against the output
    gives back the value written at it. *)
Theorem sibling_targets_are_merged (common r1 r2 : list string)
    (k1 k2 : string) (v1 v2 : value) :
  Forall (fun k => is_key k = true) (common ++ k1 :: r1) ->
  Forall (fun k => is_key k = true) (common ++ k2 :: r2) ->
  k1 <> k2 ->
  let t1 := ("$" ++ dotted (common ++ k1 :: r1))%string in
  let t2 := ("$" ++ dotted (common ++ k2 :: r2))%string in
  let output := rooted common (VObj [(k1, nest r1 v1); (k2, nest r2 v2)]) in
  bind (setValueAtPath (VObj []) (VStr t1) v1)
    (fun acc => setValueAtPath acc (VStr t2) v2)
  = Normal output
  /\ process (parseJsonPath t1) output
     = [mkMatch v1 (map KProp (common ++ k1 :: r1))]
  /\ process (parseJsonPath t2) output
     = [mkMatch v2 (map KProp (common ++ k2 :: r2))].
Proof.
  intros Hkeys1 Hkeys2 Hne t1 t2 output.
  assert (Hname : Lodash.isIndex k1 = false).
  { apply key_is_no_index.
    apply Forall_app in Hkeys1. destruct Hkeys1 as [_ Hkeys1].
    now inversion Hkeys1. }
  destruct (keys_separator_free _ Hkeys1) as (Hfree1 & Hnames1 & Hsafe1).
  destruct (keys_separator_free _ Hkeys2) as (Hfree2 & Hnames2 & Hsafe2).
  assert (Heq : String.eqb k1 k2 = false) by now apply String.eqb_neq.
  split; [|split].
  - unfold t1, t2, output. destruct common as [|k0 common].
    + cbn [app] in *. rewrite write_into_empty by assumption. cbn [bind].
      unfold setValueAtPath, Lodash.cloneDeep, Lodash.set, under.
      cbn [Lodash.isObject]. rewrite lodash_path_dotted by assumption.
      inversion Hfree1 as [|? ? Hk1 _]; subst.
      rewrite cast_dotted_other by assumption.
      now rewrite base_set_sibling.
    + cbn [app] in *. rewrite write_into_empty by assumption. cbn [bind].
      unfold setValueAtPath, Lodash.cloneDeep, Lodash.set.
      change (Lodash.isObject (under k0 (common ++ k1 :: r1) v1)) with true.
      cbv iota. rewrite lodash_path_dotted by assumption.
      assert (Hcast : Lodash.castPath (k0 ++ dotted (common ++ k2 :: r2))
                        (under k0 (common ++ k1 :: r1) v1)
                      = k0 :: common ++ k2 :: r2).
      { apply cast_dotted; [assumption|]. right. eexists. reflexivity. }
      rewrite Hcast.
      assert (Hacc : under k0 (common ++ k1 :: r1) v1
                     = under k0 common (VObj [(k1, nest r1 v1)])).
      { unfold under. rewrite nest_app. cbn [nest fold_right].
        fold (nest r1 v1). now rewrite holder_of_name. }
      rewrite Hacc.
      inversion Hsafe2 as [|? ? Hk0 Hrest]; subst.
      apply Forall_app in Hrest. destruct Hrest as [Hcommon Htail].
      rewrite base_set_under by (reflexivity || now constructor).
      now rewrite base_set_sibling.
  - unfold t1, output. apply process_rooted_field; [assumption|].
    simpl. now rewrite String.eqb_refl.
  - unfold t2, output. apply process_rooted_field; [assumption|].
    simpl. now rewrite Heq, String.eqb_refl.
Qed.

Lemma sibling_targets_are_merged_sample :
  Forall (fun k => is_key k = true) (["shop"] ++ "name" :: [])
  /\ Forall (fun k => is_key k = true) (["shop"] ++ "stock" :: ["first"; "title"])
  /\ "name" <> "stock"
  /\ bind (setValueAtPath (VObj []) (VStr "$.shop.name") (VStr "books"))
       (fun acc => setValueAtPath acc (VStr "$.shop.stock.first.title") (VStr "one"))
     = Normal
         (VObj [("shop",
                 VObj [("name", VStr "books");
                       ("stock", VObj [("first", VObj [("title", VStr "one")])])])]).
Proof.
  assert (H1 : Forall (fun k => is_key k = true) (["shop"] ++ "name" :: []))
    by (repeat constructor).
  assert (H2 : Forall (fun k => is_key k = true)
                 (["shop"] ++ "stock" :: ["first"; "title"]))
    by (repeat constructor).
  assert (H3 : "name" <> "stock") by discriminate.
  split; [exact H1|]. split; [exact H2|]. split; [exact H3|].
  exact (proj1 (sibling_targets_are_merged ["shop"] [] ["first"; "title"]
                  "name" "stock" (VStr "books") (VStr "one") H1 H2 H3)).
Defined.

(** *** Two writes at one target *)

Lemma base_set_replace (k : string) (rest : list string) (old v : value) :
  safe (k :: rest) ->
  Lodash.baseSet (under k rest old) (k :: rest) v = under k rest v.
Proof.
  intros Hsafe. inversion Hsafe as [|? ? Hk Hrest]; subst.
  unfold under. destruct rest as [|next rest].
  - simpl. now rewrite Hk, String.eqb_refl.
  - rewrite (base_set_through _ (nest (next :: rest) old))
      by (assumption || apply object_has || now apply nest_is_object).
    cbn [nest fold_right]. fold (nest rest old). fold (nest rest v).
    rewrite base_set_overwrite by assumption.
    simpl. now rewrite String.eqb_refl.
Qed.

(** X24.  Two values written one after the other into the empty object
    at the same target of dot-separated keys of plain objects: the
    output is the one
    that the second value alone would give; nothing of the first value
    is left. *)
Theorem later_write_replaces_earlier (k : string) (rest : list string)
    (v1 v2 : value) :
  Forall (fun k => is_key k = true) (k :: rest) ->
  let target := VStr ("$" ++ dotted (k :: rest)) in
  bind (setValueAtPath (VObj []) target v1)
    (fun acc => setValueAtPath acc target v2)
  = setValueAtPath (VObj []) target v2
  /\ setValueAtPath (VObj []) target v2 = Normal (under k rest v2).
Proof.
  intros Hkeys target.
  destruct (keys_separator_free _ Hkeys) as (Hfree & Hnames & Hsafe).
  unfold target. rewrite !write_into_empty by assumption.
  split; [|reflexivity]. cbn [bind].
  unfold setValueAtPath, Lodash.cloneDeep, Lodash.set.
  change (Lodash.isObject (under k rest v1)) with true. cbv iota.
  rewrite lodash_path_dotted by assumption.
  assert (Hcast : Lodash.castPath (k ++ dotted rest) (under k rest v1)
                  = k :: rest).
  { apply cast_dotted; [assumption|]. right. eexists. reflexivity. }
  rewrite Hcast. now rewrite base_set_replace.
Qed.

Lemma later_write_replaces_earlier_sample :
  Forall (fun k => is_key k = true) ["shop"; "name"]
  /\ bind (setValueAtPath (VObj []) (VStr "$.shop.name")
             (VObj [("first", VStr "books")]))
       (fun acc => setValueAtPath acc (VStr "$.shop.name") (VStr "maps"))
     = Normal (VObj [("shop", VObj [("name", VStr "maps")])]).
Proof.
  assert (H : Forall (fun k => is_key k = true) ["shop"; "name"])
    by (repeat constructor).
  split; [exact H|].
  exact (eq_trans
           (proj1 (later_write_replaces_earlier "shop" ["name"]
                     (VObj [("first", VStr "books")]) (VStr "maps") H))
           (proj2 (later_write_replaces_earlier "shop" ["name"]
                     (VObj [("first", VStr "books")]) (VStr "maps") H))).
Defined.

(** *** A rule that copies a list to where it is *)

Lemma values_of_located_items (f : nat -> list key) (items : list value) :
  forall n,
    map value_of (mapi_from n (fun v i => mkMatch v (f i)) items) = items.
Proof.
  induction items as [|x items IH]; intros n; simpl; [reflexivity|].
  now rewrite IH.
Qed.

Lemma no_suffix_keeps_path (text : string) :
  snd (parsePathWithOperation text) = None ->
  parsePathWithOperation text = (text, None).
Proof.
  unfold parsePathWithOperation.
  destruct (operation_suffix text) as [[cleanPath operation]|];
    [discriminate | reflexivity].
Qed.

Section WithOps.
Context {ops : JsOps}.

(** X21.  A document that holds, under some names (keys of plain
    objects), an array whose elements each hold a value under further
    such names, and a rule set of one rule whose source and target are
    both the path of these names with a wildcard for the array: when the
    number of elements is not one, the output of [transform] is the
    document itself.  (With one element the value is written under the
    key ["*"] instead.) *)
Theorem copy_rule_reproduces_list (k : string) (pre post : list string)
    (items : list value) :
  Forall (fun k => is_key k = true) (k :: pre) ->
  Forall (fun k => is_key k = true) post ->
  List.length items <> 1 ->
  (Z.of_nat (List.length items) < 2 ^ 32)%Z ->
  let path := ("$" ++ dotted (k :: pre) ++ "[*]" ++ dotted post)%string in
  snd (parsePathWithOperation path) = None ->
  let document := under k pre (VArr (map (nest post) items)) in
  transform document (Examples.rules [Examples.mapping path path])
  = Normal document.
Proof.
  intros Hpre Hpost Hlen _ path Hop document.
  assert (Hextract : extractValues document (VStr path) = Normal (VArr items)).
  { unfold extractValues. rewrite (no_suffix_keeps_path _ Hop).
    unfold path, document. rewrite expand_reads by assumption.
    unfold mapi.
    rewrite (values_of_located_items
               (fun i => map KProp (k :: pre) ++ position i :: map KProp post)).
    destruct items as [|x [|y items]]; try reflexivity.
    simpl in Hlen. congruence. }
  change (transform document (Examples.rules [Examples.mapping path path]))
    with (bind (extractValues document (VStr path))
            (fun extractedValue =>
               write_extracted (VObj []) (VStr path) extractedValue)).
  rewrite Hextract. cbn [bind]. now apply expand_writes.
Qed.

(** *** One rule, from the source to the target *)

Lemma index_wildcard_none (text : string) :
  bracket_free text = true -> String.index 0 "[*]" text = None.
Proof.
  induction text as [|c text IH]; intros Hfree; [reflexivity|].
  apply bracket_free_head in Hfree. destruct Hfree as [Hopen Hfree].
  change (String.index 0 "[*]" (String c text))
    with (if String.prefix "[*]" (String c text) then Some 0
          else match String.index 0 "[*]" text with
               | Some n => Some (S n)
               | None => None
               end).
  rewrite (prefix_wildcard_no c _ Hopen). now rewrite IH.
Qed.

(** At a target without wildcard the value is written as it is, a list
    as well. *)
Lemma write_at_plain_target (accumulator v : value) (target : string) :
  bracket_free target = true ->
  write_extracted accumulator (VStr target) v
  = setValueAtPath accumulator (VStr target) v.
Proof.
  intros Hfree. unfold write_extracted, includes_wildcard.
  rewrite index_wildcard_none by assumption.
  now destruct v.
Qed.

Lemma transform_one_rule (document : value) (source target : string) :
  transform document (Examples.rules [Examples.mapping source target])
  = bind (extractValues document (VStr source))
      (fun extractedValue =>
         write_extracted (VObj []) (VStr target) extractedValue).
Proof. reflexivity. Qed.

(** X22.  A rule set of one rule whose source, without aggregate suffix,
    can be followed in the document to one value, and whose target is
    dot-separated keys of plain objects: the output of [transform] is the object that
    holds this value, and nothing else, at the location the target
    spells out.  The value is written as it is, also when it is an
    array. *)
Theorem single_match_rule_moves_value (document v : value) (source : string)
    (k : string) (rest : list string) :
  snd (parsePathWithOperation source) = None ->
  follow (parseJsonPath source) document = Some v ->
  Forall (fun k => is_key k = true) (k :: rest) ->
  transform document
    (Examples.rules [Examples.mapping source ("$" ++ dotted (k :: rest))])
  = Normal (under k rest v).
Proof.
  intros Hop Hfollow Hkeys.
  destruct (keys_separator_free _ Hkeys) as (Hfree & _ & _).
  rewrite transform_one_rule. unfold extractValues.
  rewrite (no_suffix_keeps_path _ Hop).
  rewrite (process_of_followed _ _ v Hfollow). cbn [map value_of single_or_all bind].
  rewrite write_at_plain_target by now apply root_prefix_bracket_free.
  now apply write_into_empty.
Qed.


End WithOps.

Lemma copy_rule_reproduces_list_sample :
  let items := [VStr "a"; VStr "b"] in
  Forall (fun k => is_key k = true) ["shop"; "titles"]
  /\ Forall (fun k => is_key k = true) ["name"]
  /\ List.length items <> 1
  /\ (Z.of_nat (List.length items) < 2 ^ 32)%Z
  /\ snd (parsePathWithOperation "$.shop.titles[*].name") = None
  /\ transform (ops := Examples.integer_ops)
       (under "shop" ["titles"] (VArr (map (nest ["name"]) items)))
       (Examples.rules
          [Examples.mapping "$.shop.titles[*].name" "$.shop.titles[*].name"])
     = Normal (under "shop" ["titles"] (VArr (map (nest ["name"]) items))).
Proof.
  intros items.
  assert (H1 : Forall (fun k => is_key k = true) ["shop"; "titles"])
    by (repeat constructor).
  assert (H2 : Forall (fun k => is_key k = true) ["name"])
    by (repeat constructor).
  assert (H3 : List.length items <> 1) by (simpl; lia).
  assert (H4 : snd (parsePathWithOperation "$.shop.titles[*].name") = None)
    by reflexivity.
  assert (H5 : (Z.of_nat (List.length items) < 2 ^ 32)%Z)
    by (vm_compute; reflexivity).
  split; [exact H1|]. split; [exact H2|]. split; [exact H3|]. split; [exact H5|].
  split; [exact H4|].
  exact (copy_rule_reproduces_list (ops := Examples.integer_ops)
           "shop" ["titles"] ["name"] items H1 H2 H3 H5 H4).
Defined.

Lemma single_match_rule_moves_value_sample :
  snd (parsePathWithOperation "$.store.book[1].title") = None
  /\ follow (parseJsonPath "$.store.book[1].title") Examples.sampleData
     = Some (VStr "Book 2")
  /\ Forall (fun k => is_key k = true) ["second"; "name"]
  /\ transform (ops := Examples.integer_ops) Examples.sampleData
       (Examples.rules [Examples.mapping "$.store.book[1].title" "$.second.name"])
     = Normal (VObj [("second", VObj [("name", VStr "Book 2")])]).
Proof.
  assert (H1 : snd (parsePathWithOperation "$.store.book[1].title") = None)
    by reflexivity.
  assert (H2 : follow (parseJsonPath "$.store.book[1].title") Examples.sampleData
               = Some (VStr "Book 2")) by reflexivity.
  assert (H3 : Forall (fun k => is_key k = true) ["second"; "name"])
    by (repeat constructor).
  split; [exact H1|]. split; [exact H2|]. split; [exact H3|].
  exact (single_match_rule_moves_value (ops := Examples.integer_ops)
           Examples.sampleData (VStr "Book 2") "$.store.book[1].title"
           "second" ["name"] H1 H2 H3).
Defined.


End WriterExtras.
